(** * Math Dungeon: the battle core, the searches and the sorts

    A shallow embedding of the turn-based battle engine of Math Dungeon
    (CharacterStats, the AttackSystem damage formula, the boss fairness cap,
    BattleManager.startBattle / submitAnswer / enemyTurn), of the searches
    of DungeonSearcher, of the two sorts of LeaderboardSorter, of the
    NumberLine and of the AudioManager, followed by the properties proved
    about them.

    Numbers.  JavaScript has one number type, the IEEE double.  Every
    quantity stored in a stat block is an integer on the paths modelled here
    (each update ends in [Math.floor]), so stat fields are [Z]; the
    intermediate values that are multiplied by decimal constants (0.05,
    0.20, 0.5, 1.15, ...) are exact rationals [Q], and [Math.floor] is
    [Qfloor].  This idealises doubles as exact arithmetic.  The two can part
    ways where a product lands within rounding distance of an integer
    ([Math.floor(220 * 1.15)] is 252 in doubles, 253 exactly); module
    [Binary64] evaluates the same formulas in double precision, and section
    [DoublePrecision] checks that every concrete input used for the battle
    gives the same result there.  Scores, coordinates and volumes are exact
    rationals as well. *)

From Stdlib Require Import ZArith QArith Qround Qminmax Lia Lqa List String Bool Sorted.
From Stdlib Require Import Floats.SpecFloat.
From Stdlib Require OrderedTypeEx.
From Stdlib Require Import Permutation.
From Equations Require Import Equations.
Import ListNotations.

Open Scope Z_scope.

(** ** Outcomes of a JavaScript call *)

(** A call either returns, throws a [TypeError] (a property read on [null]
    or [undefined]), or never returns. *)
Inductive Outcome (A : Type) : Type :=
| Returns (a : A)
| ThrowsTypeError
| Diverges.

Arguments Returns {A} a.
Arguments ThrowsTypeError {A}.
Arguments Diverges {A}.

(** ** CharacterStats (src/game/Characters/CharacterStats.js) *)

Record Weapon : Type := mkWeapon {
  weapon_name : string;
  damageBonus : Z;
  description : string
}.

Record CharacterStats : Type := mkStats {
  maxHP : Z;
  currentHP : Z;
  attack : Z;
  defense : Z;
  level : Z;
  experience : Z;
  experienceToNextLevel : Z;
  gold : Z;
  equippedWeapon : Weapon
}.

(** [x || d] on numbers: the default replaces a falsy (zero) value. *)
Definition js_or (x d : Z) : Z := if x =? 0 then d else x.

Definition woodenSword : Weapon :=
  mkWeapon "Wooden Sword" 0 "A basic training sword".

(** The constructor's [config] object; an absent key reads as [None]. *)
Record StatsConfig : Type := mkConfig {
  cfg_maxHP : option Z;
  cfg_attack : option Z;
  cfg_defense : option Z;
  cfg_level : option Z;
  cfg_experience : option Z;
  cfg_experienceToNextLevel : option Z;
  cfg_gold : option Z;
  cfg_equippedWeapon : option Weapon
}.

Definition cfg_or (x : option Z) (d : Z) : Z :=
  match x with Some v => js_or v d | None => d end.

Definition newCharacterStats (config : StatsConfig) : CharacterStats :=
  let hp := cfg_or (cfg_maxHP config) 400 in
  {| maxHP := hp;
     currentHP := hp;
     attack := cfg_or (cfg_attack config) 10;
     defense := cfg_or (cfg_defense config) 5;
     level := cfg_or (cfg_level config) 1;
     experience := cfg_or (cfg_experience config) 0;
     experienceToNextLevel := cfg_or (cfg_experienceToNextLevel config) 100;
     gold := cfg_or (cfg_gold config) 0;
     equippedWeapon :=
       match cfg_equippedWeapon config with
       | Some w => w
       | None => woodenSword
       end |}.

Definition set_currentHP (s : CharacterStats) (hp : Z) : CharacterStats :=
  {| maxHP := maxHP s; currentHP := hp; attack := attack s;
     defense := defense s; level := level s; experience := experience s;
     experienceToNextLevel := experienceToNextLevel s; gold := gold s;
     equippedWeapon := equippedWeapon s |}.

Definition set_experience (s : CharacterStats) (e : Z) : CharacterStats :=
  {| maxHP := maxHP s; currentHP := currentHP s; attack := attack s;
     defense := defense s; level := level s; experience := e;
     experienceToNextLevel := experienceToNextLevel s; gold := gold s;
     equippedWeapon := equippedWeapon s |}.

Definition set_gold (s : CharacterStats) (g : Z) : CharacterStats :=
  {| maxHP := maxHP s; currentHP := currentHP s; attack := attack s;
     defense := defense s; level := level s; experience := experience s;
     experienceToNextLevel := experienceToNextLevel s; gold := g;
     equippedWeapon := equippedWeapon s |}.

(** [takeDamage(damage)]: the stats after the hit and the returned
    [actualDamage]. *)
Definition takeDamage (s : CharacterStats) (damage : Q) : CharacterStats * Z :=
  let actualDamage := Z.max 1 (Qfloor damage) in
  (set_currentHP s (Z.max 0 (currentHP s - actualDamage)), actualDamage).

Definition heal (s : CharacterStats) (amount : Z) : CharacterStats :=
  set_currentHP s (Z.min (maxHP s) (currentHP s + amount)).

Definition isAlive (s : CharacterStats) : bool := 0 <? currentHP s.

Definition levelUp (s : CharacterStats) : CharacterStats :=
  let oldMaxHP := maxHP s in
  let newMaxHP := Qfloor (inject_Z (maxHP s) * 1.2) in
  {| maxHP := newMaxHP;
     currentHP := currentHP s + (newMaxHP - oldMaxHP);
     attack := Qfloor (inject_Z (attack s) * 1.15);
     defense := Qfloor (inject_Z (defense s) * 1.1);
     level := level s + 1;
     experience := experience s;
     experienceToNextLevel := Qfloor (inject_Z (experienceToNextLevel s) * 1.5);
     gold := gold s;
     equippedWeapon := equippedWeapon s |}.

(** The body of the [while] loop of [addExperience]. *)
Definition addExperience_body (s : CharacterStats) : CharacterStats :=
  levelUp (set_experience s (experience s - experienceToNextLevel s)).

(** The [while] loop of [addExperience]: the guard is tested first, one
    unit of fuel is spent per iteration, and [None] means the fuel ran out
    with the guard still true. *)
Fixpoint addExperience_loop (fuel : nat) (s : CharacterStats) (leveledUp : bool)
  : option (CharacterStats * bool) :=
  if experienceToNextLevel s <=? experience s then
    match fuel with
    | O => None
    | S fuel' => addExperience_loop fuel' (addExperience_body s) true
    end
  else Some (s, leveledUp).

(** The stat block after [k] runs of the loop body. *)
Fixpoint levelUps (k : nat) (s : CharacterStats) : CharacterStats :=
  match k with
  | O => s
  | S k' => levelUps k' (addExperience_body s)
  end.

(** [addExperience(exp)].  Each iteration with a positive threshold lowers
    [experience] by at least one, so [experience] many iterations are
    enough; the loop only outlasts them when the threshold is not positive,
    and then it never stops. *)
Definition addExperience (s : CharacterStats) (exp : Z)
  : Outcome (CharacterStats * bool) :=
  let s0 := set_experience s (experience s + exp) in
  match addExperience_loop (Z.to_nat (experience s0)) s0 false with
  | Some r => Returns r
  | None => Diverges
  end.

(** ** AttackSystem (src/game/Battle/AttackSystem.js) *)

(** The attacker and defender objects handed to [calculateDamage]; the
    battle manager passes [{ attack: ... }], an object without a weapon
    bonus. *)
Record Attacker : Type := mkAttacker {
  attackerAttack : Z;
  attackerWeaponBonus : option Z
}.

Record Defender : Type := mkDefender {
  defenderDefense : Z
}.

(** Modelled from the spec: AttackSystem.js is not among the sources and
    the documented formula does not say how an attacker object without a
    weapon bonus is read; the spec reads it as
    [attacker.weaponDamageBonus or 0]. *)
Definition weaponBonus (attacker : Attacker) : Z :=
  match attackerWeaponBonus attacker with
  | Some b => js_or b 0
  | None => 0
  end.

(** The damage formula as documented for AttackSystem.calculateDamage:
<<
    baseDamage = attackerAttack + weaponBonus
    if (wrongAnswer): baseDamage *= 0.5
    variance = random(0 to 5)
    totalDamage = baseDamage + variance
    defensePenalty = defenderDefense * 0.5
    finalDamage = max(1, totalDamage - defensePenalty)
>>
    [variance] is the sample drawn in this call. *)
Definition calculateDamage (attacker : Attacker) (defender : Defender)
    (wasCorrect : bool) (variance : Z) : Q :=
  let baseDamage := inject_Z (attackerAttack attacker + weaponBonus attacker) in
  let baseDamage := if wasCorrect then baseDamage else (baseDamage * 0.5)%Q in
  let totalDamage := (baseDamage + inject_Z variance)%Q in
  let defensePenalty := (inject_Z (defenderDefense defender) * 0.5)%Q in
  let finalDamage := Qmax 1 (totalDamage - defensePenalty) in
  finalDamage.

(** Modelled from the spec: the body of AttackSystem.applyDamage is not
    among the sources.  The spec makes it the alive-after-hit operation on
    the target's stat block, and its callers read a boolean; the hit itself
    is the stat block's own [takeDamage], and the answer its [isAlive]. *)
Definition applyDamage (target : CharacterStats) (amount : Q)
  : CharacterStats * bool :=
  let s' := fst (takeDamage target amount) in
  (s', isAlive s').

(** ** The boss fairness cap (BattleManager.js) *)

Definition figureOutHowMuchDamageTheBossDoes
    (bossNormalDamage : Q) (heroLevel heroMaxHP : Z) : Z :=
  let levelsAboveOne := Z.max 0 (heroLevel - 1) in
  let damageMultiplier := (1 + inject_Z levelsAboveOne * 0.05)%Q in
  let boostedDamage := (bossNormalDamage * damageMultiplier)%Q in
  let maxAllowedDamage := (inject_Z heroMaxHP * 0.20)%Q in
  let finalDamage := Z.max 1 (Qfloor (Qmin boostedDamage maxAllowedDamage)) in
  finalDamage.

(** ** The formulas in double precision *)

Module Binary64.

Definition double : Type := spec_float.

Definition of_Z (z : Z) : double := binary_normalize 53 1024 z 0 false.
Definition mul : double -> double -> double := SFmul 53 1024.
Definition add : double -> double -> double := SFadd 53 1024.
Definition sub : double -> double -> double := SFsub 53 1024.
Definition div : double -> double -> double := SFdiv 53 1024.

(** The double a decimal literal denotes: the correctly rounded quotient of
    its numerator and denominator. *)
Definition of_Q (q : Q) : double :=
  div (of_Z (Qnum q)) (of_Z (Z.pos (Qden q))).

(** [Math.floor] of a finite double; [None] for NaN and the infinities. *)
Definition floor (x : double) : option Z :=
  match x with
  | S754_zero _ => Some 0
  | S754_finite s m e =>
      let z := if s then Z.neg m else Z.pos m in
      Some (if 0 <=? e then z * 2 ^ e else z / 2 ^ (- e))
  | S754_infinity _ | S754_nan => None
  end.

Definition min (x y : double) : double := if SFltb y x then y else x.
Definition max (x y : double) : double := if SFltb x y then y else x.

(** [Math.floor(x * c)] for a decimal constant [c]. *)
Definition floorTimes (x : double) (c : Q) : option Z := floor (mul x (of_Q c)).

Definition calculateDamage (attacker : Attacker) (defender : Defender)
    (wasCorrect : bool) (variance : Z) : double :=
  let baseDamage := of_Z (attackerAttack attacker + weaponBonus attacker) in
  let baseDamage := if wasCorrect then baseDamage else mul baseDamage (of_Q 0.5) in
  let totalDamage := add baseDamage (of_Z variance) in
  let defensePenalty := mul (of_Z (defenderDefense defender)) (of_Q 0.5) in
  max (of_Z 1) (sub totalDamage defensePenalty).

Definition figureOutHowMuchDamageTheBossDoes
    (bossNormalDamage : double) (heroLevel heroMaxHP : Z) : option Z :=
  let levelsAboveOne := Z.max 0 (heroLevel - 1) in
  let damageMultiplier := add (of_Z 1) (mul (of_Z levelsAboveOne) (of_Q 0.05)) in
  let boostedDamage := mul bossNormalDamage damageMultiplier in
  let maxAllowedDamage := mul (of_Z heroMaxHP) (of_Q 0.20) in
  option_map (Z.max 1) (floor (min boostedDamage maxAllowedDamage)).

End Binary64.

(** ** Difficulty settings (BattleManager.js) *)

Inductive Difficulty : Type := easy | medium | hard | nightmare.

Record DifficultySettings : Type := mkSettings {
  bossHealthMultiplier : Q;
  bossAttackMultiplier : Q;
  playerDamageMultiplier : Q;
  experienceMultiplier : Q;
  wrongAnswerPenalty : Q
}.

Definition GAME_DIFFICULTY_SETTINGS (d : Difficulty) : DifficultySettings :=
  match d with
  | easy => mkSettings 0.6 0.5 1.5 0.8 0.3
  | medium => mkSettings 1.0 1.0 1.0 1.2 0.5
  | hard => mkSettings 1.5 1.3 0.8 2.5 0.3
  | nightmare => mkSettings 2.0 1.8 0.6 5.0 0.2
  end.

(** ** Enemy (src/game/Characters/Enemy.js) *)

Record Enemy : Type := mkEnemy {
  enemy_name : string;
  enemy_type : string;
  enemy_stats : CharacterStats
}.

Record EnemyConfig : Type := mkEnemyConfig {
  ec_name : string;
  ec_type : string;
  ec_maxHP : Z;
  ec_attack : Z;
  ec_defense : Z;
  ec_level : Z
}.

Definition set_enemy_stats (e : Enemy) (s : CharacterStats) : Enemy :=
  {| enemy_name := enemy_name e; enemy_type := enemy_type e; enemy_stats := s |}.

(** ** The battle manager's collaborators *)

Record Problem : Type := mkProblem {
  question : string;
  answer : string;
  topic : string
}.

Record MathUnit : Type := mkUnit {
  unit_name : string;
  unit_topics : list string;
  unit_difficulty : option Z
}.

Inductive Side : Type := player_side | enemy_side.

(** The classes BattleManager.js imports whose files are not among the
    sources: the turn system, the answer check of the problem maker, and the
    constructor of [Enemy].  They are total and touch nothing but what they
    return. *)
Class Collaborators : Type := {
  TurnSystem : Type;
  newTurnSystem : TurnSystem;
  turn_reset : TurnSystem -> TurnSystem;
  turn_startTurn : TurnSystem -> Side -> TurnSystem;
  turn_endTurn : TurnSystem -> TurnSystem;
  validateAnswer : option Problem -> string -> bool;
  newEnemy : EnemyConfig -> Enemy
}.

Definition createForGrade `{Collaborators} (grade difficulty : Z) : Enemy :=
  let baseHP := 50 + grade * 10 + difficulty * 20 in
  let baseAttack := 5 + grade * 1 + difficulty * 2 in
  let baseDefense := 2 + Qfloor (inject_Z grade / 2) + difficulty in
  let '(type, name) :=
    if grade <=? 3 then ("slime"%string, "Math Slime"%string)
    else if grade <=? 6 then ("goblin"%string, "Equation Goblin"%string)
    else if grade <=? 9 then ("skeleton"%string, "Algebra Skeleton"%string)
    else ("dragon"%string, "Calculus Dragon"%string) in
  newEnemy {| ec_name := name; ec_type := type; ec_maxHP := baseHP;
              ec_attack := baseAttack; ec_defense := baseDefense;
              ec_level := grade |}.

(** ** BattleManager (src/game/Battle/BattleManager.js) *)

Inductive BattleState : Type :=
| waiting
| player_turn
| enemy_turn
| victory
| defeat.

Definition BattleState_eqb (a b : BattleState) : bool :=
  match a, b with
  | waiting, waiting
  | player_turn, player_turn
  | enemy_turn, enemy_turn
  | victory, victory
  | defeat, defeat => true
  | _, _ => false
  end.

(** The texts the manager produces, one constructor per template, holding
    the values the template interpolates:
    - [MsgAppeared]:     "MODE Mode - NAME appeared!"
    - [MsgCorrect]:      "Correct! You dealt DAMAGE damage to NAME!"
    - [MsgWrong]:        "Wrong! You dealt DAMAGE damage (reduced)."
    - [MsgVictory]:      "Victory! Gained EXP EXP and GOLD gold!"
    - [MsgEnemyAttacks]: "NAME attacks! DAMAGE damage!"
    - [MsgDefeat]:       "Defeat! You were knocked out!"
    - [MsgNotYourTurn]:  "Not your turn!" *)
Inductive Message : Type :=
| MsgAppeared (mode : Difficulty) (enemyName : string)
| MsgCorrect (dealt : Z) (enemyName : string)
| MsgWrong (dealt : Z)
| MsgVictory (expEarned goldEarned : Z)
| MsgEnemyAttacks (enemyName : string) (dealt : Z)
| MsgDefeat
| MsgNotYourTurn.

(** The object [submitAnswer] returns.  A key that the object literal does
    not list is [None]: reading it in JavaScript gives [undefined]. *)
Record SubmitResult : Type := mkResult {
  success : bool;
  message : option Message;
  correct : option bool;
  damage : option Z;
  enemyHP : option Z;
  victory_flag : option bool;
  expGained : option Z;
  goldGained : option Z;
  leveledUp : option bool
}.

(** What a call does to the world outside the manager: [save()] writes the
    hero's stat block to local storage, [setTimeout] queues an enemy turn. *)
Inductive Effect : Type :=
| SaveHero (saved : CharacterStats)
| SetTimeoutEnemyTurn (delay : Z).

Record Hero : Type := mkHero {
  hero_stats : CharacterStats
}.

Section Battle.
Context `{C : Collaborators}.

Record BattleManager : Type := mkBattle {
  hero : Hero;
  grade : Z;
  unit : option MathUnit;
  difficulty : Difficulty;
  difficultySettings : DifficultySettings;
  enemy : option Enemy;
  currentMathProblem : option Problem;
  battleState : BattleState;
  battleMessageHistory : list Message;
  turnSystem : TurnSystem
}.

Definition newBattleManager (theHero : Hero) (mathGradeLevel : Z)
    (mathUnit : option MathUnit) (difficultyLevel : Difficulty) : BattleManager :=
  {| hero := theHero;
     grade := mathGradeLevel;
     unit := mathUnit;
     difficulty := difficultyLevel;
     difficultySettings := GAME_DIFFICULTY_SETTINGS difficultyLevel;
     enemy := None;
     currentMathProblem := None;
     battleState := waiting;
     battleMessageHistory := [];
     turnSystem := newTurnSystem |}.

(** Modelled from the spec: createNewMathProblem is not among the sources;
    the spec has the manager request a new problem from the external
    Problem Generator.  What the generator hands back in this call is the
    argument [generated]. *)
Definition createNewMathProblem (bm : BattleManager) (generated : option Problem)
  : BattleManager :=
  {| hero := hero bm; grade := grade bm; unit := unit bm;
     difficulty := difficulty bm; difficultySettings := difficultySettings bm;
     enemy := enemy bm; currentMathProblem := generated;
     battleState := battleState bm;
     battleMessageHistory := battleMessageHistory bm;
     turnSystem := turnSystem bm |}.

Definition startBattle (bm : BattleManager) (generated : option Problem)
  : BattleManager :=
  (* STEP 1 *)
  let startingDifficulty :=
    match unit bm with
    | Some u =>
        match unit_difficulty u with
        | Some d => js_or d (Qceiling (inject_Z (grade bm) / 2))
        | None => Qceiling (inject_Z (grade bm) / 2)
        end
    | None => Qceiling (inject_Z (grade bm) / 2)
    end in
  let enemyDifficultyLevel :=
    match difficulty bm with
    | hard => Z.min 5 (startingDifficulty + 1)
    | nightmare => Z.min 5 (startingDifficulty + 2)
    | _ => startingDifficulty
    end in
  (* STEP 2 *)
  let created := createForGrade (grade bm) enemyDifficultyLevel in
  (* STEP 3 *)
  let originalHealth := maxHP (enemy_stats created) in
  let newHealth :=
    Qfloor (inject_Z originalHealth * bossHealthMultiplier (difficultySettings bm)) in
  let st := enemy_stats created in
  let st :=
    {| maxHP := newHealth; currentHP := newHealth; attack := attack st;
       defense := defense st; level := level st; experience := experience st;
       experienceToNextLevel := experienceToNextLevel st; gold := gold st;
       equippedWeapon := equippedWeapon st |} in
  let theEnemy := set_enemy_stats created st in
  (* STEP 4, STEP 5 *)
  let bm1 :=
    {| hero := hero bm; grade := grade bm; unit := unit bm;
       difficulty := difficulty bm; difficultySettings := difficultySettings bm;
       enemy := Some theEnemy;
       currentMathProblem := currentMathProblem bm;
       battleState := player_turn;
       battleMessageHistory := [MsgAppeared (difficulty bm) (enemy_name theEnemy)];
       turnSystem := turn_startTurn (turn_reset (turnSystem bm)) player_side |} in
  (* STEP 6 *)
  createNewMathProblem bm1 generated.

(** [submitAnswer(playerAnswer)].  [variance] is the random sample that
    [calculateDamage] draws in this call. *)
Definition submitAnswer (bm : BattleManager) (playerAnswer : string) (variance : Z)
  : Outcome (BattleManager * SubmitResult * list Effect) :=
  if negb (BattleState_eqb (battleState bm) player_turn) then
    Returns (bm,
             mkResult false (Some MsgNotYourTurn)
                      None None None None None None None,
             [])
  else
    (* STEP 1 *)
    let isCorrect := validateAnswer (currentMathProblem bm) playerAnswer in
    (* STEP 2 *)
    let heroAttack := attack (hero_stats (hero bm)) in
    match enemy bm with
    | None => ThrowsTypeError
    | Some theEnemy =>
        let enemyDefense := defense (enemy_stats theEnemy) in
        let damage0 :=
          calculateDamage (mkAttacker heroAttack None) (mkDefender enemyDefense)
                          isCorrect variance in
        let damage1 :=
          Qfloor (damage0 * playerDamageMultiplier (difficultySettings bm)) in
        let damage2 :=
          if negb isCorrect then
            Z.max 1 (Qfloor (inject_Z damage1
                             * wrongAnswerPenalty (difficultySettings bm)))
          else damage1 in
        (* STEP 3 *)
        let '(enemyStats, enemyAlive) :=
          applyDamage (enemy_stats theEnemy) (inject_Z damage2) in
        let hitEnemy := set_enemy_stats theEnemy enemyStats in
        (* STEP 4 *)
        let msg :=
          if isCorrect then MsgCorrect damage2 (enemy_name theEnemy)
          else MsgWrong damage2 in
        let history := battleMessageHistory bm ++ [msg] in
        (* STEP 5 *)
        if negb enemyAlive then
          let baseExp := level enemyStats * 10 in
          let expEarned :=
            Qfloor (inject_Z baseExp * experienceMultiplier (difficultySettings bm)) in
          match addExperience (hero_stats (hero bm)) expEarned with
          | Diverges => Diverges
          | ThrowsTypeError => ThrowsTypeError
          | Returns (heroStats, didLevelUp) =>
              let baseGold := level enemyStats * 15 in
              let goldEarned :=
                Qfloor (inject_Z baseGold
                        * experienceMultiplier (difficultySettings bm)) in
              let heroStats := set_gold heroStats (gold heroStats + goldEarned) in
              Returns
                ({| hero := mkHero heroStats; grade := grade bm; unit := unit bm;
                    difficulty := difficulty bm;
                    difficultySettings := difficultySettings bm;
                    enemy := Some hitEnemy;
                    currentMathProblem := currentMathProblem bm;
                    battleState := victory;
                    battleMessageHistory :=
                      history ++ [MsgVictory expEarned goldEarned];
                    turnSystem := turnSystem bm |},
                 {| success := true; message := None; correct := None;
                    damage := None; enemyHP := None;
                    victory_flag := Some true;
                    expGained := Some expEarned;
                    goldGained := Some goldEarned;
                    leveledUp := Some didLevelUp |},
                 [SaveHero heroStats])
          end
        else
          (* STEP 6 *)
          Returns
            ({| hero := hero bm; grade := grade bm; unit := unit bm;
                difficulty := difficulty bm;
                difficultySettings := difficultySettings bm;
                enemy := Some hitEnemy;
                currentMathProblem := currentMathProblem bm;
                battleState := enemy_turn;
                battleMessageHistory := history;
                turnSystem := turn_endTurn (turnSystem bm) |},
             {| success := true; message := Some msg; correct := Some isCorrect;
                damage := Some damage2;
                enemyHP := Some (currentHP enemyStats);
                victory_flag := None; expGained := None; goldGained := None;
                leveledUp := None |},
             [SetTimeoutEnemyTurn 1000])
    end.

(** [enemyTurn()]; it returns nothing on any path.  [variance] is the
    sample [calculateDamage] draws, [generated] the problem the generator
    hands back when the battle goes on. *)
Definition enemyTurn (bm : BattleManager) (variance : Z)
    (generated : option Problem) : Outcome BattleManager :=
  if negb (BattleState_eqb (battleState bm) enemy_turn) then Returns bm
  else
    match enemy bm with
    | None => ThrowsTypeError
    | Some theEnemy =>
        let bossAttack := attack (enemy_stats theEnemy) in
        let heroDefense := defense (hero_stats (hero bm)) in
        let baseDamage :=
          calculateDamage (mkAttacker bossAttack None) (mkDefender heroDefense)
                          true variance in
        let finalDamage :=
          figureOutHowMuchDamageTheBossDoes
            baseDamage
            (level (hero_stats (hero bm)))
            (maxHP (hero_stats (hero bm))) in
        let '(heroStats, heroAlive) :=
          applyDamage (hero_stats (hero bm)) (inject_Z finalDamage) in
        let history :=
          battleMessageHistory bm
          ++ [MsgEnemyAttacks (enemy_name theEnemy) finalDamage] in
        if negb heroAlive then
          Returns
            {| hero := mkHero heroStats; grade := grade bm; unit := unit bm;
               difficulty := difficulty bm;
               difficultySettings := difficultySettings bm;
               enemy := enemy bm;
               currentMathProblem := currentMathProblem bm;
               battleState := defeat;
               battleMessageHistory := history ++ [MsgDefeat];
               turnSystem := turnSystem bm |}
        else
          Returns
            (createNewMathProblem
               {| hero := mkHero heroStats; grade := grade bm; unit := unit bm;
                  difficulty := difficulty bm;
                  difficultySettings := difficultySettings bm;
                  enemy := enemy bm;
                  currentMathProblem := currentMathProblem bm;
                  battleState := player_turn;
                  battleMessageHistory := history;
                  turnSystem := turn_endTurn (turnSystem bm) |}
               generated)
    end.

(** *** Quantities and runs named for the statements below *)

(** The damage [submitAnswer] hands to [applyDamage] (its STEP 2) when the
    answer check says [isCorrect]. *)
Definition answerDamage (bm : BattleManager) (theEnemy : Enemy)
    (isCorrect : bool) (variance : Z) : Z :=
  let damage0 :=
    calculateDamage (mkAttacker (attack (hero_stats (hero bm))) None)
                    (mkDefender (defense (enemy_stats theEnemy)))
                    isCorrect variance in
  let damage1 := Qfloor (damage0 * playerDamageMultiplier (difficultySettings bm)) in
  if negb isCorrect then
    Z.max 1 (Qfloor (inject_Z damage1 * wrongAnswerPenalty (difficultySettings bm)))
  else damage1.

(** The enemy after [applyDamage] with that damage. *)
Definition enemyAfterHit (theEnemy : Enemy) (dealt : Z) : Enemy :=
  set_enemy_stats theEnemy
    (fst (applyDamage (enemy_stats theEnemy) (inject_Z dealt))).

(** The rewards of the victory branch. *)
Definition expReward (bm : BattleManager) (theEnemy : Enemy) : Z :=
  Qfloor (inject_Z (level (enemy_stats theEnemy) * 10)
          * experienceMultiplier (difficultySettings bm)).

Definition goldReward (bm : BattleManager) (theEnemy : Enemy) : Z :=
  Qfloor (inject_Z (level (enemy_stats theEnemy) * 15)
          * experienceMultiplier (difficultySettings bm)).

(** The damage [enemyTurn] hands to [applyDamage]. *)
Definition bossDamage (bm : BattleManager) (theEnemy : Enemy) (variance : Z) : Z :=
  figureOutHowMuchDamageTheBossDoes
    (calculateDamage (mkAttacker (attack (enemy_stats theEnemy)) None)
                     (mkDefender (defense (hero_stats (hero bm))))
                     true variance)
    (level (hero_stats (hero bm)))
    (maxHP (hero_stats (hero bm))).

(** The two turn operations, with the inputs each call consumes. *)
Inductive TurnOperation : Type :=
| CallSubmitAnswer (playerAnswer : string) (variance : Z)
| CallEnemyTurn (variance : Z) (generated : option Problem).

Definition perform (bm : BattleManager) (op : TurnOperation)
  : Outcome BattleManager :=
  match op with
  | CallSubmitAnswer playerAnswer variance =>
      match submitAnswer bm playerAnswer variance with
      | Returns (bm', _, _) => Returns bm'
      | ThrowsTypeError => ThrowsTypeError
      | Diverges => Diverges
      end
  | CallEnemyTurn variance generated => enemyTurn bm variance generated
  end.

Fixpoint performAll (bm : BattleManager) (ops : list TurnOperation)
  : Outcome BattleManager :=
  match ops with
  | [] => Returns bm
  | op :: rest =>
      match perform bm op with
      | Returns bm' => performAll bm' rest
      | ThrowsTypeError => ThrowsTypeError
      | Diverges => Diverges
      end
  end.

Definition terminal (s : BattleState) : bool :=
  match s with
  | victory | defeat => true
  | _ => false
  end.

(** The moves of the state diagram
    waiting -> player-turn -> enemy-turn -> (player-turn | victory | defeat),
    victory being reached from the player's turn and defeat from the
    enemy's. *)
Definition diagramMove (a b : BattleState) : bool :=
  match a, b with
  | waiting, player_turn
  | player_turn, enemy_turn
  | player_turn, victory
  | enemy_turn, player_turn
  | enemy_turn, defeat => true
  | _, _ => false
  end.

(** A manager whose battle can proceed: the hero's threshold is positive
    and, unless the battle is still waiting, there is an enemy. *)
Definition battleReady (bm : BattleManager) : Prop :=
  0 < experienceToNextLevel (hero_stats (hero bm))
  /\ (battleState bm = waiting \/ enemy bm <> None).

End Battle.

Arguments BattleManager {C}.

(** *** Quantities named for the further properties *)

(** The experience the first [k] runs of the loop body of [addExperience]
    subtract: the thresholds of the levels gained. *)
Fixpoint experiencePaid (k : nat) (s : CharacterStats) : Z :=
  match k with
  | O => 0
  | S k' => experienceToNextLevel s + experiencePaid k' (addExperience_body s)
  end.

(** Hit points within their range. *)
Definition hitPointsInRange (s : CharacterStats) : Prop :=
  0 <= currentHP s <= maxHP s.

(** A config value that is absent or not negative. *)
Definition notNegative (x : option Z) : Prop :=
  match x with
  | Some v => 0 <= v
  | None => True
  end.

(** The same enemy, whatever its hit points. *)
Definition sameEnemy (before after : Enemy) : Prop :=
  enemy_name after = enemy_name before
  /\ enemy_type after = enemy_type before
  /\ maxHP (enemy_stats after) = maxHP (enemy_stats before)
  /\ attack (enemy_stats after) = attack (enemy_stats before)
  /\ defense (enemy_stats after) = defense (enemy_stats before)
  /\ level (enemy_stats after) = level (enemy_stats before).

(** A battle whose state agrees with the hit points: both sides within
    their range, victory exactly when the enemy has none left, defeat
    exactly when the hero has none left. *)
Definition battleConsistent `{Collaborators} (bm : BattleManager) : Prop :=
  exists en,
    enemy bm = Some en
    /\ hitPointsInRange (hero_stats (hero bm))
    /\ hitPointsInRange (enemy_stats en)
    /\ (battleState bm = victory <-> currentHP (enemy_stats en) = 0)
    /\ (battleState bm = defeat <-> currentHP (hero_stats (hero bm)) = 0).

(** How many of the operations are [enemyTurn] calls. *)
Fixpoint enemyTurnCalls (ops : list TurnOperation) : nat :=
  match ops with
  | [] => 0
  | CallSubmitAnswer _ _ :: rest => enemyTurnCalls rest
  | CallEnemyTurn _ _ :: rest => S (enemyTurnCalls rest)
  end.

(** One exchange per round: the player's answer with its variance, then the
    enemy's turn with its variance and the next problem. *)
Fixpoint exchanges (rounds : list (string * Z * Z * option Problem))
  : list TurnOperation :=
  match rounds with
  | [] => []
  | (playerAnswer, variance, enemyVariance, generated) :: rest =>
      CallSubmitAnswer playerAnswer variance
      :: CallEnemyTurn enemyVariance generated
      :: exchanges rest
  end.

(** ** DungeonSearcher (src/game/Dungeon/DungeonSearcher.js) *)

Module DungeonSearcher.

(** A grade object of the curriculum data. *)
Record GradeObject : Type := mkGrade {
  grade : Z;
  name : string;
  minLevel : option Z
}.

(** [array[i]]: [None] is [undefined], which is what an index outside the
    array reads. *)
Definition array_get {A : Type} (arr : list A) (i : Z) : option A :=
  if i <? 0 then None else nth_error arr (Z.to_nat i).

(** [Math.floor((left + right) / 2)]. *)
Definition middle (lo hi : Z) : Z := Qfloor (inject_Z (lo + hi) / 2).

(** The recursive binary search; [lo] and [hi] are the parameters [left]
    and [right] of the source.  Reading [.grade] of an [undefined] element
    throws.  The recursion is on the width of the window [lo .. hi]. *)
Equations? binarySearchGrade (sortedGrades : list GradeObject) (targetGrade : Z)
    (lo hi : Z) : Outcome (option GradeObject)
    by wf (Z.to_nat (hi - lo + 1)) lt :=
  binarySearchGrade sortedGrades targetGrade lo hi with Z_gt_dec lo hi := {
    | left _ := Returns None;
    | right Hwindow
        with array_get sortedGrades (middle lo hi) := {
        | None := ThrowsTypeError;
        | Some midGrade with grade midGrade =? targetGrade := {
            | true := Returns (Some midGrade);
            | false with grade midGrade <? targetGrade := {
                | true :=
                    binarySearchGrade sortedGrades targetGrade (middle lo hi + 1) hi;
                | false :=
                    binarySearchGrade sortedGrades targetGrade lo (middle lo hi - 1)
              } } } }.
Proof.
  all: assert (Hmid : middle lo hi = (lo + hi) / 2)
         by exact (eq_sym (Zdiv_Qdiv (lo + hi) 2));
    rewrite Hmid;
    pose proof (Z.div_mod (lo + hi) 2 ltac:(lia));
    pose proof (Z.mod_pos_bound (lo + hi) 2 ltac:(lia));
    lia.
Qed.

(** The call with both defaults: [left = 0], [right = length - 1]. *)
Definition binarySearchGrade_default (sortedGrades : list GradeObject)
    (targetGrade : Z) : Outcome (option GradeObject) :=
  binarySearchGrade sortedGrades targetGrade 0 (Z.of_nat (List.length sortedGrades) - 1).

(** The number of elements [binarySearchGrade] reads (one per call that
    finds its window non-empty), by the same recursion. *)
Equations? binarySearchGrade_reads (sortedGrades : list GradeObject) (targetGrade : Z)
    (lo hi : Z) : nat
    by wf (Z.to_nat (hi - lo + 1)) lt :=
  binarySearchGrade_reads sortedGrades targetGrade lo hi with Z_gt_dec lo hi := {
    | left _ := 0%nat;
    | right Hwindow
        with array_get sortedGrades (middle lo hi) := {
        | None := 1%nat;
        | Some midGrade with grade midGrade =? targetGrade := {
            | true := 1%nat;
            | false with grade midGrade <? targetGrade := {
                | true :=
                    S (binarySearchGrade_reads sortedGrades targetGrade
                         (middle lo hi + 1) hi);
                | false :=
                    S (binarySearchGrade_reads sortedGrades targetGrade
                         lo (middle lo hi - 1))
              } } } }.
Proof.
  all: assert (Hmid : middle lo hi = (lo + hi) / 2)
         by exact (eq_sym (Zdiv_Qdiv (lo + hi) 2));
    rewrite Hmid;
    pose proof (Z.div_mod (lo + hi) 2 ltac:(lia));
    pose proof (Z.mod_pos_bound (lo + hi) 2 ltac:(lia));
    lia.
Qed.

(** The same search by unit name, [binarySearchUnit]; [===] and [<] on
    names are equality and the character-by-character order of strings. *)
Equations? binarySearchUnit (sortedUnits : list MathUnit) (targetUnitName : string)
    (lo hi : Z) : Outcome (option MathUnit)
    by wf (Z.to_nat (hi - lo + 1)) lt :=
  binarySearchUnit sortedUnits targetUnitName lo hi with Z_gt_dec lo hi := {
    | left _ := Returns None;
    | right Hwindow
        with array_get sortedUnits (middle lo hi) := {
        | None := ThrowsTypeError;
        | Some midUnit with String.eqb (unit_name midUnit) targetUnitName := {
            | true := Returns (Some midUnit);
            | false with String.ltb (unit_name midUnit) targetUnitName := {
                | true :=
                    binarySearchUnit sortedUnits targetUnitName (middle lo hi + 1) hi;
                | false :=
                    binarySearchUnit sortedUnits targetUnitName lo (middle lo hi - 1)
              } } } }.
Proof.
  all: assert (Hmid : middle lo hi = (lo + hi) / 2)
         by exact (eq_sym (Zdiv_Qdiv (lo + hi) 2));
    rewrite Hmid;
    pose proof (Z.div_mod (lo + hi) 2 ltac:(lia));
    pose proof (Z.mod_pos_bound (lo + hi) 2 ltac:(lia));
    lia.
Qed.

Definition binarySearchUnit_default (sortedUnits : list MathUnit)
    (targetUnitName : string) : Outcome (option MathUnit) :=
  binarySearchUnit sortedUnits targetUnitName 0 (Z.of_nat (List.length sortedUnits) - 1).

(** [a < b] on names. *)
Definition nameBefore (a b : string) : Prop := String.ltb a b = true.

(** A problem object of the curriculum data; an absent key is [None]. *)
Record CurriculumProblem : Type := mkCurriculumProblem {
  problem_text : string;
  problem_topic : option string;
  problem_topics : option (list string);
  problem_difficulty : option Z
}.

(** [problem.topic === topic || problem.topics?.includes(topic)]. *)
Definition matchesTopic (problem : CurriculumProblem) (topic : string) : bool :=
  match problem_topic problem with
  | Some t => String.eqb t topic
  | None => false
  end
  || match problem_topics problem with
     | Some ts => existsb (fun t => String.eqb t topic) ts
     | None => false
     end.

(** [for (let i = 0; i < arr.length; i++) { if (test(arr[i])) results.push(arr[i]) }]:
    the elements are visited in order and [results] grows at its end. *)
Definition pushMatching {A : Type} (test : A -> bool) (arr : list A) : list A :=
  fold_left (fun results x => if test x then results ++ [x] else results) arr [].

Definition linearSearchProblems (problems : list CurriculumProblem) (topic : string)
  : list CurriculumProblem :=
  pushMatching (fun problem => matchesTopic problem topic) problems.

(** A dungeon object: what [getAvailableDungeons] builds from a grade. *)
Record Dungeon : Type := mkDungeon {
  dungeon_grade : Z;
  dungeon_name : string;
  dungeon_minLevel : option Z;
  dungeon_units : list MathUnit
}.

(** [dungeon.minLevel <= playerLevel]; a missing minLevel compares false. *)
Definition accessible (playerLevel : Z) (dungeon : Dungeon) : bool :=
  match dungeon_minLevel dungeon with
  | Some m => m <=? playerLevel
  | None => false
  end.

Definition linearSearchAvailableDungeons (dungeons : list Dungeon) (playerLevel : Z)
  : list Dungeon :=
  pushMatching (accessible playerLevel) dungeons.

(** [problem.difficulty || 1] and the range test. *)
Definition difficultyOf (problem : CurriculumProblem) : Z :=
  match problem_difficulty problem with
  | Some d => js_or d 1
  | None => 1
  end.

Definition linearSearchByDifficulty (problems : list CurriculumProblem)
    (minDifficulty maxDifficulty : Z) : list CurriculumProblem :=
  pushMatching
    (fun problem => (minDifficulty <=? difficultyOf problem)
                    && (difficultyOf problem <=? maxDifficulty))
    problems.

(** [[...grades].sort((a, b) => a.grade - b.grade)]: the stable ordering by
    grade, built by inserting each grade in front of the first one that is
    not smaller. *)
Fixpoint insertByGrade (g : GradeObject) (sorted : list GradeObject)
  : list GradeObject :=
  match sorted with
  | [] => [g]
  | h :: rest =>
      if grade g <=? grade h then g :: sorted else h :: insertByGrade g rest
  end.

Definition sortByGrade (grades : list GradeObject) : list GradeObject :=
  fold_right insertByGrade [] grades.

(** The class [DungeonSearcher]; its fields [curriculumData.grades] and
    [sortedGrades] are [this_grades] and [this_sortedGrades].  A grade
    object's [units] and [problems] are read through [unitsOf] and
    [problemsOf]. *)
Section SearcherClass.
Variable unitsOf : GradeObject -> option (list MathUnit).
Variable problemsOf : GradeObject -> option (list CurriculumProblem).

Record Searcher : Type := mkSearcher {
  this_grades : list GradeObject;
  this_sortedGrades : list GradeObject
}.

Definition newDungeonSearcher (grades : list GradeObject) : Searcher :=
  {| this_grades := grades; this_sortedGrades := sortByGrade grades |}.

Definition findGrade (this : Searcher) (gradeNumber : Z)
  : Outcome (option GradeObject) :=
  binarySearchGrade_default (this_sortedGrades this) gradeNumber.

Definition findProblemsByTopic (this : Searcher) (gradeNumber : Z) (topic : string)
  : Outcome (list CurriculumProblem) :=
  match findGrade this gradeNumber with
  | Returns (Some g) =>
      match problemsOf g with
      | Some problems => Returns (linearSearchProblems problems topic)
      | None => Returns []
      end
  | Returns None => Returns []
  | ThrowsTypeError => ThrowsTypeError
  | Diverges => Diverges
  end.

Definition findProblemsByDifficulty (this : Searcher) (gradeNumber : Z)
    (minDifficulty maxDifficulty : Z) : Outcome (list CurriculumProblem) :=
  match findGrade this gradeNumber with
  | Returns (Some g) =>
      match problemsOf g with
      | Some problems =>
          Returns (linearSearchByDifficulty problems minDifficulty maxDifficulty)
      | None => Returns []
      end
  | Returns None => Returns []
  | ThrowsTypeError => ThrowsTypeError
  | Diverges => Diverges
  end.

(** [{ grade, name, minLevel: grade.minLevel || grade.grade, units: grade.units || [] }]. *)
Definition dungeonOf (g : GradeObject) : Dungeon :=
  {| dungeon_grade := grade g;
     dungeon_name := name g;
     dungeon_minLevel :=
       Some (match minLevel g with
             | Some m => js_or m (grade g)
             | None => grade g
             end);
     dungeon_units := match unitsOf g with Some us => us | None => [] end |}.

Definition getAvailableDungeons (this : Searcher) (playerLevel : Z) : list Dungeon :=
  linearSearchAvailableDungeons (map dungeonOf (this_sortedGrades this)) playerLevel.

End SearcherClass.

End DungeonSearcher.

(** ** LeaderboardSorter (src/game/Data/LeaderboardSorter.js) *)

Module LeaderboardSorter.

(** A JavaScript array as the list of its elements; [None] is an element
    that reads as [undefined] (a hole, or [undefined] itself). *)
Definition read {A : Type} (arr : list (option A)) (i : Z) : option A :=
  match DungeonSearcher.array_get arr i with
  | Some v => v
  | None => None
  end.

Fixpoint array_set {A : Type} (arr : list A) (i : nat) (x : A) : list A :=
  match arr, i with
  | [], _ => []
  | _ :: rest, O => x :: rest
  | h :: rest, S i' => h :: array_set rest i' x
  end.

(** [arr[i] = v]: inside the array the element is replaced; past the end
    the array grows, with holes up to [i].  A negative index sets a
    property that is no element of the array; the sorts never write to
    one. *)
Definition write {A : Type} (arr : list (option A)) (i : Z) (v : option A)
  : list (option A) :=
  if i <? 0 then arr
  else if i <? Z.of_nat (List.length arr) then array_set arr (Z.to_nat i) v
  else arr ++ repeat None (Z.to_nat i - List.length arr) ++ [v].

(** [[arr[i], arr[j]] = [arr[j], arr[i]]]: both elements are read, then
    [arr[i]] is written, then [arr[j]]. *)
Definition swap {A : Type} (arr : list (option A)) (i j : Z) : list (option A) :=
  let first := read arr j in
  let second := read arr i in
  write (write arr i first) j second.

(** [x || 0] on a property that holds a number or is absent. *)
Definition orZero (x : option Q) : Q :=
  match x with
  | Some q => if Qeq_bool q 0 then 0%Q else q
  | None => 0%Q
  end.

(** One array holding a rearrangement of another that only moved elements
    between the indices [lo] and [hi]: the same length, the same elements,
    every index outside [lo..hi] untouched, and whatever was true of every
    element between [lo] and [hi] still true of every element there. *)
Definition rearranged {A : Type} (lo hi : Z) (before after : list (option A))
  : Prop :=
  List.length after = List.length before
  /\ Permutation before after
  /\ (forall k, ~ (lo <= k <= hi) ->
        DungeonSearcher.array_get after k = DungeonSearcher.array_get before k)
  /\ (forall P : option A -> Prop,
        (forall k v, lo <= k <= hi ->
                     DungeonSearcher.array_get before k = Some v -> P v) ->
        forall k v, lo <= k <= hi ->
                    DungeonSearcher.array_get after k = Some v -> P v).

(** The elements between [lo] and [hi] are entries, and each stands in
    relation [R] to every later one. *)
Definition sortedBetween {A : Type} (R : A -> A -> Prop) (lo hi : Z)
    (arr : list (option A)) : Prop :=
  forall i j a b,
    lo <= i -> i <= j -> j <= hi ->
    read arr i = Some a -> read arr j = Some b -> R a b.

Section Sorts.
(** The entries are objects of any shape; [score] and
    [completionPercentage] read the two properties the quicksort ranks by,
    [None] when the property is absent. *)
Variable Entry : Type.
Variable score : Entry -> option Q.
Variable completionPercentage : Entry -> option Q.

(** [entry.score || entry.completionPercentage || 0]. *)
Definition rankingKey (entry : Entry) : Q :=
  match score entry with
  | Some s => if Qeq_bool s 0 then orZero (completionPercentage entry) else s
  | None => orZero (completionPercentage entry)
  end.

(** The [for] loop of [partitionLeaderboard], [steps] iterations from [j]
    on. *)
Fixpoint partition_loop (steps : nat) (arr : list (option Entry)) (pivot : Q)
    (i j : Z) : Outcome (list (option Entry) * Z) :=
  match steps with
  | O => Returns (arr, i)
  | S steps' =>
      match read arr j with
      | None => ThrowsTypeError
      | Some current =>
          let currentScore := rankingKey current in
          if Qle_bool pivot currentScore then
            let i := i + 1 in
            partition_loop steps' (swap arr i j) pivot i (j + 1)
          else partition_loop steps' arr pivot i (j + 1)
      end
  end.

(** [partitionLeaderboard(arr, left, right)]: the array afterwards and the
    index returned. *)
Definition partitionLeaderboard (arr : list (option Entry)) (lo hi : Z)
  : Outcome (list (option Entry) * Z) :=
  match read arr hi with
  | None => ThrowsTypeError
  | Some last =>
      let pivot := rankingKey last in
      match partition_loop (Z.to_nat (hi - lo)) arr pivot (lo - 1) lo with
      | Returns (arr, i) => Returns (swap arr (i + 1) hi, i + 1)
      | ThrowsTypeError => ThrowsTypeError
      | Diverges => Diverges
      end
  end.

(** [quicksortLeaderboard(arr, left, right)], which sorts [arr] in place
    and returns it; the result is the array afterwards.  [depth] bounds the
    nesting of the recursive calls, and [Diverges] stands for a nesting
    deeper than that. *)
Fixpoint quicksort_nested (depth : nat) (arr : list (option Entry)) (lo hi : Z)
  : Outcome (list (option Entry)) :=
  if lo <? hi then
    match depth with
    | O => Diverges
    | S depth' =>
        match partitionLeaderboard arr lo hi with
        | Returns (arr, pivotIndex) =>
            match quicksort_nested depth' arr lo (pivotIndex - 1) with
            | Returns arr => quicksort_nested depth' arr (pivotIndex + 1) hi
            | ThrowsTypeError => ThrowsTypeError
            | Diverges => Diverges
            end
        | ThrowsTypeError => ThrowsTypeError
        | Diverges => Diverges
        end
    end
  else Returns arr.

(** Each partition puts its pivot in place, so the calls nest no deeper
    than the window is wide. *)
Definition quicksortLeaderboard (arr : list (option Entry)) (lo hi : Z)
  : Outcome (list (option Entry)) :=
  quicksort_nested (Z.to_nat (hi - lo + 1)) arr lo hi.

Definition quicksortLeaderboard_default (arr : list (option Entry))
  : Outcome (list (option Entry)) :=
  quicksortLeaderboard arr 0 (Z.of_nat (List.length arr) - 1).

(** [bubbleSort(arr, sortBy, ascending)].  [sortBy] names a property; here
    it is the function that reads that property. *)
Section BubbleSort.
Variable sortBy : Entry -> option Q.
Variable ascending : bool.

(** The inner [for] loop: [steps] iterations from [j] on. *)
Fixpoint bubble_pass (steps : nat) (arrCopy : list (option Entry)) (j : Z)
    (swapped : bool) : Outcome (list (option Entry) * bool) :=
  match steps with
  | O => Returns (arrCopy, swapped)
  | S steps' =>
      match read arrCopy j, read arrCopy (j + 1) with
      | Some current, Some next =>
          let a := orZero (sortBy current) in
          let b := orZero (sortBy next) in
          let shouldSwap :=
            if ascending then negb (Qle_bool a b) else negb (Qle_bool b a) in
          if shouldSwap then
            bubble_pass steps' (swap arrCopy j (j + 1)) (j + 1) true
          else bubble_pass steps' arrCopy (j + 1) swapped
      | _, _ => ThrowsTypeError
      end
  end.

(** The outer [for] loop: at most [passes] passes from [i] on, left early
    by [break] after a pass without a swap. *)
Fixpoint bubble_passes (passes : nat) (arrCopy : list (option Entry)) (n i : Z)
  : Outcome (list (option Entry)) :=
  match passes with
  | O => Returns arrCopy
  | S passes' =>
      match bubble_pass (Z.to_nat (n - i - 1)) arrCopy 0 false with
      | Returns (arrCopy, swapped) =>
          if negb swapped then Returns arrCopy
          else bubble_passes passes' arrCopy n (i + 1)
      | ThrowsTypeError => ThrowsTypeError
      | Diverges => Diverges
      end
  end.

(** The result is the copy; [arr] itself is not written to. *)
Definition bubbleSort (arr : list (option Entry)) : Outcome (list (option Entry)) :=
  let n := Z.of_nat (List.length arr) in
  let arrCopy := arr in
  bubble_passes (Z.to_nat (n - 1)) arrCopy n 0.

(** The order [bubbleSort] is asked for. *)
Definition inOrder (a b : Entry) : Prop :=
  if ascending then (orZero (sortBy a) <= orZero (sortBy b))%Q
  else (orZero (sortBy b) <= orZero (sortBy a))%Q.

End BubbleSort.

End Sorts.

End LeaderboardSorter.

(** ** NumberLine (src/game/Visualization/NumberLine.js) *)

Module NumberLine.

(** The fields of the object that its methods read and write; the canvas
    and its drawing context only receive drawing calls.  Numbers are exact
    rationals here. *)
Record NumberLine : Type := mkNumberLine {
  width : Q;
  height : Q;
  min : Q;
  max : Q;
  value : Q
}.

Definition newNumberLine (width height : Q) : NumberLine :=
  {| width := width; height := height; min := -10; max := 10; value := 0 |}.

Definition setRange (this : NumberLine) (min max : Q) : NumberLine :=
  {| width := width this; height := height this;
     min := min; max := max; value := value this |}.

Definition setValue (this : NumberLine) (value : Q) : NumberLine :=
  {| width := width this; height := height this;
     min := min this; max := max this; value := value |}.

(** [Math.min(21, range + 1)], the number of tick marks of [render]. *)
Definition numTicks (this : NumberLine) : Q :=
  Qmin 21 (max this - min this + 1).

(** What [render] does for the current value: no marker when the value is
    outside the range, and otherwise a marker at
    [padding + ((value - min) / range) * lineWidth], a quotient that is
    NaN when the range is 0. *)
Inductive Marker : Type :=
| NoMarker
| MarkerAt (valueX : Q)
| MarkerAtNaN.

Definition marker (this : NumberLine) : Marker :=
  let padding := 40%Q in
  let lineWidth := (width this - padding * 2)%Q in
  let range := (max this - min this)%Q in
  if Qle_bool (min this) (value this) && Qle_bool (value this) (max this) then
    if Qeq_bool range 0 then MarkerAtNaN
    else MarkerAt (padding + ((value this - min this) / range) * lineWidth)
  else NoMarker.

(** [showOperation(a, b, operation)]: the number line after the range is
    set and drawn, and the two callbacks handed to [setTimeout], each a
    delay in milliseconds and the value its callback sets before it
    renders. *)
Definition showOperation (this : NumberLine) (a b : Q) (operation : string)
  : NumberLine * list (Z * Q) :=
  let plus := String.eqb operation "+" in
  let this :=
    setRange this
      (Qmin (Qmin a b) (a + (if plus then b else - b)) - 5)
      (Qmax (Qmax a b) (a + (if plus then b else - b)) + 5) in
  (this, [(500, a); (1500, (if plus then a + b else a - b)%Q)]).

End NumberLine.

(** ** AudioManager (src/utils/audioManager.js) *)

Module AudioManager.

(** What reaches the Web Audio API.  An oscillator is known by the number
    of oscillators its context had created before it.
    - [ToneStarted]: the oscillator of [generateTone], with its gain ramp
      to [peak]; it is started and told to stop after [duration].
    - [BackgroundStarted]: the oscillator of [playBackgroundMusic] with its
      fixed gain; it is started and not told to stop.
    - [OscillatorStopped]: [oscillator.stop()]. *)
Inductive AudioCall : Type :=
| ToneStarted (oscillator : nat) (frequency duration : Q) (type : string) (peak : Q)
| BackgroundStarted (oscillator : nat) (gain : Q)
| OscillatorStopped (oscillator : nat).

(** [audioContext] is [None] for [null] (the constructor of the context
    threw) and otherwise holds the number of oscillators created so far;
    [backgroundMusic] holds the stored oscillator, [None] for [null] and for
    the field never assigned. *)
Record AudioManager : Type := mkAudioManager {
  audioContext : option nat;
  masterVolume : Q;
  soundEnabled : bool;
  backgroundMusic : option nat
}.

(** [new AudioManager()]; [supported] says whether the browser built an
    audio context. *)
Definition newAudioManager (supported : bool) : AudioManager :=
  {| audioContext := if supported then Some 0%nat else None;
     masterVolume := 0.5;
     soundEnabled := true;
     backgroundMusic := None |}.

(** [generateTone(frequency, duration, type)]: the manager afterwards, the
    oscillator returned ([None] for [null]) and the calls made. *)
Definition generateTone (this : AudioManager) (frequency duration : Q) (type : string)
  : AudioManager * option nat * list AudioCall :=
  match audioContext this with
  | Some created =>
      if soundEnabled this then
        ({| audioContext := Some (S created);
            masterVolume := masterVolume this;
            soundEnabled := soundEnabled this;
            backgroundMusic := backgroundMusic this |},
         Some created,
         [ToneStarted created frequency duration type (masterVolume this)])
      else (this, None, [])
  | None => (this, None, [])
  end.

Definition playClickSound (this : AudioManager) : AudioManager * list AudioCall :=
  let '(this, _, calls) := generateTone this 800 0.05 "sine" in
  (this, calls).

Definition playBackgroundMusic (this : AudioManager) : AudioManager * list AudioCall :=
  match audioContext this with
  | Some created =>
      if soundEnabled this then
        ({| audioContext := Some (S created);
            masterVolume := masterVolume this;
            soundEnabled := soundEnabled this;
            backgroundMusic := Some created |},
         [BackgroundStarted created (masterVolume this * 0.2)])
      else (this, [])
  | None => (this, [])
  end.

Definition stopBackgroundMusic (this : AudioManager) : AudioManager * list AudioCall :=
  match backgroundMusic this with
  | Some oscillator =>
      ({| audioContext := audioContext this;
          masterVolume := masterVolume this;
          soundEnabled := soundEnabled this;
          backgroundMusic := None |},
       [OscillatorStopped oscillator])
  | None => (this, [])
  end.

Definition setVolume (this : AudioManager) (volume : Q) : AudioManager :=
  {| audioContext := audioContext this;
     masterVolume := Qmax 0 (Qmin 1 volume);
     soundEnabled := soundEnabled this;
     backgroundMusic := backgroundMusic this |}.

Definition setSoundEnabled (this : AudioManager) (enabled : bool)
  : AudioManager * list AudioCall :=
  let this :=
    {| audioContext := audioContext this;
       masterVolume := masterVolume this;
       soundEnabled := enabled;
       backgroundMusic := backgroundMusic this |} in
  if negb enabled then stopBackgroundMusic this else (this, []).

(** The calls a caller, or a timer set by one of the play-sound methods,
    makes on the manager. *)
Inductive AudioOperation : Type :=
| CallGenerateTone (frequency duration : Q) (type : string)
| CallPlayClickSound
| CallPlayBackgroundMusic
| CallStopBackgroundMusic
| CallSetVolume (volume : Q)
| CallSetSoundEnabled (enabled : bool).

Definition perform (this : AudioManager) (op : AudioOperation)
  : AudioManager * list AudioCall :=
  match op with
  | CallGenerateTone frequency duration type =>
      let '(this, _, calls) := generateTone this frequency duration type in
      (this, calls)
  | CallPlayClickSound => playClickSound this
  | CallPlayBackgroundMusic => playBackgroundMusic this
  | CallStopBackgroundMusic => stopBackgroundMusic this
  | CallSetVolume volume => (setVolume this volume, [])
  | CallSetSoundEnabled enabled => setSoundEnabled this enabled
  end.

Fixpoint performAll (this : AudioManager) (ops : list AudioOperation)
  : AudioManager * list AudioCall :=
  match ops with
  | [] => (this, [])
  | op :: rest =>
      let '(this, calls) := perform this op in
      let '(this, later) := performAll this rest in
      (this, calls ++ later)
  end.

(** The background oscillators a list of calls leaves sounding: started
    and not stopped since. *)
Fixpoint sounding (calls : list AudioCall) (playing : list nat) : list nat :=
  match calls with
  | [] => playing
  | BackgroundStarted oscillator _ :: rest => sounding rest (playing ++ [oscillator])
  | OscillatorStopped oscillator :: rest =>
      sounding rest (filter (fun o => negb (Nat.eqb o oscillator)) playing)
  | ToneStarted _ _ _ _ _ :: rest => sounding rest playing
  end.

(** The gain a call sets, if it starts a sound. *)
Definition loudness (call : AudioCall) : option Q :=
  match call with
  | ToneStarted _ _ _ _ peak => Some peak
  | BackgroundStarted _ gain => Some gain
  | OscillatorStopped _ => None
  end.

End AudioManager.

(** ** One concrete set of collaborators *)

Record SimpleTurnSystem : Type := mkTurn {
  activeSide : option Side;
  turnCount : Z
}.

(** Modelled from the spec: TurnSystem.js, the problem maker's answer check
    and the Enemy constructor are not among the sources.  This instance is
    one choice for them, used to run the manager on concrete battles: a turn
    system that is idle or has one active side and counts an exchange when
    the enemy's turn ends, answers compared as text, and an enemy whose stat
    block is built by the CharacterStats constructor.  The theorems below
    hold for every instance. *)
#[export] Instance simpleCollaborators : Collaborators := {|
  TurnSystem := SimpleTurnSystem;
  newTurnSystem := mkTurn None 0;
  turn_reset := fun _ => mkTurn None 0;
  turn_startTurn := fun t side => mkTurn (Some side) (turnCount t);
  turn_endTurn := fun t =>
    match activeSide t with
    | Some enemy_side => mkTurn None (turnCount t + 1)
    | _ => mkTurn None (turnCount t)
    end;
  validateAnswer := fun p given =>
    match p with
    | Some pr => String.eqb (answer pr) given
    | None => false
    end;
  newEnemy := fun cfg =>
    mkEnemy (ec_name cfg) (ec_type cfg)
      (newCharacterStats
         (mkConfig (Some (ec_maxHP cfg)) (Some (ec_attack cfg))
                   (Some (ec_defense cfg)) (Some (ec_level cfg))
                   None None None None))
|}.

(** A fresh hero: the defaults of the CharacterStats constructor. *)
Definition defaultStats : CharacterStats :=
  newCharacterStats (mkConfig None None None None None None None None).

(** A grade-1 battle on medium difficulty, started with the problem
    "2 + 3 = ?". *)
Definition sampleProblem : Problem := mkProblem "2 + 3 = ?" "5" "Addition".

Definition sampleBattle : BattleManager :=
  startBattle (newBattleManager (mkHero defaultStats) 1 None medium)
              (Some sampleProblem).

(** The run of the sample battle used below: six exchanges in which the
    hero answers correctly with variance 5 and the slime hits with variance
    0, then the last blow. *)
Definition sampleExchange : list TurnOperation :=
  [CallSubmitAnswer "5" 5; CallEnemyTurn 0 (Some sampleProblem)].

Definition sixExchanges : list TurnOperation :=
  sampleExchange ++ sampleExchange ++ sampleExchange
  ++ sampleExchange ++ sampleExchange ++ sampleExchange.

Definition slimeLog : list Message :=
  [MsgAppeared medium "Math Slime";
   MsgCorrect 13 "Math Slime"; MsgEnemyAttacks "Math Slime" 5;
   MsgCorrect 13 "Math Slime"; MsgEnemyAttacks "Math Slime" 5;
   MsgCorrect 13 "Math Slime"; MsgEnemyAttacks "Math Slime" 5;
   MsgCorrect 13 "Math Slime"; MsgEnemyAttacks "Math Slime" 5;
   MsgCorrect 13 "Math Slime"; MsgEnemyAttacks "Math Slime" 5;
   MsgCorrect 13 "Math Slime"; MsgEnemyAttacks "Math Slime" 5].

(** The sample battle after the six exchanges: the slime has 2 hit points
    left and it is the player's turn. *)
Definition lastBlowBattle : BattleManager :=
  {| hero := mkHero (mkStats 400 370 10 5 1 0 100 0 woodenSword);
     grade := 1; unit := None; difficulty := medium;
     difficultySettings := GAME_DIFFICULTY_SETTINGS medium;
     enemy := Some (mkEnemy "Math Slime" "slime"
                      (mkStats 80 2 8 3 1 0 100 0 woodenSword));
     currentMathProblem := Some sampleProblem;
     battleState := player_turn;
     battleMessageHistory := slimeLog;
     turnSystem := mkTurn None 0 |}.

(** The sample battle after the last blow. *)
Definition wonBattle : BattleManager :=
  {| hero := mkHero (mkStats 400 370 10 5 1 12 100 18 woodenSword);
     grade := 1; unit := None; difficulty := medium;
     difficultySettings := GAME_DIFFICULTY_SETTINGS medium;
     enemy := Some (mkEnemy "Math Slime" "slime"
                      (mkStats 80 0 8 3 1 0 100 0 woodenSword));
     currentMathProblem := Some sampleProblem;
     battleState := victory;
     battleMessageHistory :=
       slimeLog ++ [MsgCorrect 13 "Math Slime"; MsgVictory 12 18];
     turnSystem := mkTurn None 0 |}.

(** A curriculum with five grades, sorted by grade. *)
Definition sampleGrades : list DungeonSearcher.GradeObject :=
  [DungeonSearcher.mkGrade 1 "Grade 1" None;
   DungeonSearcher.mkGrade 2 "Grade 2" None;
   DungeonSearcher.mkGrade 3 "Grade 3" (Some 2);
   DungeonSearcher.mkGrade 5 "Grade 5" (Some 4);
   DungeonSearcher.mkGrade 8 "Grade 8" None].

(** Grades with a repeated entry, and units in the order of their names. *)
Definition repeatedGrades : list DungeonSearcher.GradeObject :=
  [DungeonSearcher.mkGrade 1 "Grade 1" None;
   DungeonSearcher.mkGrade 3 "Grade 3" None;
   DungeonSearcher.mkGrade 3 "Grade 3 (advanced)" (Some 5);
   DungeonSearcher.mkGrade 4 "Grade 4" None].

Definition sampleUnits : list MathUnit :=
  [mkUnit "Addition" ["sums"%string] (Some 1);
   mkUnit "Fractions" ["halves"%string] (Some 2);
   mkUnit "Geometry" [] None].

(** Leaderboard entries for the two sorts: a player with a score, a
    completion percentage, both or neither. *)
Record LeaderboardEntry : Type := mkLeaderboardEntry {
  player : string;
  entry_score : option Q;
  entry_completionPercentage : option Q
}.

Definition scored (name : string) (points : Q) : LeaderboardEntry :=
  mkLeaderboardEntry name (Some points) None.

(** The scores of the two walk-throughs in the documentation. *)
Definition quicksortScores : list LeaderboardEntry :=
  [scored "Ada" 85; scored "Ben" 92; scored "Cy" 78; scored "Di" 95;
   scored "Eve" 88].

Definition bubbleSortScores : list LeaderboardEntry :=
  [scored "Ada" 64; scored "Ben" 34; scored "Cy" 25; scored "Di" 12;
   scored "Eve" 22].

(** * Properties *)

(** ** Arithmetic of [Math.floor], [Math.min] and [Math.max] *)

(** Equations and inequalities between rationals built from integers and
    decimal constants, settled on numerators and denominators. *)
Ltac Qeq_arith :=
  unfold Qeq, Qle, Qlt, Qminus, Qopp, Qmult, Qplus, inject_Z;
  cbn [Qnum Qden Pos.mul Z.opp];
  lia.

Lemma Qfloor_scale (n a : Z) (b : positive) :
  Qfloor (inject_Z n * (a # b)) = (n * a) / Zpos b.
Proof. reflexivity. Qed.

Lemma Qfloor_min (x y : Q) : Qfloor (Qmin x y) = Z.min (Qfloor x) (Qfloor y).
Proof.
  destruct (Qlt_le_dec y x) as [H|H].
  - rewrite (Qfloor_comp _ _ (Q.min_r x y (Qlt_le_weak _ _ H))).
    pose proof (Qfloor_resp_le _ _ (Qlt_le_weak _ _ H)). lia.
  - rewrite (Qfloor_comp _ _ (Q.min_l x y H)).
    pose proof (Qfloor_resp_le _ _ H). lia.
Qed.

Lemma Qfloor_max_Z (z : Z) (x : Q) :
  Qfloor (Qmax (inject_Z z) x) = Z.max z (Qfloor x).
Proof.
  destruct (Qlt_le_dec x (inject_Z z)) as [H|H].
  - rewrite (Qfloor_comp _ _ (Q.max_l (inject_Z z) x (Qlt_le_weak _ _ H))).
    pose proof (Qfloor_resp_le _ _ (Qlt_le_weak _ _ H)).
    rewrite Qfloor_Z in *. lia.
  - rewrite (Qfloor_comp _ _ (Q.max_r (inject_Z z) x H)).
    pose proof (Qfloor_resp_le _ _ H). rewrite Qfloor_Z in *. lia.
Qed.

(** ** The boss fairness cap *)

(** The level multiplier applied to an integer nominal damage, floored, in
    integer arithmetic: [n * (1 + (L - 1) * 0.05) = n * (19 + L) / 20]. *)
Lemma boosted_floor (n L : Z) :
  1 <= L ->
  Qfloor (inject_Z n * (1 + inject_Z (Z.max 0 (L - 1)) * 0.05))
  = (n * (19 + L)) / 20.
Proof.
  intros HL. rewrite Z.max_r by lia.
  rewrite (Qfloor_comp _ ((n * (19 + L)) # 20)).
  - reflexivity.
  - Qeq_arith.
Qed.

Lemma boss_cap_integer_form (n L M : Z) :
  1 <= L ->
  figureOutHowMuchDamageTheBossDoes (inject_Z n) L M
  = Z.max 1 (Z.min ((n * (19 + L)) / 20) (M / 5)).
Proof.
  intros HL. unfold figureOutHowMuchDamageTheBossDoes.
  rewrite Qfloor_min, boosted_floor by assumption.
  replace (Qfloor (inject_Z M * 0.20)) with (M / 5); [reflexivity|].
  change (0.20)%Q with (20 # 100). rewrite Qfloor_scale.
  change (Z.pos 100) with (5 * 20). rewrite Z.div_mul_cancel_r by lia.
  reflexivity.
Qed.

Lemma fifth_floor (M : Z) : Qfloor (inject_Z M * 0.20) = M / 5.
Proof.
  change (0.20)%Q with (20 # 100). rewrite Qfloor_scale.
  change (Z.pos 100) with (5 * 20). rewrite Z.div_mul_cancel_r by lia.
  reflexivity.
Qed.

Lemma fifth_ceiling_pos (M : Z) : 0 < M -> 1 <= Qceiling (inject_Z M * 0.20).
Proof.
  intros HM.
  assert (H : (0 < inject_Z (Qceiling (inject_Z M * 0.20)))%Q).
  { apply Qlt_le_trans with (inject_Z M * 0.20)%Q.
    - Qeq_arith.
    - apply Qle_ceiling. }
  rewrite <- (Zlt_Qlt 0) in H. lia.
Qed.




(** ** Taking a hit *)

Lemma takeDamage_currentHP (s : CharacterStats) (damage : Q) :
  currentHP (fst (takeDamage s damage))
  = Z.max 0 (currentHP s - Z.max 1 (Qfloor damage)).
Proof. reflexivity. Qed.

Lemma applyDamage_alive (s : CharacterStats) (amount : Q) :
  snd (applyDamage s amount) = (0 <? currentHP (fst (applyDamage s amount))).
Proof. reflexivity. Qed.




(** ** The damage formula *)

Lemma js_or_zero (x : Z) : js_or x 0 = x.
Proof. unfold js_or. destruct (Z.eqb_spec x 0); congruence. Qed.




(** What the battle manager passes, an attacker without a weapon bonus. *)
Lemma calculateDamage_no_bonus (atk def variance : Z) (wasCorrect : bool) :
  calculateDamage (mkAttacker atk None) (mkDefender def) wasCorrect variance
  = Qmax 1 ((if wasCorrect then inject_Z atk else inject_Z atk * 0.5)
            + inject_Z variance - inject_Z def * 0.5).
Proof.
  unfold calculateDamage, weaponBonus.
  cbn [attackerAttack attackerWeaponBonus defenderDefense].
  rewrite Z.add_0_r. reflexivity.
Qed.

Lemma calculateDamage_ge_1 a d (wasCorrect : bool) (variance : Z) :
  (1 <= calculateDamage a d wasCorrect variance)%Q.
Proof. unfold calculateDamage. apply Q.le_max_l. Qed.

(** ** Experience and levelling *)

Lemma levelUp_threshold (s : CharacterStats) :
  0 < experienceToNextLevel s ->
  experienceToNextLevel s <= experienceToNextLevel (levelUp s).
Proof.
  intros H. unfold levelUp. cbn [experienceToNextLevel].
  change (1.5)%Q with (15 # 10). rewrite Qfloor_scale.
  apply Z.div_le_lower_bound; lia.
Qed.

Lemma addExperience_body_threshold (s : CharacterStats) :
  0 < experienceToNextLevel s ->
  0 < experienceToNextLevel (addExperience_body s).
Proof.
  intros H. unfold addExperience_body.
  pose proof (levelUp_threshold
                (set_experience s (experience s - experienceToNextLevel s)) H).
  cbn [set_experience experienceToNextLevel] in *. lia.
Qed.

Lemma addExperience_body_experience (s : CharacterStats) :
  experience (addExperience_body s) = experience s - experienceToNextLevel s.
Proof. reflexivity. Qed.

Lemma addExperience_body_level (s : CharacterStats) :
  level (addExperience_body s) = level s + 1.
Proof. reflexivity. Qed.

Lemma levelUps_level (k : nat) (s : CharacterStats) :
  level (levelUps k s) = level s + Z.of_nat k.
Proof.
  revert s. induction k as [|k IH]; intros s.
  - cbn. lia.
  - cbn [levelUps]. rewrite IH, addExperience_body_level. lia.
Qed.

(** More fuel never changes the answer of a loop that has stopped. *)
Lemma addExperience_loop_more_fuel (fuel : nat) (s : CharacterStats) (b : bool) r :
  addExperience_loop fuel s b = Some r ->
  addExperience_loop (S fuel) s b = Some r.
Proof.
  revert s b. induction fuel as [|fuel IH]; intros s b.
  - cbn. destruct (experienceToNextLevel s <=? experience s); congruence.
  - intros H. cbn [addExperience_loop] in *.
    destruct (experienceToNextLevel s <=? experience s); [|assumption].
    apply IH in H. exact H.
Qed.

(** With a positive threshold and fuel for [experience] many iterations the
    loop stops: after some number [k] of iterations, the guard held before
    each of them and fails after the last. *)
Lemma addExperience_loop_stops (fuel : nat) :
  forall (s : CharacterStats) (b : bool),
    0 < experienceToNextLevel s ->
    (Z.to_nat (experience s) <= fuel)%nat ->
    exists k : nat,
      addExperience_loop fuel s b = Some (levelUps k s, b || negb (k =? 0)%nat)
      /\ (forall j, (j < k)%nat ->
            experienceToNextLevel (levelUps j s) <= experience (levelUps j s))
      /\ experience (levelUps k s) < experienceToNextLevel (levelUps k s).
Proof.
  induction fuel as [|fuel IH]; intros s b Hpos Hfuel.
  - exists 0%nat. cbn.
    destruct (Z.leb_spec (experienceToNextLevel s) (experience s)); [lia|].
    rewrite orb_false_r. repeat split; [lia | assumption].
  - cbn [addExperience_loop].
    destruct (Z.leb_spec (experienceToNextLevel s) (experience s)) as [Hge|Hlt].
    + destruct (IH (addExperience_body s) true) as (k & Hk & Hbefore & Hafter).
      * apply addExperience_body_threshold; assumption.
      * rewrite addExperience_body_experience. lia.
      * exists (S k). cbn [levelUps Nat.eqb negb]. rewrite orb_true_r.
        rewrite Hk. cbn [orb]. repeat split; [|assumption].
        intros [|j] Hj; cbn [levelUps]; [assumption|apply Hbefore; lia].
    + exists 0%nat. cbn. rewrite orb_false_r. repeat split; [lia|assumption].
Qed.

Lemma levelUps_threshold (k : nat) (s : CharacterStats) :
  0 < experienceToNextLevel s -> 0 < experienceToNextLevel (levelUps k s).
Proof.
  revert s. induction k as [|k IH]; intros s H; cbn [levelUps].
  - exact H.
  - apply IH, addExperience_body_threshold, H.
Qed.

(** [addExperience] returns on every stat block with a positive threshold. *)
Lemma addExperience_runs (s : CharacterStats) (exp : Z) :
  0 < experienceToNextLevel s ->
  let s0 := set_experience s (experience s + exp) in
  exists k : nat,
    addExperience s exp = Returns (levelUps k s0, negb (k =? 0)%nat)
    /\ (forall j, (j < k)%nat ->
          experienceToNextLevel (levelUps j s0) <= experience (levelUps j s0))
    /\ experience (levelUps k s0) < experienceToNextLevel (levelUps k s0)
    /\ 0 < experienceToNextLevel (levelUps k s0).
Proof.
  intros Hpos s0.
  destruct (addExperience_loop_stops (Z.to_nat (experience s0)) s0 false)
    as (k & Hk & Hbefore & Hafter).
  - exact Hpos.
  - apply Nat.le_refl.
  - exists k. unfold addExperience. fold s0. rewrite Hk. cbn [orb].
    repeat split; try assumption.
    apply levelUps_threshold. exact Hpos.
Qed.

(** With a threshold that is not positive the guard, once true, stays true:
    the loop runs out of any amount of fuel, and [addExperience] never
    returns. *)
Lemma addExperience_loop_never_stops (fuel : nat) :
  forall (s : CharacterStats) (b : bool),
    experienceToNextLevel s <= 0 ->
    experienceToNextLevel s <= experience s ->
    addExperience_loop fuel s b = None.
Proof.
  induction fuel as [|fuel IH]; intros s b Hneg Hguard; cbn [addExperience_loop];
    destruct (Z.leb_spec (experienceToNextLevel s) (experience s)); try lia.
  - reflexivity.
  - assert (Hdown : experienceToNextLevel (addExperience_body s)
                    <= experienceToNextLevel s).
    { unfold addExperience_body, levelUp.
      cbn [experienceToNextLevel set_experience].
      change (1.5)%Q with (15 # 10). rewrite Qfloor_scale.
      apply Z.div_le_upper_bound; lia. }
    apply IH; [lia|]. rewrite addExperience_body_experience. lia.
Qed.

Lemma addExperience_diverges (s : CharacterStats) (exp : Z) :
  experienceToNextLevel s <= 0 ->
  experienceToNextLevel s <= experience s + exp ->
  addExperience s exp = Diverges.
Proof.
  intros Hneg Hguard. unfold addExperience.
  rewrite addExperience_loop_never_stops; [reflexivity|exact Hneg|exact Hguard].
Qed.




(** ** The battle manager *)

Section BattleFacts.
Context `{C : Collaborators}.

Lemma BattleState_eqb_eq (a b : BattleState) :
  BattleState_eqb a b = true <-> a = b.
Proof. destruct a, b; cbn; split; congruence. Qed.

Lemma BattleState_eqb_neq (a b : BattleState) :
  a <> b -> BattleState_eqb a b = false.
Proof.
  intros H. destruct (BattleState_eqb a b) eqn:E; [|reflexivity].
  apply BattleState_eqb_eq in E. contradiction.
Qed.

Lemma applyDamage_integer (s : CharacterStats) (dealt : Z) :
  applyDamage s (inject_Z dealt)
  = (set_currentHP s (Z.max 0 (currentHP s - Z.max 1 dealt)),
     0 <? Z.max 0 (currentHP s - Z.max 1 dealt)).
Proof.
  unfold applyDamage, takeDamage, isAlive. cbn [fst snd].
  rewrite Qfloor_Z. reflexivity.
Qed.

Lemma answerDamage_wrong_ge_1 (bm : BattleManager) en variance :
  1 <= answerDamage bm en false variance.
Proof. unfold answerDamage. cbn [negb]. lia. Qed.

(** [submitAnswer] on the player's turn when the enemy survives the hit. *)
Lemma submitAnswer_enemy_survives
    (bm : BattleManager) (playerAnswer : string) (variance : Z) (en : Enemy) :
  battleState bm = player_turn ->
  enemy bm = Some en ->
  let isCorrect := validateAnswer (currentMathProblem bm) playerAnswer in
  let dealt := answerDamage bm en isCorrect variance in
  let msg := if isCorrect then MsgCorrect dealt (enemy_name en)
             else MsgWrong dealt in
  0 < currentHP (enemy_stats en) - Z.max 1 dealt ->
  submitAnswer bm playerAnswer variance
  = Returns
      ({| hero := hero bm; grade := grade bm; unit := unit bm;
          difficulty := difficulty bm;
          difficultySettings := difficultySettings bm;
          enemy := Some (enemyAfterHit en dealt);
          currentMathProblem := currentMathProblem bm;
          battleState := enemy_turn;
          battleMessageHistory := battleMessageHistory bm ++ [msg];
          turnSystem := turn_endTurn (turnSystem bm) |},
       {| success := true; message := Some msg; correct := Some isCorrect;
          damage := Some dealt;
          enemyHP := Some (currentHP (enemy_stats en) - Z.max 1 dealt);
          victory_flag := None; expGained := None; goldGained := None;
          leveledUp := None |},
       [SetTimeoutEnemyTurn 1000]).
Proof.
  intros Hstate Henemy isCorrect dealt msg Halive.
  unfold submitAnswer. rewrite Hstate, Henemy. cbn [BattleState_eqb negb].
  fold isCorrect. change (if negb isCorrect then _ else _) with dealt.
  unfold enemyAfterHit. rewrite applyDamage_integer. cbn [fst].
  replace (0 <? Z.max 0 (currentHP (enemy_stats en) - Z.max 1 dealt))
    with true by (symmetry; apply Z.ltb_lt; lia).
  cbn [negb]. fold msg. cbn [set_currentHP currentHP].
  rewrite Z.max_r by lia. reflexivity.
Qed.

(** [submitAnswer] on the player's turn when the hit brings the enemy down
    and the hero's [addExperience] returns. *)
Lemma submitAnswer_enemy_falls
    (bm : BattleManager) (playerAnswer : string) (variance : Z) (en : Enemy)
    (heroStats : CharacterStats) (didLevelUp : bool) :
  battleState bm = player_turn ->
  enemy bm = Some en ->
  let isCorrect := validateAnswer (currentMathProblem bm) playerAnswer in
  let dealt := answerDamage bm en isCorrect variance in
  let msg := if isCorrect then MsgCorrect dealt (enemy_name en)
             else MsgWrong dealt in
  currentHP (enemy_stats en) - Z.max 1 dealt <= 0 ->
  addExperience (hero_stats (hero bm)) (expReward bm en)
  = Returns (heroStats, didLevelUp) ->
  let rewarded := set_gold heroStats (gold heroStats + goldReward bm en) in
  submitAnswer bm playerAnswer variance
  = Returns
      ({| hero := mkHero rewarded; grade := grade bm; unit := unit bm;
          difficulty := difficulty bm;
          difficultySettings := difficultySettings bm;
          enemy := Some (enemyAfterHit en dealt);
          currentMathProblem := currentMathProblem bm;
          battleState := victory;
          battleMessageHistory :=
            (battleMessageHistory bm ++ [msg])
            ++ [MsgVictory (expReward bm en) (goldReward bm en)];
          turnSystem := turnSystem bm |},
       {| success := true; message := None; correct := None;
          damage := None; enemyHP := None;
          victory_flag := Some true;
          expGained := Some (expReward bm en);
          goldGained := Some (goldReward bm en);
          leveledUp := Some didLevelUp |},
       [SaveHero rewarded]).
Proof.
  intros Hstate Henemy isCorrect dealt msg Hdead Hexp rewarded.
  unfold submitAnswer. rewrite Hstate, Henemy. cbn [BattleState_eqb negb].
  fold isCorrect. change (if negb isCorrect then _ else _) with dealt.
  unfold enemyAfterHit. rewrite applyDamage_integer. cbn [fst].
  replace (0 <? Z.max 0 (currentHP (enemy_stats en) - Z.max 1 dealt))
    with false by (symmetry; apply Z.ltb_ge; lia).
  cbn [negb]. fold msg. cbn [set_currentHP level].
  unfold expReward in Hexp. rewrite Hexp. reflexivity.
Qed.

Lemma bossDamage_ge_1 (bm : BattleManager) en variance :
  1 <= bossDamage bm en variance.
Proof. unfold bossDamage, figureOutHowMuchDamageTheBossDoes. lia. Qed.

(** [enemyTurn] on the enemy's turn when the hero survives the hit. *)
Lemma enemyTurn_hero_survives
    (bm : BattleManager) (variance : Z) (generated : option Problem) (en : Enemy) :
  battleState bm = enemy_turn ->
  enemy bm = Some en ->
  let dealt := bossDamage bm en variance in
  0 < currentHP (hero_stats (hero bm)) - dealt ->
  enemyTurn bm variance generated
  = Returns
      {| hero := mkHero (set_currentHP (hero_stats (hero bm))
                           (currentHP (hero_stats (hero bm)) - dealt));
         grade := grade bm; unit := unit bm;
         difficulty := difficulty bm;
         difficultySettings := difficultySettings bm;
         enemy := Some en;
         currentMathProblem := generated;
         battleState := player_turn;
         battleMessageHistory :=
           battleMessageHistory bm ++ [MsgEnemyAttacks (enemy_name en) dealt];
         turnSystem := turn_endTurn (turnSystem bm) |}.
Proof.
  intros Hstate Henemy dealt Halive.
  pose proof (bossDamage_ge_1 bm en variance) as Hge. fold dealt in Hge.
  unfold enemyTurn. rewrite Hstate, Henemy. cbn [BattleState_eqb negb].
  change (figureOutHowMuchDamageTheBossDoes _ _ _) with dealt.
  rewrite applyDamage_integer.
  replace (0 <? Z.max 0 (currentHP (hero_stats (hero bm)) - Z.max 1 dealt))
    with true by (symmetry; apply Z.ltb_lt; lia).
  cbn [negb]. unfold createNewMathProblem.
  cbn [hero grade unit difficulty difficultySettings enemy battleState
       battleMessageHistory turnSystem].
  rewrite (Z.max_r 1 dealt) by lia. rewrite Z.max_r by lia. reflexivity.
Qed.

(** [enemyTurn] on the enemy's turn when the hit brings the hero down. *)
Lemma enemyTurn_hero_falls
    (bm : BattleManager) (variance : Z) (generated : option Problem) (en : Enemy) :
  battleState bm = enemy_turn ->
  enemy bm = Some en ->
  let dealt := bossDamage bm en variance in
  currentHP (hero_stats (hero bm)) - dealt <= 0 ->
  enemyTurn bm variance generated
  = Returns
      {| hero := mkHero (set_currentHP (hero_stats (hero bm)) 0);
         grade := grade bm; unit := unit bm;
         difficulty := difficulty bm;
         difficultySettings := difficultySettings bm;
         enemy := Some en;
         currentMathProblem := currentMathProblem bm;
         battleState := defeat;
         battleMessageHistory :=
           (battleMessageHistory bm ++ [MsgEnemyAttacks (enemy_name en) dealt])
           ++ [MsgDefeat];
         turnSystem := turnSystem bm |}.
Proof.
  intros Hstate Henemy dealt Hdead.
  pose proof (bossDamage_ge_1 bm en variance) as Hge. fold dealt in Hge.
  unfold enemyTurn. rewrite Hstate, Henemy. cbn [BattleState_eqb negb].
  change (figureOutHowMuchDamageTheBossDoes _ _ _) with dealt.
  rewrite applyDamage_integer.
  replace (0 <? Z.max 0 (currentHP (hero_stats (hero bm)) - Z.max 1 dealt))
    with false by (symmetry; apply Z.ltb_ge; lia).
  cbn [negb]. rewrite (Z.max_r 1 dealt) by lia. rewrite Z.max_l by lia.
  reflexivity.
Qed.

(** The hit of [submitAnswer] either leaves the enemy standing or not. *)
Lemma submitAnswer_player_turn_returns
    (bm : BattleManager) (playerAnswer : string) (variance : Z) (en : Enemy) :
  battleState bm = player_turn ->
  enemy bm = Some en ->
  0 < experienceToNextLevel (hero_stats (hero bm)) ->
  let isCorrect := validateAnswer (currentMathProblem bm) playerAnswer in
  let dealt := answerDamage bm en isCorrect variance in
  exists bm' result effects,
    submitAnswer bm playerAnswer variance = Returns (bm', result, effects)
    /\ enemy bm' = Some (enemyAfterHit en dealt)
    /\ success result = true
    /\ 0 < experienceToNextLevel (hero_stats (hero bm'))
    /\ In (if isCorrect then MsgCorrect dealt (enemy_name en) else MsgWrong dealt)
          (battleMessageHistory bm')
    /\ ((0 < currentHP (enemy_stats en) - Z.max 1 dealt
         /\ battleState bm' = enemy_turn
         /\ damage result = Some dealt)
        \/ (currentHP (enemy_stats en) - Z.max 1 dealt <= 0
            /\ battleState bm' = victory)).
Proof.
  intros Hstate Henemy Hpos isCorrect dealt.
  destruct (Z_lt_le_dec 0 (currentHP (enemy_stats en) - Z.max 1 dealt))
    as [Halive|Hdead].
  - pose proof (submitAnswer_enemy_survives bm playerAnswer variance en
                  Hstate Henemy Halive) as Hrun.
    do 3 eexists. split; [exact Hrun|].
    cbn [enemy success hero battleMessageHistory battleState damage].
    split; [reflexivity|]. split; [reflexivity|]. split; [exact Hpos|].
    split; [apply in_or_app; right; left; reflexivity|].
    left. repeat split. exact Halive.
  - destruct (addExperience_runs (hero_stats (hero bm)) (expReward bm en) Hpos)
      as (k & Hk & _ & _ & Hpos').
    pose proof (submitAnswer_enemy_falls bm playerAnswer variance en _ _
                  Hstate Henemy Hdead Hk) as Hrun.
    do 3 eexists. split; [exact Hrun|].
    cbn [enemy success hero hero_stats battleMessageHistory battleState].
    split; [reflexivity|]. split; [reflexivity|].
    split; [exact Hpos'|].
    split; [apply in_or_app; left; apply in_or_app; right; left; reflexivity|].
    right. split; [exact Hdead|reflexivity].
Qed.

Lemma enemyAfterHit_currentHP (en : Enemy) (dealt : Z) :
  currentHP (enemy_stats (enemyAfterHit en dealt))
  = Z.max 0 (currentHP (enemy_stats en) - Z.max 1 dealt).
Proof. unfold enemyAfterHit. rewrite applyDamage_integer. reflexivity. Qed.


(** C5: [submitAnswer] outside the player's turn and [enemyTurn] outside
    the enemy's turn, the terminal states victory and defeat included,
    return the manager as it was - hero, enemy, log and state - with no
    effect on the outside; [submitAnswer] answers success = false with the
    message "Not your turn!", [enemyTurn] returns nothing. *)
Theorem out_of_turn_calls_change_nothing
    (bm : BattleManager) (playerAnswer : string) (variance : Z)
    (generated : option Problem) :
  (battleState bm <> player_turn ->
   submitAnswer bm playerAnswer variance
   = Returns (bm,
              {| success := false; message := Some MsgNotYourTurn;
                 correct := None; damage := None; enemyHP := None;
                 victory_flag := None; expGained := None;
                 goldGained := None; leveledUp := None |},
              []))
  /\ (battleState bm <> enemy_turn ->
      enemyTurn bm variance generated = Returns bm)
  /\ (terminal (battleState bm) = true ->
      battleState bm <> player_turn /\ battleState bm <> enemy_turn).
Proof.
  split; [|split].
  - intros H. unfold submitAnswer.
    rewrite (BattleState_eqb_neq _ _ H). reflexivity.
  - intros H. unfold enemyTurn.
    rewrite (BattleState_eqb_neq _ _ H). reflexivity.
  - destruct (battleState bm); cbn; intros H; split; congruence.
Qed.

(** Both turn operations keep a manager ready, and move its state along
    the diagram or not at all. *)
Lemma perform_ready (bm : BattleManager) (op : TurnOperation) :
  battleReady bm ->
  exists bm',
    perform bm op = Returns bm'
    /\ battleReady bm'
    /\ (battleState bm' = battleState bm
        \/ diagramMove (battleState bm) (battleState bm') = true).
Proof.
  intros [Hpos Hen]. destruct op as [playerAnswer variance|variance generated].
  - cbn [perform].
    destruct (BattleState_eqb (battleState bm) player_turn) eqn:E.
    + apply BattleState_eqb_eq in E.
      destruct Hen as [Hw|Hen]; [congruence|].
      destruct (enemy bm) as [en|] eqn:Henemy; [|congruence].
      destruct (submitAnswer_player_turn_returns bm playerAnswer variance en
                  E Henemy Hpos)
        as (bm' & result & effects & Hrun & Hen' & _ & Hpos' & _ & Hcases).
      rewrite Hrun. exists bm'. split; [reflexivity|].
      split; [split; [exact Hpos'|right; congruence]|].
      right. rewrite E.
      destruct Hcases as [(_ & -> & _)|(_ & ->)]; reflexivity.
    + unfold submitAnswer. rewrite E. cbn [negb].
      exists bm. split; [reflexivity|]. split; [split; assumption|].
      left. reflexivity.
  - cbn [perform].
    destruct (BattleState_eqb (battleState bm) enemy_turn) eqn:E.
    + apply BattleState_eqb_eq in E.
      destruct Hen as [Hw|Hen]; [congruence|].
      destruct (enemy bm) as [en|] eqn:Henemy; [|congruence].
      destruct (Z_lt_le_dec 0 (currentHP (hero_stats (hero bm))
                               - bossDamage bm en variance)) as [Halive|Hdead].
      * rewrite (enemyTurn_hero_survives bm variance generated en
                   E Henemy Halive).
        eexists. split; [reflexivity|].
        split; [split; cbn; [exact Hpos|right; congruence]|].
        right. rewrite E. reflexivity.
      * rewrite (enemyTurn_hero_falls bm variance generated en
                   E Henemy Hdead).
        eexists. split; [reflexivity|].
        split; [split; cbn; [exact Hpos|right; congruence]|].
        right. rewrite E. reflexivity.
    + unfold enemyTurn. rewrite E. cbn [negb].
      exists bm. split; [reflexivity|]. split; [split; assumption|].
      left. reflexivity.
Qed.

(** A manager built for a hero with a positive threshold is ready, and so
    is the battle it starts; every run of turn operations on a ready
    manager returns. *)
Lemma newBattleManager_ready
    (theHero : Hero) (g : Z) (u : option MathUnit) (d : Difficulty) :
  0 < experienceToNextLevel (hero_stats theHero) ->
  battleReady (newBattleManager theHero g u d).
Proof. intros H. split; [exact H|]. left. reflexivity. Qed.

Lemma startBattle_ready (bm : BattleManager) (generated : option Problem) :
  0 < experienceToNextLevel (hero_stats (hero bm)) ->
  battleReady (startBattle bm generated).
Proof. intros H. split; [exact H|]. right. cbn. discriminate. Qed.

Lemma performAll_ready (ops : list TurnOperation) :
  forall bm : BattleManager,
    battleReady bm ->
    exists bm', performAll bm ops = Returns bm' /\ battleReady bm'.
Proof.
  induction ops as [|op rest IH]; intros bm Hready.
  - exists bm. split; [reflexivity|exact Hready].
  - destruct (perform_ready bm op Hready) as (bm1 & Hrun & Hready1 & _).
    cbn [performAll]. rewrite Hrun. apply IH. exact Hready1.
Qed.

Lemma perform_terminal (bm : BattleManager) (op : TurnOperation) :
  terminal (battleState bm) = true -> perform bm op = Returns bm.
Proof.
  intros H. destruct op; cbn [perform].
  - unfold submitAnswer.
    destruct (battleState bm); cbn in *; congruence.
  - unfold enemyTurn.
    destruct (battleState bm); cbn in *; congruence.
Qed.

(** C6, amended: under the turn operations the state moves only along
    waiting -> player-turn -> enemy-turn -> (player-turn | victory | defeat).
    startBattle puts the state to player-turn; submitAnswer on the player's
    turn returns with the state victory or enemy-turn; enemyTurn on the
    enemy's turn returns with the state defeat or player-turn; every call
    of the two on a ready manager returns, keeps it ready and either leaves
    the state or makes a move of the diagram; and once the state is victory
    or defeat no sequence of submitAnswer and enemyTurn calls changes the
    manager again. *)
Theorem battle_state_diagram :
  (forall (bm : BattleManager) generated,
      battleState (startBattle bm generated) = player_turn)
  /\ (forall (bm : BattleManager) playerAnswer variance,
        battleReady bm -> battleState bm = player_turn ->
        exists bm' result effects,
          submitAnswer bm playerAnswer variance = Returns (bm', result, effects)
          /\ (battleState bm' = victory \/ battleState bm' = enemy_turn))
  /\ (forall (bm : BattleManager) variance generated,
        battleReady bm -> battleState bm = enemy_turn ->
        exists bm',
          enemyTurn bm variance generated = Returns bm'
          /\ (battleState bm' = defeat \/ battleState bm' = player_turn))
  /\ (forall (bm : BattleManager) op,
        battleReady bm ->
        exists bm',
          perform bm op = Returns bm'
          /\ battleReady bm'
          /\ (battleState bm' = battleState bm
              \/ diagramMove (battleState bm) (battleState bm') = true))
  /\ (forall (bm : BattleManager) ops,
        terminal (battleState bm) = true -> performAll bm ops = Returns bm).
Proof.
  split; [|split; [|split; [|split]]].
  - intros bm generated. reflexivity.
  - intros bm playerAnswer variance [Hpos Hen] Hstate.
    destruct Hen as [Hw|Hen]; [congruence|].
    destruct (enemy bm) as [en|] eqn:Henemy; [|congruence].
    destruct (submitAnswer_player_turn_returns bm playerAnswer variance en
                Hstate Henemy Hpos)
      as (bm' & result & effects & Hrun & _ & _ & _ & _ & Hcases).
    exists bm', result, effects. split; [exact Hrun|].
    destruct Hcases as [(_ & -> & _)|(_ & ->)]; [right|left]; reflexivity.
  - intros bm variance generated [Hpos Hen] Hstate.
    destruct Hen as [Hw|Hen]; [congruence|].
    destruct (enemy bm) as [en|] eqn:Henemy; [|congruence].
    destruct (Z_lt_le_dec 0 (currentHP (hero_stats (hero bm))
                             - bossDamage bm en variance)) as [Halive|Hdead].
    + rewrite (enemyTurn_hero_survives bm variance generated en
                 Hstate Henemy Halive).
      eexists. split; [reflexivity|]. right. reflexivity.
    + rewrite (enemyTurn_hero_falls bm variance generated en
                 Hstate Henemy Hdead).
      eexists. split; [reflexivity|]. left. reflexivity.
  - intros bm op. apply perform_ready.
  - intros bm ops Hterm. induction ops as [|op rest IH].
    + reflexivity.
    + cbn [performAll]. rewrite (perform_terminal bm op Hterm). exact IH.
Qed.


(** C8, amended: every call to [submitAnswer] on the player's turn returns
    a result with success = true.  When the enemy survives, the result
    carries correct, damage, enemyHP and the message, and has no victory,
    leveledUp, expGained or goldGained key.  When the enemy falls, the
    result carries victory = true, expGained, goldGained and leveledUp. *)
Theorem submitAnswer_result_fields
    (bm : BattleManager) (playerAnswer : string) (variance : Z) (en : Enemy) :
  battleState bm = player_turn ->
  enemy bm = Some en ->
  0 < experienceToNextLevel (hero_stats (hero bm)) ->
  let isCorrect := validateAnswer (currentMathProblem bm) playerAnswer in
  let dealt := answerDamage bm en isCorrect variance in
  exists bm' result effects,
    submitAnswer bm playerAnswer variance = Returns (bm', result, effects)
    /\ success result = true
    /\ ((battleState bm' = enemy_turn
         /\ correct result = Some isCorrect
         /\ damage result = Some dealt
         /\ enemyHP result = Some (currentHP (enemy_stats en) - Z.max 1 dealt)
         /\ message result <> None
         /\ victory_flag result = None
         /\ leveledUp result = None
         /\ expGained result = None
         /\ goldGained result = None)
        \/ (battleState bm' = victory
            /\ victory_flag result = Some true
            /\ expGained result = Some (expReward bm en)
            /\ goldGained result = Some (goldReward bm en)
            /\ exists didLevelUp, leveledUp result = Some didLevelUp)).
Proof.
  intros Hstate Henemy Hpos isCorrect dealt.
  destruct (Z_lt_le_dec 0 (currentHP (enemy_stats en) - Z.max 1 dealt))
    as [Halive|Hdead].
  - pose proof (submitAnswer_enemy_survives bm playerAnswer variance en
                  Hstate Henemy Halive) as Hrun.
    do 3 eexists. split; [exact Hrun|].
    cbn [success battleState correct damage enemyHP message victory_flag
         leveledUp expGained goldGained].
    split; [reflexivity|]. left. repeat split. congruence.
  - destruct (addExperience_runs (hero_stats (hero bm)) (expReward bm en) Hpos)
      as (k & Hk & _).
    pose proof (submitAnswer_enemy_falls bm playerAnswer variance en _ _
                  Hstate Henemy Hdead Hk) as Hrun.
    do 3 eexists. split; [exact Hrun|].
    cbn [success battleState victory_flag leveledUp expGained goldGained].
    split; [reflexivity|]. right. repeat split. eexists. reflexivity.
Qed.

End BattleFacts.

(** The sample battle really runs to [lastBlowBattle] and [wonBattle]. *)
Lemma sampleBattle_reaches_lastBlow :
  performAll sampleBattle sixExchanges = Returns lastBlowBattle.
Proof. vm_compute. reflexivity. Qed.

Lemma lastBlow_wins :
  submitAnswer lastBlowBattle "5" 5
  = Returns (wonBattle,
             mkResult true None None None None (Some true) (Some 12) (Some 18)
                      (Some false),
             [SaveHero (hero_stats (hero wonBattle))]).
Proof. vm_compute. reflexivity. Qed.

(** ** The theorems on the sample battle *)


(** After the victory, both turn operations leave the sample battle as it
    is. *)
Lemma out_of_turn_calls_change_nothing_witness :
  (battleState wonBattle <> player_turn /\ battleState wonBattle <> enemy_turn)
  /\ (exists result, submitAnswer wonBattle "5" 3 = Returns (wonBattle, result, []))
  /\ enemyTurn wonBattle 3 (Some sampleProblem) = Returns wonBattle.
Proof.
  assert (Hp : battleState wonBattle <> player_turn) by (cbn; discriminate).
  assert (He : battleState wonBattle <> enemy_turn) by (cbn; discriminate).
  pose proof (out_of_turn_calls_change_nothing
                wonBattle "5" 3 (Some sampleProblem)) as (Hs & Ht & _).
  split; [split; assumption|]. split.
  - eexists. exact (Hs Hp).
  - exact (Ht He).
Defined.

(** C6, the claim as stated fails: the sample battle, won (state victory),
    is put back to the player's turn by startBattle. *)
Lemma startBattle_leaves_victory :
  performAll sampleBattle (sixExchanges ++ [CallSubmitAnswer "5" 5])
  = Returns wonBattle
  /\ battleState wonBattle = victory
  /\ battleState (startBattle wonBattle (Some sampleProblem)) = player_turn
  /\ battleState (startBattle wonBattle (Some sampleProblem))
     <> battleState wonBattle.
Proof.
  split; [vm_compute; reflexivity|].
  split; [reflexivity|]. split; [reflexivity|]. cbn. discriminate.
Qed.

Lemma sampleBattle_ready : battleReady sampleBattle.
Proof. split; [reflexivity|]. right. cbn. discriminate. Defined.

(** The first answer of the sample battle ends in victory or enemy-turn. *)
Lemma battle_state_diagram_witness :
  battleReady sampleBattle /\ battleState sampleBattle = player_turn
  /\ exists bm' result effects,
      submitAnswer sampleBattle "5" 3 = Returns (bm', result, effects)
      /\ (battleState bm' = victory \/ battleState bm' = enemy_turn).
Proof.
  split; [exact sampleBattle_ready|]. split; [reflexivity|].
  exact (proj1 (proj2 battle_state_diagram) sampleBattle "5"%string 3
               sampleBattle_ready eq_refl).
Defined.


(** C8, the claim as stated fails: the first correct answer of the sample
    battle leaves the slime standing, and the result it returns has no
    victory, leveledUp, expGained or goldGained key. *)
Lemma submitAnswer_result_lacks_fields :
  battleState sampleBattle = player_turn
  /\ exists bm' result effects,
      submitAnswer sampleBattle "5" 3 = Returns (bm', result, effects)
      /\ correct result = Some true
      /\ damage result = Some 11
      /\ enemyHP result = Some 69
      /\ victory_flag result = None
      /\ leveledUp result = None
      /\ expGained result = None
      /\ goldGained result = None.
Proof.
  split; [reflexivity|]. do 3 eexists.
  split; [vm_compute; reflexivity|]. repeat split.
Qed.

(** The result of the last blow of the sample battle, a correct answer,
    has no correct, damage or enemyHP key. *)
Lemma victory_result_lacks_fields :
  exists bm' result effects,
    submitAnswer lastBlowBattle "5" 5 = Returns (bm', result, effects)
    /\ validateAnswer (currentMathProblem lastBlowBattle) "5" = true
    /\ victory_flag result = Some true
    /\ correct result = None
    /\ damage result = None
    /\ enemyHP result = None.
Proof.
  do 3 eexists. split; [exact lastBlow_wins|]. repeat split.
Qed.

(** The first answer of the sample battle returns success = true. *)
Lemma submitAnswer_result_fields_witness :
  exists en bm' result effects,
    (battleState sampleBattle = player_turn
     /\ enemy sampleBattle = Some en
     /\ 0 < experienceToNextLevel (hero_stats (hero sampleBattle)))
    /\ submitAnswer sampleBattle "5" 3 = Returns (bm', result, effects)
    /\ success result = true.
Proof.
  eexists.
  destruct (submitAnswer_result_fields sampleBattle "5" 3 _
              eq_refl eq_refl eq_refl)
    as (bm' & result & effects & Hrun & Hsuccess & _).
  exists bm', result, effects.
  split; [repeat split|]. split; [exact Hrun|exact Hsuccess].
Defined.

(** ** The grade search *)

Section GradeSearch.
Import DungeonSearcher.

Lemma middle_div (lo hi : Z) : middle lo hi = (lo + hi) / 2.
Proof. exact (eq_sym (Zdiv_Qdiv (lo + hi) 2)). Qed.

Lemma middle_between (lo hi : Z) : lo <= hi -> lo <= middle lo hi <= hi.
Proof.
  intros H. rewrite middle_div.
  pose proof (Z.div_mod (lo + hi) 2 ltac:(lia)).
  pose proof (Z.mod_pos_bound (lo + hi) 2 ltac:(lia)).
  lia.
Qed.

Lemma array_get_in_range {A : Type} (arr : list A) (i : Z) :
  0 <= i < Z.of_nat (List.length arr) -> exists x, array_get arr i = Some x.
Proof.
  intros [H0 Hlen]. unfold array_get.
  destruct (Z.ltb_spec i 0); [lia|].
  destruct (nth_error arr (Z.to_nat i)) as [x|] eqn:E.
  - exists x. reflexivity.
  - apply nth_error_None in E. lia.
Qed.

Lemma array_get_Some {A : Type} (arr : list A) (i : Z) (x : A) :
  array_get arr i = Some x ->
  0 <= i < Z.of_nat (List.length arr) /\ nth_error arr (Z.to_nat i) = Some x.
Proof.
  unfold array_get. destruct (Z.ltb_spec i 0); [discriminate|].
  intros E. split; [|exact E].
  assert (Z.to_nat i < List.length arr)%nat
    by (apply nth_error_Some; congruence).
  lia.
Qed.

Lemma In_array_get {A : Type} (arr : list A) (x : A) :
  In x arr -> exists i, array_get arr i = Some x.
Proof.
  intros H. apply In_nth_error in H. destruct H as [n Hn].
  exists (Z.of_nat n). unfold array_get.
  destruct (Z.ltb_spec (Z.of_nat n) 0); [lia|].
  rewrite Nat2Z.id. exact Hn.
Qed.

(** In an array sorted strictly by grade, a smaller index holds a smaller
    grade. *)
Lemma sorted_nth_lt (arr : list GradeObject) :
  Sorted Z.lt (map grade arr) ->
  forall (i j : nat) gi gj,
    (i < j)%nat ->
    nth_error arr i = Some gi -> nth_error arr j = Some gj ->
    grade gi < grade gj.
Proof.
  intros Hs. apply Sorted_StronglySorted in Hs;
    [|intros x y z; apply Z.lt_trans].
  induction arr as [|a arr IH]; intros i j gi gj Hij Hi Hj.
  - destruct i; discriminate.
  - cbn [map] in Hs. apply StronglySorted_inv in Hs. destruct Hs as [Hs Hall].
    destruct j as [|j]; [lia|]. cbn [nth_error] in Hj.
    destruct i as [|i].
    + cbn in Hi. injection Hi as <-.
      rewrite Forall_forall in Hall. apply Hall.
      apply in_map. eapply nth_error_In. exact Hj.
    + cbn [nth_error] in Hi. apply (IH Hs i j); [lia|assumption|assumption].
Qed.

Lemma sorted_get_lt (arr : list GradeObject) :
  Sorted Z.lt (map grade arr) ->
  forall (i j : Z) gi gj,
    i < j ->
    array_get arr i = Some gi -> array_get arr j = Some gj ->
    grade gi < grade gj.
Proof.
  intros Hs i j gi gj Hij Hi Hj.
  apply array_get_Some in Hi. apply array_get_Some in Hj.
  destruct Hi as [Hi Hi']. destruct Hj as [Hj Hj'].
  apply (sorted_nth_lt arr Hs (Z.to_nat i) (Z.to_nat j)); [lia|assumption..].
Qed.

(** The search on a window that holds every position of the target. *)
Lemma binarySearchGrade_window (arr : list GradeObject) (target lo hi : Z) :
  Sorted Z.lt (map grade arr) ->
  0 <= lo -> hi < Z.of_nat (List.length arr) ->
  (forall i g, array_get arr i = Some g -> grade g = target -> lo <= i <= hi) ->
  match binarySearchGrade arr target lo hi with
  | Returns (Some g) => In g arr /\ grade g = target
  | Returns None => forall g, In g arr -> grade g <> target
  | ThrowsTypeError | Diverges => False
  end.
Proof.
  funelim (binarySearchGrade arr target lo hi); intros Hs Hlo Hhi Hwin;
    repeat match goal with
      | H : (_ =? _) = true |- _ => apply Z.eqb_eq in H
      | H : (_ =? _) = false |- _ => apply Z.eqb_neq in H
      | H : (_ <? _) = true |- _ => apply Z.ltb_lt in H
      | H : (_ <? _) = false |- _ => apply Z.ltb_ge in H
      end;
    try match goal with
      | H : array_get _ (middle _ _) = _ |- _ => rename H into Hmid
      end;
    try match goal with
      | H : Sorted _ _ -> _ |- _ => rename H into IH
      end;
    try pose proof (middle_between lo hi ltac:(lia)) as Hbetween.
  - intros x Hin Hx. apply In_array_get in Hin. destruct Hin as [i Hi].
    specialize (Hwin i x Hi Hx). lia.
  - destruct (array_get_in_range sortedGrades (middle lo hi) ltac:(lia)).
    congruence.
  - split; [|assumption].
    apply array_get_Some in Hmid. destruct Hmid as [_ Hn].
    eapply nth_error_In. exact Hn.
  - apply IH; try assumption; try lia.
    intros i x Hi Hx. split; [|apply (Hwin i x Hi Hx)].
    destruct (Z_lt_le_dec (middle lo hi) i) as [|Hle]; [lia|].
    exfalso.
    destruct (Z.eq_dec i (middle lo hi)) as [->|Hne].
    + rewrite Hmid in Hi. injection Hi as <-. lia.
    + pose proof (sorted_get_lt sortedGrades Hs i (middle lo hi) x midGrade
                    ltac:(lia) Hi Hmid). lia.
  - apply IH; try assumption; try lia.
    intros i x Hi Hx. split; [apply (Hwin i x Hi Hx)|].
    destruct (Z_lt_le_dec i (middle lo hi)) as [|Hle]; [lia|].
    exfalso.
    destruct (Z.eq_dec i (middle lo hi)) as [->|Hne].
    + rewrite Hmid in Hi. injection Hi as <-. lia.
    + pose proof (sorted_get_lt sortedGrades Hs (middle lo hi) i midGrade x
                    ltac:(lia) Hmid Hi). lia.
Qed.

(** In an array sorted strictly by grade, a grade names one record. *)
Lemma sorted_grade_unique (arr : list GradeObject) (g g' : GradeObject) :
  Sorted Z.lt (map grade arr) ->
  In g arr -> In g' arr -> grade g = grade g' -> g = g'.
Proof.
  intros Hs Hg Hg' Heq.
  apply In_array_get in Hg. apply In_array_get in Hg'.
  destruct Hg as [i Hi]. destruct Hg' as [j Hj].
  destruct (Z.lt_trichotomy i j) as [Hlt|[->|Hgt]].
  - pose proof (sorted_get_lt arr Hs i j g g' Hlt Hi Hj). lia.
  - congruence.
  - pose proof (sorted_get_lt arr Hs j i g' g Hgt Hj Hi). lia.
Qed.

(** C10: on an array whose grade fields are strictly increasing, the search
    called with its default bounds returns (it is a total function and it
    does not throw): the record whose grade equals the target when the
    array holds one, and null when no record matches. *)
Theorem binarySearchGrade_correct (sortedGrades : list GradeObject) (targetGrade : Z) :
  Sorted Z.lt (map grade sortedGrades) ->
  (forall g, In g sortedGrades -> grade g = targetGrade ->
             binarySearchGrade_default sortedGrades targetGrade = Returns (Some g))
  /\ ((forall g, In g sortedGrades -> grade g <> targetGrade) ->
      binarySearchGrade_default sortedGrades targetGrade = Returns None)
  /\ (exists found,
        binarySearchGrade_default sortedGrades targetGrade = Returns found).
Proof.
  intros Hs.
  pose proof (binarySearchGrade_window sortedGrades targetGrade 0
                (Z.of_nat (List.length sortedGrades) - 1) Hs
                ltac:(lia) ltac:(lia)) as Hwin.
  fold (binarySearchGrade_default sortedGrades targetGrade) in Hwin.
  assert (Hall : forall i g, array_get sortedGrades i = Some g ->
                   grade g = targetGrade ->
                   0 <= i <= Z.of_nat (List.length sortedGrades) - 1).
  { intros i g Hi _. apply array_get_Some in Hi. lia. }
  specialize (Hwin Hall).
  destruct (binarySearchGrade_default sortedGrades targetGrade)
    as [[found|]| |]; try contradiction.
  - destruct Hwin as [Hin Hgrade]. split; [|split].
    + intros g Hg Heq. do 2 f_equal.
      apply (sorted_grade_unique sortedGrades); congruence.
    + intros Hnone. exfalso. exact (Hnone found Hin Hgrade).
    + eexists. reflexivity.
  - split; [|split].
    + intros g Hg Heq. exfalso. exact (Hwin g Hg Heq).
    + reflexivity.
    + eexists. reflexivity.
Qed.

End GradeSearch.

(** Grade 8 is found in the sample curriculum, grade 4 is not. *)
Lemma binarySearchGrade_correct_witness :
  Sorted Z.lt (map DungeonSearcher.grade sampleGrades)
  /\ DungeonSearcher.binarySearchGrade_default sampleGrades 8
     = Returns (Some (DungeonSearcher.mkGrade 8 "Grade 8" None))
  /\ DungeonSearcher.binarySearchGrade_default sampleGrades 4 = Returns None.
Proof.
  assert (Hs : Sorted Z.lt (map DungeonSearcher.grade sampleGrades))
    by (repeat (constructor; try reflexivity)).
  split; [exact Hs|].
  pose proof (binarySearchGrade_correct sampleGrades 8 Hs) as (Hfound & _ & _).
  pose proof (binarySearchGrade_correct sampleGrades 4 Hs) as (_ & Hnone & _).
  split.
  - apply Hfound; [|reflexivity]. cbn. tauto.
  - apply Hnone. intros g Hin.
    cbn in Hin. repeat destruct Hin as [<-|Hin]; try contradiction;
      cbn; discriminate.
Defined.

(** ** Double precision on the inputs used above *)

Section DoublePrecision.
Import Binary64.

(** The boss cap: nominal 10, level 1, maxHP 4; nominal 100, level 5,
    maxHP 400. *)
Example double_boss_cap_small :
  Binary64.figureOutHowMuchDamageTheBossDoes (of_Z 10) 1 4 = Some 1
  /\ floorTimes (of_Z 4) 0.20 = Some 0.
Proof. split; vm_compute; reflexivity. Qed.

Example double_boss_cap_scenario :
  Binary64.figureOutHowMuchDamageTheBossDoes (of_Z 100) 5 400 = Some 80.
Proof. vm_compute. reflexivity. Qed.

(** The damage formula at defense 11 and at defense 10. *)
Example double_calculateDamage :
  Binary64.calculateDamage (mkAttacker 20 (Some 5)) (mkDefender 11) true 3
  = of_Q 22.5
  /\ Binary64.calculateDamage (mkAttacker 20 (Some 5)) (mkDefender 10) true 3
     = of_Z 23.
Proof. split; vm_compute; reflexivity. Qed.

(** levelUp on the default hero. *)
Example double_levelUp_default :
  floorTimes (of_Z 400) 1.2 = Some 480
  /\ floorTimes (of_Z 10) 1.15 = Some 11
  /\ floorTimes (of_Z 5) 1.1 = Some 5
  /\ floorTimes (of_Z 100) 1.5 = Some 150.
Proof. repeat split; vm_compute; reflexivity. Qed.

(** The sample battle: the slime's scaled health, the hero's correct hit
    at variance 5 and at variance 3, the wrong answer at variance 3, the
    slime's capped hit at variance 0, and the rewards. *)
Example double_sample_battle :
  floorTimes (of_Z 80) 1.0 = Some 80
  /\ floorTimes (Binary64.calculateDamage (mkAttacker 10 None) (mkDefender 3)
                   true 5) 1.0 = Some 13
  /\ floorTimes (Binary64.calculateDamage (mkAttacker 10 None) (mkDefender 3)
                   true 3) 1.0 = Some 11
  /\ floorTimes (Binary64.calculateDamage (mkAttacker 10 None) (mkDefender 3)
                   false 3) 1.0 = Some 6
  /\ floorTimes (of_Z 6) 0.5 = Some 3
  /\ Binary64.figureOutHowMuchDamageTheBossDoes
       (Binary64.calculateDamage (mkAttacker 8 None) (mkDefender 5) true 0)
       1 400 = Some 5
  /\ floorTimes (of_Z (1 * 10)) 1.2 = Some 12
  /\ floorTimes (of_Z (1 * 15)) 1.2 = Some 18.
Proof. repeat split; vm_compute; reflexivity. Qed.

(** Where the idealisation shows: an attack of 220 levels up to 252 in
    double precision and to 253 in exact arithmetic. *)
Example double_levelUp_attack_220 :
  floorTimes (of_Z 220) 1.15 = Some 252
  /\ Qfloor (inject_Z 220 * 1.15) = 253.
Proof. split; vm_compute; reflexivity. Qed.

End DoublePrecision.

(** * Further properties *)

(** ** The searches of DungeonSearcher.js *)

Section SearchFacts.
Import DungeonSearcher.

Lemma pushMatching_filter {A : Type} (test : A -> bool) (arr : list A) :
  pushMatching test arr = filter test arr.
Proof.
  unfold pushMatching.
  assert (H : forall acc,
             fold_left (fun results x => if test x then results ++ [x] else results)
                       arr acc
             = acc ++ filter test arr).
  { induction arr as [|x arr IH]; intros acc; cbn [fold_left filter].
    - rewrite app_nil_r. reflexivity.
    - rewrite IH. destruct (test x); [|reflexivity].
      rewrite <- app_assoc. reflexivity. }
  exact (H []).
Qed.

(** In an array sorted by grade, duplicates allowed, a smaller index never
    holds a larger grade. *)
Lemma sorted_le_nth (arr : list GradeObject) :
  Sorted Z.le (map grade arr) ->
  forall (i j : nat) gi gj,
    (i <= j)%nat ->
    nth_error arr i = Some gi -> nth_error arr j = Some gj ->
    grade gi <= grade gj.
Proof.
  intros Hs. apply Sorted_StronglySorted in Hs;
    [|intros x y z; apply Z.le_trans].
  induction arr as [|a arr IH]; intros i j gi gj Hij Hi Hj.
  - destruct i; discriminate.
  - cbn [map] in Hs. apply StronglySorted_inv in Hs. destruct Hs as [Hs Hall].
    destruct i as [|i].
    + cbn in Hi. injection Hi as <-.
      destruct j as [|j].
      * cbn in Hj. injection Hj as <-. lia.
      * cbn [nth_error] in Hj. rewrite Forall_forall in Hall. apply Hall.
        apply in_map. eapply nth_error_In. exact Hj.
    + destruct j as [|j]; [lia|]. cbn [nth_error] in Hi, Hj.
      apply (IH Hs i j); [lia|assumption|assumption].
Qed.

Lemma sorted_le_get (arr : list GradeObject) :
  Sorted Z.le (map grade arr) ->
  forall (i j : Z) gi gj,
    i <= j ->
    array_get arr i = Some gi -> array_get arr j = Some gj ->
    grade gi <= grade gj.
Proof.
  intros Hs i j gi gj Hij Hi Hj.
  apply array_get_Some in Hi. apply array_get_Some in Hj.
  destruct Hi as [Hi Hi']. destruct Hj as [Hj Hj'].
  apply (sorted_le_nth arr Hs (Z.to_nat i) (Z.to_nat j)); [lia|assumption..].
Qed.

Ltac search_cases :=
  repeat match goal with
    | H : (_ =? _) = true |- _ => apply Z.eqb_eq in H
    | H : (_ =? _) = false |- _ => apply Z.eqb_neq in H
    | H : (_ <? _) = true |- _ => apply Z.ltb_lt in H
    | H : (_ <? _) = false |- _ => apply Z.ltb_ge in H
    end;
  try match goal with
    | H : array_get _ (middle _ _) = _ |- _ => rename H into Hmid
    end.

(** The search on a window of an array sorted by grade with duplicates. *)
Lemma binarySearchGrade_window_le (arr : list GradeObject) (target lo hi : Z) :
  Sorted Z.le (map grade arr) ->
  0 <= lo -> hi < Z.of_nat (List.length arr) ->
  (forall i g, array_get arr i = Some g -> grade g = target -> lo <= i <= hi) ->
  match binarySearchGrade arr target lo hi with
  | Returns (Some g) => In g arr /\ grade g = target
  | Returns None => forall g, In g arr -> grade g <> target
  | ThrowsTypeError | Diverges => False
  end.
Proof.
  funelim (binarySearchGrade arr target lo hi); intros Hs Hlo Hhi Hwin;
    search_cases;
    try match goal with
      | H : Sorted _ _ -> _ |- _ => rename H into IH
      end;
    try pose proof (middle_between lo hi ltac:(lia)) as Hbetween.
  - intros x Hin Hx. apply In_array_get in Hin. destruct Hin as [i Hi].
    specialize (Hwin i x Hi Hx). lia.
  - destruct (array_get_in_range sortedGrades (middle lo hi) ltac:(lia)).
    congruence.
  - split; [|assumption].
    apply array_get_Some in Hmid. destruct Hmid as [_ Hn].
    eapply nth_error_In. exact Hn.
  - apply IH; try assumption; try lia.
    intros i x Hi Hx. split; [|apply (Hwin i x Hi Hx)].
    destruct (Z_lt_le_dec (middle lo hi) i) as [|Hle]; [lia|].
    pose proof (sorted_le_get sortedGrades Hs i (middle lo hi) x midGrade
                  Hle Hi Hmid). lia.
  - apply IH; try assumption; try lia.
    intros i x Hi Hx. split; [apply (Hwin i x Hi Hx)|].
    destruct (Z_lt_le_dec i (middle lo hi)) as [|Hle]; [lia|].
    pose proof (sorted_le_get sortedGrades Hs (middle lo hi) i midGrade x
                  Hle Hmid Hi). lia.
Qed.

(** The search with default bounds on an array sorted by grade, by its
    outcome. *)
Lemma binarySearchGrade_default_outcome
    (sortedGrades : list GradeObject) (targetGrade : Z) :
  Sorted Z.le (map grade sortedGrades) ->
  match binarySearchGrade_default sortedGrades targetGrade with
  | Returns (Some found) => In found sortedGrades /\ grade found = targetGrade
  | Returns None => forall g, In g sortedGrades -> grade g <> targetGrade
  | ThrowsTypeError | Diverges => False
  end.
Proof.
  intros Hs.
  pose proof (binarySearchGrade_window_le sortedGrades targetGrade 0
                (Z.of_nat (List.length sortedGrades) - 1) Hs
                ltac:(lia) ltac:(lia)) as Hwin.
  fold (binarySearchGrade_default sortedGrades targetGrade) in Hwin.
  apply Hwin. intros i g Hi _. apply array_get_Some in Hi. lia.
Qed.

(** X1: on an array sorted by grade in which grades may repeat, the search
    with default bounds returns a record of the target grade whenever the
    array holds one, and null otherwise; it never throws. *)
Theorem binarySearchGrade_with_duplicates
    (sortedGrades : list GradeObject) (targetGrade : Z) :
  Sorted Z.le (map grade sortedGrades) ->
  ((exists g, In g sortedGrades /\ grade g = targetGrade) ->
   exists found,
     binarySearchGrade_default sortedGrades targetGrade = Returns (Some found)
     /\ In found sortedGrades /\ grade found = targetGrade)
  /\ ((forall g, In g sortedGrades -> grade g <> targetGrade) ->
      binarySearchGrade_default sortedGrades targetGrade = Returns None).
Proof.
  intros Hs.
  pose proof (binarySearchGrade_default_outcome sortedGrades targetGrade Hs)
    as Hwin.
  destruct (binarySearchGrade_default sortedGrades targetGrade)
    as [[found|]| |]; try contradiction.
  - split.
    + intros _. exists found. split; [reflexivity|exact Hwin].
    + intros Hnone. exfalso. destruct Hwin as [Hin Hg]. exact (Hnone found Hin Hg).
  - split.
    + intros (g & Hin & Hg). exfalso. exact (Hwin g Hin Hg).
    + reflexivity.
Qed.

(** X2: on any array, sorted or not, and any window inside the array the
    search does not throw; and whatever window it is given, a record it
    returns sits at an index of the window and has the target grade, so a
    wrong record is never returned. *)
Theorem binarySearchGrade_sound
    (arr : list GradeObject) (targetGrade lo hi : Z) :
  (0 <= lo -> hi < Z.of_nat (List.length arr) ->
   binarySearchGrade arr targetGrade lo hi <> ThrowsTypeError)
  /\ (forall found,
        binarySearchGrade arr targetGrade lo hi = Returns (Some found) ->
        exists i, lo <= i <= hi /\ array_get arr i = Some found
                  /\ grade found = targetGrade).
Proof.
  funelim (binarySearchGrade arr targetGrade lo hi); search_cases;
    try pose proof (middle_between lo hi ltac:(lia)) as Hbetween.
  - split; [discriminate|]. discriminate.
  - split; [|discriminate]. intros Hlo Hhi.
    destruct (array_get_in_range sortedGrades (middle lo hi) ltac:(lia)).
    congruence.
  - split; [discriminate|]. intros found [= <-].
    exists (middle lo hi). repeat split; try lia; assumption.
  - destruct H as [Hsafe Hfound]. split.
    + intros Hlo Hhi. apply Hsafe; lia.
    + intros found Hret. destruct (Hfound found Hret) as (i & Hi & Hget & Hg).
      exists i. repeat split; try lia; assumption.
  - destruct H as [Hsafe Hfound]. split.
    + intros Hlo Hhi. apply Hsafe; lia.
    + intros found Hret. destruct (Hfound found Hret) as (i & Hi & Hget & Hg).
      exists i. repeat split; try lia; assumption.
Qed.

Lemma middle_halves (lo hi : Z) :
  lo <= hi ->
  hi - (middle lo hi + 1) + 1 <= (hi - lo + 1) / 2
  /\ middle lo hi - 1 - lo + 1 <= (hi - lo + 1) / 2.
Proof.
  intros H. rewrite middle_div.
  pose proof (Z.div_mod (lo + hi) 2 ltac:(lia)).
  pose proof (Z.mod_pos_bound (lo + hi) 2 ltac:(lia)).
  pose proof (Z.div_mod (hi - lo + 1) 2 ltac:(lia)).
  pose proof (Z.mod_pos_bound (hi - lo + 1) 2 ltac:(lia)).
  lia.
Qed.

Lemma log2_half (w : Z) : 2 <= w -> Z.log2 (w / 2) + 1 = Z.log2 w.
Proof.
  intros H.
  replace (w / 2) with (Z.shiftr w 1)
    by (rewrite Z.shiftr_div_pow2 by lia; reflexivity).
  rewrite Z.log2_shiftr by lia.
  pose proof (Z.log2_le_mono 2 w ltac:(lia)) as Hl.
  change (Z.log2 2) with 1 in Hl. lia.
Qed.

(** The reads of a window of width [w >= 1] are at most [log2 w + 1]. *)
Lemma binarySearchGrade_reads_window (arr : list GradeObject) (target lo hi : Z) :
  forall w : Z,
    hi - lo + 1 <= w -> 1 <= w ->
    Z.of_nat (binarySearchGrade_reads arr target lo hi) <= Z.log2 w + 1.
Proof.
  funelim (binarySearchGrade_reads arr target lo hi); intros w Hw Hw1;
    pose proof (Z.log2_nonneg w) as Hlog;
    try (cbn; lia).
  - destruct (Z_le_gt_dec 2 w) as [H2|H2].
    + destruct (middle_halves lo hi ltac:(lia)) as [Hright _].
      specialize (H (w / 2)).
      assert (Hhalf : (hi - lo + 1) / 2 <= w / 2)
        by (apply Z.div_le_mono; lia).
      assert (1 <= w / 2) by (apply Z.div_le_lower_bound; lia).
      specialize (H ltac:(lia) ltac:(lia)).
      rewrite <- (log2_half w H2). lia.
    + assert (Hone : lo = hi) by lia. subst hi.
      assert (Hm : middle lo lo = lo)
        by (pose proof (middle_between lo lo ltac:(lia)); lia).
      rewrite Hm. simp binarySearchGrade_reads.
      destruct (Z_gt_dec (lo + 1) lo); [|lia].
      simp binarySearchGrade_reads. cbn. lia.
  - destruct (Z_le_gt_dec 2 w) as [H2|H2].
    + destruct (middle_halves lo hi ltac:(lia)) as [_ Hleft].
      specialize (H (w / 2)).
      assert (Hhalf : (hi - lo + 1) / 2 <= w / 2)
        by (apply Z.div_le_mono; lia).
      assert (1 <= w / 2) by (apply Z.div_le_lower_bound; lia).
      specialize (H ltac:(lia) ltac:(lia)).
      rewrite <- (log2_half w H2). lia.
    + assert (Hone : lo = hi) by lia. subst hi.
      assert (Hm : middle lo lo = lo)
        by (pose proof (middle_between lo lo ltac:(lia)); lia).
      rewrite Hm. simp binarySearchGrade_reads.
      destruct (Z_gt_dec lo (lo - 1)); [|lia].
      simp binarySearchGrade_reads. cbn. lia.
Qed.

(** X3: the search reads at most [log2 n + 1] elements of an array of
    [n >= 1] grades, found or not, sorted or not; for the 12 grades of the
    curriculum that is at most 4. *)
Theorem binarySearchGrade_reads_logarithmic
    (arr : list GradeObject) (targetGrade : Z) :
  (1 <= List.length arr)%nat ->
  Z.of_nat (binarySearchGrade_reads arr targetGrade 0
              (Z.of_nat (List.length arr) - 1))
  <= Z.log2 (Z.of_nat (List.length arr)) + 1
  /\ (List.length arr = 12%nat ->
      (binarySearchGrade_reads arr targetGrade 0 11 <= 4)%nat).
Proof.
  intros Hn.
  pose proof (binarySearchGrade_reads_window arr targetGrade 0
                (Z.of_nat (List.length arr) - 1) (Z.of_nat (List.length arr))
                ltac:(lia) ltac:(lia)) as Hreads.
  split; [exact Hreads|].
  intros H12. rewrite H12 in Hreads.
  change (Z.of_nat 12 - 1) with 11 in Hreads.
  change (Z.log2 (Z.of_nat 12)) with 3 in Hreads. lia.
Qed.

(** *** Names in order *)

Lemma string_ltb_lt (a b : string) :
  String.ltb a b = true <-> String.compare a b = Lt.
Proof. unfold String.ltb. destruct (String.compare a b); split; congruence. Qed.

Lemma string_ltb_trans (a b c : string) :
  String.ltb a b = true -> String.ltb b c = true -> String.ltb a c = true.
Proof.
  rewrite !string_ltb_lt.
  change String.compare with OrderedTypeEx.String_as_OT.cmp.
  rewrite !OrderedTypeEx.String_as_OT.cmp_lt.
  apply OrderedTypeEx.String_as_OT.lt_trans.
Qed.

Lemma string_ltb_irrefl (a : string) : String.ltb a a = false.
Proof.
  unfold String.ltb.
  replace (String.compare a a) with Eq; [reflexivity|].
  symmetry. apply (proj2 (OrderedTypeEx.String_as_OT.cmp_eq a a)). reflexivity.
Qed.

Lemma string_ltb_total (a b : string) :
  String.ltb a b = false -> String.eqb a b = false -> String.ltb b a = true.
Proof.
  intros Hlt Hne. apply String.eqb_neq in Hne.
  unfold String.ltb in *.
  pose proof (String.compare_antisym b a) as Hanti.
  destruct (String.compare a b) eqn:E; try discriminate.
  - apply String.compare_eq_iff in E. contradiction.
  - destruct (String.compare b a); cbn in Hanti; congruence.
Qed.

(** In an array sorted by a transitive relation on keys, a smaller index
    holds a key related to that of every larger index. *)
Lemma sorted_key_nth {A K : Type} (key : A -> K) (R : K -> K -> Prop)
    (Rtrans : forall x y z, R x y -> R y z -> R x z) (arr : list A) :
  Sorted R (map key arr) ->
  forall (i j : nat) x y,
    (i < j)%nat ->
    nth_error arr i = Some x -> nth_error arr j = Some y ->
    R (key x) (key y).
Proof.
  intros Hs. apply Sorted_StronglySorted in Hs; [|exact Rtrans].
  induction arr as [|a arr IH]; intros i j x y Hij Hi Hj.
  - destruct i; discriminate.
  - cbn [map] in Hs. apply StronglySorted_inv in Hs. destruct Hs as [Hs Hall].
    destruct j as [|j]; [lia|]. cbn [nth_error] in Hj.
    destruct i as [|i].
    + cbn in Hi. injection Hi as <-.
      rewrite Forall_forall in Hall. apply Hall.
      apply in_map. eapply nth_error_In. exact Hj.
    + cbn [nth_error] in Hi. apply (IH Hs i j); [lia|assumption|assumption].
Qed.

Lemma sorted_key_get {A K : Type} (key : A -> K) (R : K -> K -> Prop)
    (Rtrans : forall x y z, R x y -> R y z -> R x z) (arr : list A) :
  Sorted R (map key arr) ->
  forall (i j : Z) x y,
    i < j ->
    array_get arr i = Some x -> array_get arr j = Some y ->
    R (key x) (key y).
Proof.
  intros Hs i j x y Hij Hi Hj.
  apply array_get_Some in Hi. apply array_get_Some in Hj.
  destruct Hi as [Hi Hi']. destruct Hj as [Hj Hj'].
  apply (sorted_key_nth key R Rtrans arr Hs (Z.to_nat i) (Z.to_nat j));
    [lia|assumption..].
Qed.

Lemma binarySearchUnit_window (units : list MathUnit) (target : string) (lo hi : Z) :
  Sorted nameBefore (map unit_name units) ->
  0 <= lo -> hi < Z.of_nat (List.length units) ->
  (forall i u, array_get units i = Some u -> unit_name u = target -> lo <= i <= hi) ->
  match binarySearchUnit units target lo hi with
  | Returns (Some u) => In u units /\ unit_name u = target
  | Returns None => forall u, In u units -> unit_name u <> target
  | ThrowsTypeError | Diverges => False
  end.
Proof.
  funelim (binarySearchUnit units target lo hi); intros Hs Hlo Hhi Hwin;
    try match goal with
      | H : array_get _ (middle _ _) = _ |- _ => rename H into Hmid
      end;
    try match goal with
      | H : Sorted _ _ -> _ |- _ => rename H into IH
      end;
    try pose proof (middle_between lo hi ltac:(lia)) as Hbetween.
  - intros x Hin Hx. apply In_array_get in Hin. destruct Hin as [i Hi].
    specialize (Hwin i x Hi Hx). lia.
  - destruct (array_get_in_range sortedUnits (middle lo hi) ltac:(lia)).
    congruence.
  - split.
    + apply array_get_Some in Hmid. destruct Hmid as [_ Hn].
      eapply nth_error_In. exact Hn.
    + apply String.eqb_eq. assumption.
  - apply IH; try assumption; try lia.
    intros i x Hi Hx. split; [|apply (Hwin i x Hi Hx)].
    destruct (Z_lt_le_dec (middle lo hi) i) as [|Hle]; [lia|].
    exfalso.
    destruct (Z.eq_dec i (middle lo hi)) as [->|Hne].
    + rewrite Hmid in Hi. injection Hi as <-.
      rewrite Hx, string_ltb_irrefl in Heq. discriminate.
    + pose proof (sorted_key_get unit_name nameBefore string_ltb_trans
                    sortedUnits Hs i (middle lo hi) x midUnit
                    ltac:(lia) Hi Hmid) as Hbefore.
      unfold nameBefore in Hbefore. rewrite Hx in Hbefore.
      pose proof (string_ltb_trans _ _ _ Hbefore Heq) as Habs.
      rewrite string_ltb_irrefl in Habs. discriminate.
  - apply IH; try assumption; try lia.
    intros i x Hi Hx. split; [apply (Hwin i x Hi Hx)|].
    destruct (Z_lt_le_dec i (middle lo hi)) as [|Hle]; [lia|].
    exfalso.
    destruct (Z.eq_dec i (middle lo hi)) as [->|Hne].
    + rewrite Hmid in Hi. injection Hi as <-.
      rewrite Hx, String.eqb_refl in Heq0. discriminate.
    + pose proof (sorted_key_get unit_name nameBefore string_ltb_trans
                    sortedUnits Hs (middle lo hi) i midUnit x
                    ltac:(lia) Hmid Hi) as Hafter.
      unfold nameBefore in Hafter. rewrite Hx in Hafter. congruence.
Qed.

Lemma sorted_name_unique (units : list MathUnit) (u u' : MathUnit) :
  Sorted nameBefore (map unit_name units) ->
  In u units -> In u' units -> unit_name u = unit_name u' -> u = u'.
Proof.
  intros Hs Hu Hu' Heq.
  apply In_array_get in Hu. apply In_array_get in Hu'.
  destruct Hu as [i Hi]. destruct Hu' as [j Hj].
  destruct (Z.lt_trichotomy i j) as [Hlt|[->|Hgt]].
  - pose proof (sorted_key_get unit_name nameBefore string_ltb_trans
                  units Hs i j u u' Hlt Hi Hj) as H.
    unfold nameBefore in H. rewrite Heq, string_ltb_irrefl in H. discriminate.
  - congruence.
  - pose proof (sorted_key_get unit_name nameBefore string_ltb_trans
                  units Hs j i u' u Hgt Hj Hi) as H.
    unfold nameBefore in H. rewrite Heq, string_ltb_irrefl in H. discriminate.
Qed.

(** X4: on an array of units whose names are strictly increasing in the
    order that [<] gives strings, the unit search with default bounds
    returns the unit of the target name when there is one and null when
    there is none; it never throws. *)
Theorem binarySearchUnit_correct (sortedUnits : list MathUnit) (targetUnitName : string) :
  Sorted nameBefore (map unit_name sortedUnits) ->
  (forall u, In u sortedUnits -> unit_name u = targetUnitName ->
             binarySearchUnit_default sortedUnits targetUnitName = Returns (Some u))
  /\ ((forall u, In u sortedUnits -> unit_name u <> targetUnitName) ->
      binarySearchUnit_default sortedUnits targetUnitName = Returns None).
Proof.
  intros Hs.
  pose proof (binarySearchUnit_window sortedUnits targetUnitName 0
                (Z.of_nat (List.length sortedUnits) - 1) Hs
                ltac:(lia) ltac:(lia)) as Hwin.
  fold (binarySearchUnit_default sortedUnits targetUnitName) in Hwin.
  assert (Hall : forall i u, array_get sortedUnits i = Some u ->
                   unit_name u = targetUnitName ->
                   0 <= i <= Z.of_nat (List.length sortedUnits) - 1).
  { intros i u Hi _. apply array_get_Some in Hi. lia. }
  specialize (Hwin Hall).
  destruct (binarySearchUnit_default sortedUnits targetUnitName)
    as [[found|]| |]; try contradiction.
  - destruct Hwin as [Hin Hname]. split.
    + intros u Hu Heq. do 2 f_equal.
      apply (sorted_name_unique sortedUnits); congruence.
    + intros Hnone. exfalso. exact (Hnone found Hin Hname).
  - split.
    + intros u Hu Heq. exfalso. exact (Hwin u Hu Heq).
    + reflexivity.
Qed.

(** X5: the unit search depends on the [<] order: on two units listed
    against it (the second name before the first) it misses the second
    unit and returns null. *)
Theorem binarySearchUnit_misses_out_of_order (first second : MathUnit) :
  nameBefore (unit_name second) (unit_name first) ->
  binarySearchUnit_default [first; second] (unit_name second) = Returns None.
Proof.
  unfold nameBefore. intros Hbefore.
  assert (Hne : String.eqb (unit_name first) (unit_name second) = false).
  { apply String.eqb_neq. intros Heq.
    rewrite Heq, string_ltb_irrefl in Hbefore. discriminate. }
  assert (Hnlt : String.ltb (unit_name first) (unit_name second) = false).
  { destruct (String.ltb (unit_name first) (unit_name second)) eqn:E;
      [|reflexivity].
    pose proof (string_ltb_trans _ _ _ Hbefore E) as Habs.
    rewrite string_ltb_irrefl in Habs. discriminate. }
  unfold binarySearchUnit_default. cbn [List.length Z.of_nat].
  simp binarySearchUnit. cbn.
  rewrite Hne. simp binarySearchUnit. rewrite Hnlt. simp binarySearchUnit.
  reflexivity.
Qed.

(** *** The linear searches *)

(** X6: linearSearchProblems returns, in their original order and as often
    as they occur, exactly the problems whose topic is the topic searched
    or whose topics list includes it; a problem with neither key is never
    returned. *)
Theorem linearSearchProblems_exact
    (problems : list CurriculumProblem) (topic : string) :
  linearSearchProblems problems topic
  = filter (fun p => matchesTopic p topic) problems
  /\ (forall p,
        In p (linearSearchProblems problems topic)
        <-> In p problems
            /\ (problem_topic p = Some topic
                \/ exists ts, problem_topics p = Some ts /\ In topic ts))
  /\ (forall p, problem_topic p = None -> problem_topics p = None ->
                ~ In p (linearSearchProblems problems topic)).
Proof.
  unfold linearSearchProblems. rewrite pushMatching_filter.
  split; [reflexivity|].
  assert (Hmatch : forall p,
             matchesTopic p topic = true
             <-> problem_topic p = Some topic
                 \/ exists ts, problem_topics p = Some ts /\ In topic ts).
  { intros p. unfold matchesTopic. rewrite orb_true_iff. split.
    - intros [H|H].
      + left. destruct (problem_topic p) as [t|]; [|discriminate].
        apply String.eqb_eq in H. congruence.
      + right. destruct (problem_topics p) as [ts|]; [|discriminate].
        exists ts. split; [reflexivity|].
        apply existsb_exists in H. destruct H as (t & Hin & Ht).
        apply String.eqb_eq in Ht. congruence.
    - intros [H|(ts & Hts & Hin)].
      + left. rewrite H. apply String.eqb_refl.
      + right. rewrite Hts. apply existsb_exists.
        exists topic. split; [exact Hin|apply String.eqb_refl]. }
  split.
  - intros p. rewrite filter_In, Hmatch. reflexivity.
  - intros p Ht Hts Hin. apply filter_In in Hin. destruct Hin as [_ Hm].
    apply Hmatch in Hm. destruct Hm as [H|(ts & H & _)]; congruence.
Qed.

Lemma filter_filter {A : Type} (f g : A -> bool) (l : list A) :
  filter f (filter g l) = filter (fun x => g x && f x) l.
Proof.
  induction l as [|x l IH]; [reflexivity|]. cbn [filter].
  destruct (g x); cbn [filter andb]; [|exact IH].
  destruct (f x); rewrite IH; reflexivity.
Qed.

Lemma filter_agree {A : Type} (f g : A -> bool) (l : list A) :
  (forall x, f x = g x) -> filter f l = filter g l.
Proof.
  intros H. induction l as [|x l IH]; [reflexivity|]. cbn [filter].
  rewrite H, IH. reflexivity.
Qed.

Lemma accessible_spec (playerLevel : Z) (d : Dungeon) :
  accessible playerLevel d = true
  <-> exists m, dungeon_minLevel d = Some m /\ m <= playerLevel.
Proof.
  unfold accessible. destruct (dungeon_minLevel d) as [m|].
  - rewrite Z.leb_le. split.
    + intros H. exists m. split; [reflexivity|exact H].
    + intros (m' & [= <-] & H). exact H.
  - split; [discriminate|]. intros (m & H & _). discriminate.
Qed.

(** X7: the dungeons a player can enter are exactly those with a minLevel
    at most the player's level, in their listed order; a dungeon without
    minLevel is never available; raising the level never removes a dungeon;
    and searching a result again at another level gives the dungeons of the
    lower of the two levels. *)
Theorem linearSearchAvailableDungeons_levels
    (dungeons : list Dungeon) (playerLevel otherLevel : Z) :
  linearSearchAvailableDungeons dungeons playerLevel
  = filter (accessible playerLevel) dungeons
  /\ (forall d, In d (linearSearchAvailableDungeons dungeons playerLevel)
                <-> In d dungeons
                    /\ exists m, dungeon_minLevel d = Some m /\ m <= playerLevel)
  /\ (playerLevel <= otherLevel ->
      incl (linearSearchAvailableDungeons dungeons playerLevel)
           (linearSearchAvailableDungeons dungeons otherLevel))
  /\ linearSearchAvailableDungeons
       (linearSearchAvailableDungeons dungeons playerLevel) otherLevel
     = linearSearchAvailableDungeons dungeons (Z.min playerLevel otherLevel).
Proof.
  unfold linearSearchAvailableDungeons. rewrite !pushMatching_filter.
  split; [reflexivity|]. split; [|split].
  - intros d. rewrite filter_In, accessible_spec. reflexivity.
  - intros Hle d Hd. apply filter_In in Hd. apply filter_In.
    destruct Hd as [Hin Hd]. split; [exact Hin|].
    apply accessible_spec in Hd. apply accessible_spec.
    destruct Hd as (m & Hm & Hlevel).
    exists m. split; [exact Hm|lia].
  - rewrite filter_filter. apply filter_agree. intros d.
    unfold accessible. destruct (dungeon_minLevel d) as [m|]; [|reflexivity].
    destruct (Z.leb_spec m playerLevel), (Z.leb_spec m otherLevel),
      (Z.leb_spec m (Z.min playerLevel otherLevel)); cbn; try reflexivity; lia.
Qed.

Lemma filter_split_perm {A : Type} (f g h : A -> bool) (l : list A) :
  (forall x, h x = f x || g x) -> (forall x, f x && g x = false) ->
  Permutation (filter h l) (filter f l ++ filter g l).
Proof.
  intros Hunion Hdisjoint. induction l as [|x l IH]; [constructor|].
  cbn [filter]. rewrite Hunion. specialize (Hdisjoint x).
  destruct (f x), (g x); cbn [orb app]; try discriminate.
  - constructor. exact IH.
  - apply Permutation_cons_app. exact IH.
  - exact IH.
Qed.

(** X8: linearSearchByDifficulty returns exactly the problems whose
    difficulty - 1 when the key is missing or 0 - lies in the range, in
    their listed order; an empty range (min > max) gives nothing; and the
    results for two adjacent ranges together are, up to order, the result
    for the joined range. *)
Theorem linearSearchByDifficulty_ranges
    (problems : list CurriculumProblem) (lo mid hi : Z) :
  (forall p,
      In p (linearSearchByDifficulty problems lo hi)
      <-> In p problems /\ lo <= difficultyOf p <= hi)
  /\ (forall p, problem_difficulty p = None \/ problem_difficulty p = Some 0 ->
                difficultyOf p = 1)
  /\ (hi < lo -> linearSearchByDifficulty problems lo hi = [])
  /\ (lo <= mid + 1 -> mid <= hi ->
      Permutation (linearSearchByDifficulty problems lo hi)
                  (linearSearchByDifficulty problems lo mid
                   ++ linearSearchByDifficulty problems (mid + 1) hi)).
Proof.
  unfold linearSearchByDifficulty. rewrite !pushMatching_filter.
  split; [|split; [|split]].
  - intros p. rewrite filter_In, andb_true_iff, !Z.leb_le. reflexivity.
  - intros p [H|H]; unfold difficultyOf; rewrite H; reflexivity.
  - intros Hempty. induction problems as [|p ps IH]; [reflexivity|].
    cbn [filter].
    destruct (Z.leb_spec lo (difficultyOf p)),
      (Z.leb_spec (difficultyOf p) hi); cbn [andb]; try exact IH; lia.
  - intros Hlo Hhi. apply filter_split_perm; intros p;
      destruct (Z.leb_spec lo (difficultyOf p)),
        (Z.leb_spec (difficultyOf p) hi),
        (Z.leb_spec (difficultyOf p) mid),
        (Z.leb_spec (mid + 1) (difficultyOf p)); cbn; try reflexivity; lia.
Qed.

(** *** The class *)

Lemma insertByGrade_perm (g : GradeObject) (l : list GradeObject) :
  Permutation (g :: l) (insertByGrade g l).
Proof.
  induction l as [|h l IH]; cbn [insertByGrade]; [reflexivity|].
  destruct (grade g <=? grade h); [reflexivity|].
  rewrite perm_swap. constructor. exact IH.
Qed.

Lemma sortByGrade_perm (grades : list GradeObject) :
  Permutation grades (sortByGrade grades).
Proof.
  induction grades as [|g l IH]; cbn; [constructor|].
  rewrite <- insertByGrade_perm. constructor. exact IH.
Qed.

Lemma insertByGrade_sorted (g : GradeObject) (l : list GradeObject) :
  Sorted Z.le (map grade l) -> Sorted Z.le (map grade (insertByGrade g l)).
Proof.
  induction l as [|h l IH]; intros Hs; cbn [insertByGrade map].
  - repeat constructor.
  - destruct (Z.leb_spec (grade g) (grade h)) as [Hle|Hgt]; cbn [map].
    + constructor; [exact Hs|constructor; exact Hle].
    + cbn [map] in Hs. apply Sorted_inv in Hs. destruct Hs as [Hs Hhd].
      constructor; [apply IH; exact Hs|].
      destruct l as [|k l]; cbn [insertByGrade map].
      * constructor. lia.
      * destruct (grade g <=? grade k); cbn [map]; constructor;
          [lia|inversion Hhd; assumption].
Qed.

Lemma sortByGrade_sorted (grades : list GradeObject) :
  Sorted Z.le (map grade (sortByGrade grades)).
Proof.
  induction grades as [|g l IH]; cbn; [constructor|].
  apply insertByGrade_sorted. exact IH.
Qed.

(** [findGrade] on a searcher built from any curriculum, by its outcome. *)
Lemma findGrade_outcome (grades : list GradeObject) (gradeNumber : Z) :
  match findGrade (newDungeonSearcher grades) gradeNumber with
  | Returns (Some found) => In found grades /\ grade found = gradeNumber
  | Returns None => forall g, In g grades -> grade g <> gradeNumber
  | ThrowsTypeError | Diverges => False
  end.
Proof.
  unfold findGrade, newDungeonSearcher. cbn [this_sortedGrades].
  pose proof (binarySearchGrade_default_outcome (sortByGrade grades) gradeNumber
                (sortByGrade_sorted grades)) as Hout.
  pose proof (sortByGrade_perm grades) as Hperm.
  destruct (binarySearchGrade_default (sortByGrade grades) gradeNumber)
    as [[found|]| |]; try contradiction.
  - destruct Hout as [Hin Hg]. split; [|exact Hg].
    apply (Permutation_in _ (Permutation_sym Hperm)). exact Hin.
  - intros g Hin. apply Hout. apply (Permutation_in _ Hperm). exact Hin.
Qed.

(** X9: findGrade on a searcher built from any curriculum - grades listed
    in any order, repeated or not - returns a grade object of the wanted
    number whenever the curriculum has one, and null when it has none; it
    never throws. *)
Theorem findGrade_any_order (grades : list GradeObject) (gradeNumber : Z) :
  ((exists g, In g grades /\ grade g = gradeNumber) ->
   exists found,
     findGrade (newDungeonSearcher grades) gradeNumber = Returns (Some found)
     /\ In found grades /\ grade found = gradeNumber)
  /\ ((forall g, In g grades -> grade g <> gradeNumber) ->
      findGrade (newDungeonSearcher grades) gradeNumber = Returns None).
Proof.
  pose proof (findGrade_outcome grades gradeNumber) as Hout.
  destruct (findGrade (newDungeonSearcher grades) gradeNumber)
    as [[found|]| |]; try contradiction.
  - split.
    + intros _. exists found. split; [reflexivity|exact Hout].
    + intros Hno. exfalso. destruct Hout as [Hin Hg]. exact (Hno found Hin Hg).
  - split.
    + intros (g & Hin & Hg). exfalso. exact (Hout g Hin Hg).
    + reflexivity.
Qed.

Lemma classic_grade (grades : list GradeObject) (gradeNumber : Z) :
  (exists g, In g grades /\ grade g = gradeNumber)
  \/ (forall g, In g grades -> grade g <> gradeNumber).
Proof.
  induction grades as [|a l IH].
  - right. intros g [].
  - destruct (Z.eq_dec (grade a) gradeNumber) as [Heq|Hne].
    + left. exists a. split; [left; reflexivity|exact Heq].
    + destruct IH as [(g & Hin & Hg)|Hno].
      * left. exists g. split; [right; exact Hin|exact Hg].
      * right. intros g [<-|Hin]; [exact Hne|apply Hno; exact Hin].
Qed.

Lemma dungeons_sorted (unitsOf : GradeObject -> option (list MathUnit))
    (test : Dungeon -> bool) (l : list GradeObject) :
  Sorted Z.le (map grade l) ->
  Sorted Z.le (map dungeon_grade (filter test (map (dungeonOf unitsOf) l))).
Proof.
  intros Hs. apply Sorted_StronglySorted in Hs;
    [|intros x y z; apply Z.le_trans].
  apply StronglySorted_Sorted.
  induction l as [|a l IH]; cbn [map filter]; [constructor|].
  cbn [map] in Hs. apply StronglySorted_inv in Hs. destruct Hs as [Hs Hall].
  destruct (test (dungeonOf unitsOf a)); cbn [map]; [|apply IH; exact Hs].
  constructor; [apply IH; exact Hs|].
  rewrite Forall_forall in *. intros x Hx.
  apply in_map_iff in Hx. destruct Hx as (d & <- & Hd).
  apply filter_In in Hd. destruct Hd as [Hd _].
  apply in_map_iff in Hd. destruct Hd as (g & <- & Hg).
  cbn [dungeonOf dungeon_grade]. apply Hall. apply in_map. exact Hg.
Qed.

(** X10: getAvailableDungeons lists the dungeon of a grade exactly when the
    grade's entry level - its minLevel, or the grade number itself when
    minLevel is missing or 0 - is at most the player's level; the list is
    in ascending grade order whatever order the curriculum has. *)
Theorem getAvailableDungeons_entry_levels
    (unitsOf : GradeObject -> option (list MathUnit))
    (grades : list GradeObject) (playerLevel : Z) :
  let listed := getAvailableDungeons unitsOf (newDungeonSearcher grades) playerLevel in
  (forall d,
      In d listed
      <-> exists g, In g grades /\ d = dungeonOf unitsOf g
                    /\ match minLevel g with
                       | Some m => if m =? 0 then grade g else m
                       | None => grade g
                       end <= playerLevel)
  /\ Sorted Z.le (map dungeon_grade listed).
Proof.
  cbn zeta. unfold getAvailableDungeons, newDungeonSearcher.
  cbn [this_sortedGrades].
  unfold linearSearchAvailableDungeons. rewrite pushMatching_filter.
  pose proof (sortByGrade_perm grades) as Hperm.
  split.
  - intros d. rewrite filter_In, accessible_spec, in_map_iff. split.
    + intros ((g & <- & Hg) & m & Hm & Hle).
      exists g. split; [apply (Permutation_in _ (Permutation_sym Hperm)); exact Hg|].
      split; [reflexivity|].
      cbn [dungeonOf dungeon_minLevel] in Hm. injection Hm as <-.
      unfold js_or in Hle. exact Hle.
    + intros (g & Hg & -> & Hle). split.
      * exists g. split; [reflexivity|apply (Permutation_in _ Hperm); exact Hg].
      * eexists. split; [reflexivity|]. unfold js_or. exact Hle.
  - apply dungeons_sorted. apply sortByGrade_sorted.
Qed.

(** X11: findProblemsByTopic and findProblemsByDifficulty never throw: for
    a grade number the curriculum does not have, or a grade without a
    problems list, they return the empty list; otherwise they return the
    matching problems of a grade object of that number. *)
Theorem findProblems_total
    (problemsOf : GradeObject -> option (list CurriculumProblem))
    (grades : list GradeObject) (gradeNumber : Z)
    (topic : string) (minDifficulty maxDifficulty : Z) :
  let this := newDungeonSearcher grades in
  exists byTopic byDifficulty,
    findProblemsByTopic problemsOf this gradeNumber topic = Returns byTopic
    /\ findProblemsByDifficulty problemsOf this gradeNumber
         minDifficulty maxDifficulty = Returns byDifficulty
    /\ ((forall g, In g grades -> grade g <> gradeNumber) ->
        byTopic = [] /\ byDifficulty = [])
    /\ ((forall g, In g grades -> grade g = gradeNumber -> problemsOf g = None) ->
        byTopic = [] /\ byDifficulty = [])
    /\ ((exists g, In g grades /\ grade g = gradeNumber) ->
        exists g, In g grades /\ grade g = gradeNumber
                  /\ byTopic
                     = match problemsOf g with
                       | Some ps => linearSearchProblems ps topic
                       | None => []
                       end
                  /\ byDifficulty
                     = match problemsOf g with
                       | Some ps =>
                           linearSearchByDifficulty ps minDifficulty maxDifficulty
                       | None => []
                       end).
Proof.
  cbn zeta. unfold findProblemsByTopic, findProblemsByDifficulty.
  pose proof (findGrade_outcome grades gradeNumber) as Hout.
  destruct (findGrade (newDungeonSearcher grades) gradeNumber)
    as [[found|]| |]; try contradiction.
  - destruct Hout as [Hin Hg].
    destruct (problemsOf found) as [ps|] eqn:Hps.
    + do 2 eexists. split; [reflexivity|]. split; [reflexivity|].
      split; [intros Habs; exfalso; exact (Habs found Hin Hg)|].
      split; [intros Habs; specialize (Habs found Hin Hg); congruence|].
      intros _. exists found. rewrite Hps. repeat split; assumption.
    + do 2 eexists. split; [reflexivity|]. split; [reflexivity|].
      split; [intros _; split; reflexivity|].
      split; [intros _; split; reflexivity|].
      intros _. exists found. rewrite Hps. repeat split; assumption.
  - do 2 eexists. split; [reflexivity|]. split; [reflexivity|].
    split; [intros _; split; reflexivity|].
    split; [intros _; split; reflexivity|].
    intros (g & Hin & Hg). exfalso. exact (Hout g Hin Hg).
Qed.

End SearchFacts.

Lemma binarySearchGrade_with_duplicates_witness :
  exists found,
    DungeonSearcher.binarySearchGrade_default repeatedGrades 3
    = Returns (Some found)
    /\ In found repeatedGrades /\ DungeonSearcher.grade found = 3.
Proof.
  apply (proj1 (binarySearchGrade_with_duplicates
                  repeatedGrades 3
                  ltac:(repeat constructor; cbn; lia))).
  eexists. split; [right; left; reflexivity|reflexivity].
Defined.

Lemma binarySearchGrade_reads_logarithmic_witness :
  Z.of_nat (DungeonSearcher.binarySearchGrade_reads sampleGrades 8 0
              (Z.of_nat (List.length sampleGrades) - 1))
  <= Z.log2 (Z.of_nat (List.length sampleGrades)) + 1.
Proof.
  apply (proj1 (binarySearchGrade_reads_logarithmic
                  sampleGrades 8 ltac:(cbn; lia))).
Defined.

Lemma binarySearchUnit_correct_witness :
  DungeonSearcher.binarySearchUnit_default sampleUnits "Fractions"
  = Returns (Some (mkUnit "Fractions" ["halves"%string] (Some 2))).
Proof.
  apply (proj1 (binarySearchUnit_correct sampleUnits "Fractions"
                  ltac:(repeat constructor))).
  - right; left; reflexivity.
  - reflexivity.
Defined.

Lemma binarySearchUnit_misses_out_of_order_witness :
  DungeonSearcher.binarySearchUnit_default
    [mkUnit "Geometry" [] None; mkUnit "Addition" [] None] "Addition"
  = Returns None.
Proof.
  apply (binarySearchUnit_misses_out_of_order
           (mkUnit "Geometry" [] None) (mkUnit "Addition" [] None)).
  reflexivity.
Defined.

(** ** The stat block (CharacterStats) *)

Section StatFacts.

(** X12: heal never lifts [currentHP] above [maxHP] and changes no other
    field; two heals in a row are one heal of the sum when the second amount
    is not negative; a heal at full health changes nothing; [heal] does not
    check the sign of its amount, so a negative amount lowers [currentHP],
    with no floor at 0. *)
Theorem heal_bounds_and_composition (s : CharacterStats) (a b : Z) :
  currentHP (heal s a) <= maxHP s
  /\ heal s a = set_currentHP s (currentHP (heal s a))
  /\ (0 <= a -> currentHP s <= maxHP s -> currentHP s <= currentHP (heal s a))
  /\ (0 <= b -> heal (heal s a) b = heal s (a + b))
  /\ (0 <= a -> currentHP s = maxHP s -> heal s a = s)
  /\ (a <= 0 -> currentHP s <= maxHP s -> currentHP (heal s a) = currentHP s + a).
Proof.
  unfold heal. cbn [set_currentHP currentHP maxHP].
  split; [lia|]. split; [reflexivity|]. split; [lia|].
  split; [|split].
  - intros Hb. unfold set_currentHP.
    cbn [maxHP currentHP attack defense level experience experienceToNextLevel
         gold equippedWeapon].
    f_equal. lia.
  - intros Ha Hfull. destruct s. cbn in *. subst. unfold set_currentHP. cbn.
    f_equal. lia.
  - lia.
Qed.

(** X13: two hits in a row take the sum of their actual damages, floored at
    0, whatever their order; healing the damage a hit reported restores the
    stat block exactly when the hit did not overshoot, and never leaves
    fewer hit points than before the hit. *)
Theorem takeDamage_composes_and_heals_back (s : CharacterStats) (d1 d2 : Q) :
  let hit1 := takeDamage s d1 in
  let hit2 := takeDamage (fst hit1) d2 in
  fst hit2 = set_currentHP s (Z.max 0 (currentHP s - (snd hit1 + snd hit2)))
  /\ fst (takeDamage (fst (takeDamage s d2)) d1) = fst hit2
  /\ (snd hit1 <= currentHP s <= maxHP s -> heal (fst hit1) (snd hit1) = s)
  /\ (currentHP s <= maxHP s ->
      currentHP s <= currentHP (heal (fst hit1) (snd hit1))).
Proof.
  cbn zeta. unfold takeDamage, heal. cbn [fst snd].
  unfold set_currentHP.
  cbn [maxHP currentHP attack defense level experience experienceToNextLevel
       gold equippedWeapon].
  split; [f_equal; lia|]. split; [f_equal; lia|]. split.
  - intros Hrange. destruct s. cbn in *. f_equal. lia.
  - lia.
Qed.

Lemma levelUp_maxHP (s : CharacterStats) : maxHP (levelUp s) = maxHP s * 12 / 10.
Proof.
  unfold levelUp. cbn [maxHP]. change (1.2)%Q with (12 # 10).
  apply Qfloor_scale.
Qed.

Lemma levelUp_attack (s : CharacterStats) : attack (levelUp s) = attack s * 115 / 100.
Proof.
  unfold levelUp. cbn [attack]. change (1.15)%Q with (115 # 100).
  apply Qfloor_scale.
Qed.

Lemma levelUp_defense (s : CharacterStats) : defense (levelUp s) = defense s * 11 / 10.
Proof.
  unfold levelUp. cbn [defense]. change (1.1)%Q with (11 # 10).
  apply Qfloor_scale.
Qed.

Lemma levelUp_currentHP (s : CharacterStats) :
  currentHP (levelUp s) = currentHP s + (maxHP (levelUp s) - maxHP s).
Proof. reflexivity. Qed.

(** X14: a level-up keeps the hit points of a stat block within 0 and
    maxHP and lowers no stat; but flooring swallows small gains: maxHP
    grows only from 5, attack only from 7 and defense only from 10, so the
    default defense of 5 is never raised by levelling. *)
Theorem levelUp_grows_or_stalls (s : CharacterStats) :
  hitPointsInRange s -> 0 <= attack s -> 0 <= defense s ->
  hitPointsInRange (levelUp s)
  /\ maxHP s <= maxHP (levelUp s)
  /\ currentHP s <= currentHP (levelUp s)
  /\ attack s <= attack (levelUp s)
  /\ defense s <= defense (levelUp s)
  /\ (maxHP s < maxHP (levelUp s) <-> 5 <= maxHP s)
  /\ (attack s < attack (levelUp s) <-> 7 <= attack s)
  /\ (defense s < defense (levelUp s) <-> 10 <= defense s).
Proof.
  unfold hitPointsInRange. intros Hhp Ha Hd.
  rewrite levelUp_currentHP, levelUp_maxHP, levelUp_attack, levelUp_defense.
  pose proof (Z.div_mod (maxHP s * 12) 10 ltac:(lia)) as E1.
  pose proof (Z.mod_pos_bound (maxHP s * 12) 10 ltac:(lia)) as B1.
  pose proof (Z.div_mod (attack s * 115) 100 ltac:(lia)) as E2.
  pose proof (Z.mod_pos_bound (attack s * 115) 100 ltac:(lia)) as B2.
  pose proof (Z.div_mod (defense s * 11) 10 ltac:(lia)) as E3.
  pose proof (Z.mod_pos_bound (defense s * 11) 10 ltac:(lia)) as B3.
  repeat match goal with |- _ /\ _ => split end; lia.
Qed.

(** *** What the loop of addExperience keeps *)

Lemma levelUps_S (k : nat) (s : CharacterStats) :
  levelUps (S k) s = addExperience_body (levelUps k s).
Proof.
  revert s. induction k as [|k IH]; intros s; [reflexivity|].
  change (levelUps (S (S k)) s) with (levelUps (S k) (addExperience_body s)).
  rewrite IH. reflexivity.
Qed.

Lemma levelUps_experience (k : nat) (s : CharacterStats) :
  experience (levelUps k s) + experiencePaid k s = experience s.
Proof.
  revert s. induction k as [|k IH]; intros s; cbn [levelUps experiencePaid].
  - lia.
  - specialize (IH (addExperience_body s)).
    rewrite addExperience_body_experience in IH. lia.
Qed.

Lemma experiencePaid_ge (k : nat) (s : CharacterStats) :
  0 < experienceToNextLevel s -> Z.of_nat k <= experiencePaid k s.
Proof.
  revert s. induction k as [|k IH]; intros s Hpos; cbn [experiencePaid].
  - lia.
  - specialize (IH (addExperience_body s) (addExperience_body_threshold s Hpos)).
    lia.
Qed.

Lemma levelUps_kept (k : nat) (s : CharacterStats) :
  gold (levelUps k s) = gold s
  /\ equippedWeapon (levelUps k s) = equippedWeapon s
  /\ maxHP (levelUps k s) - currentHP (levelUps k s) = maxHP s - currentHP s.
Proof.
  revert s. induction k as [|k IH]; intros s; cbn [levelUps].
  - repeat split.
  - destruct (IH (addExperience_body s)) as (Hg & Hw & Hd).
    rewrite Hg, Hw, Hd. unfold addExperience_body, levelUp.
    cbn [gold equippedWeapon maxHP currentHP set_experience].
    repeat split. lia.
Qed.

Lemma levelUps_range (k : nat) (s : CharacterStats) :
  hitPointsInRange s ->
  hitPointsInRange (levelUps k s) /\ maxHP s <= maxHP (levelUps k s).
Proof.
  revert s. induction k as [|k IH]; intros s Hs; cbn [levelUps].
  - split; [exact Hs|lia].
  - assert (Hstep : hitPointsInRange (addExperience_body s)
                    /\ maxHP s <= maxHP (addExperience_body s)).
    { unfold addExperience_body, hitPointsInRange in *.
      rewrite levelUp_currentHP, levelUp_maxHP. cbn [set_experience maxHP currentHP].
      pose proof (Z.div_mod (maxHP s * 12) 10 ltac:(lia)).
      pose proof (Z.mod_pos_bound (maxHP s * 12) 10 ltac:(lia)).
      lia. }
    destruct Hstep as [Hr Hm]. destruct (IH _ Hr) as [Hr' Hm'].
    split; [exact Hr'|lia].
Qed.

Lemma levelUps_low_defense (k : nat) (s : CharacterStats) :
  0 <= defense s < 10 -> defense (levelUps k s) = defense s.
Proof.
  revert s. induction k as [|k IH]; intros s Hd; cbn [levelUps]; [reflexivity|].
  assert (Hstep : defense (addExperience_body s) = defense s).
  { unfold addExperience_body. rewrite levelUp_defense. cbn [set_experience defense].
    pose proof (Z.div_mod (defense s * 11) 10 ltac:(lia)).
    pose proof (Z.mod_pos_bound (defense s * 11) 10 ltac:(lia)).
    lia. }
  rewrite IH; rewrite Hstep; [reflexivity|exact Hd].
Qed.

(** X15: addExperience on a stat block with a positive threshold returns
    after some number k of level-ups, having raised the level by k and
    having spent exactly the thresholds of the levels gained: experience
    afterwards plus the thresholds paid equals experience before plus exp.
    Gold, weapon and the hit points missing from full health are as
    before; when the new total is not negative the experience left is not
    negative and k is at most that total; a total below the threshold
    gives no level-up; a defense below 10 comes out unchanged. *)
Theorem addExperience_conserves_experience (s : CharacterStats) (exp : Z) :
  0 < experienceToNextLevel s ->
  exists (k : nat) (s' : CharacterStats),
    addExperience s exp = Returns (s', negb (k =? 0)%nat)
    /\ level s' = level s + Z.of_nat k
    /\ experience s' + experiencePaid k (set_experience s (experience s + exp))
       = experience s + exp
    /\ gold s' = gold s
    /\ equippedWeapon s' = equippedWeapon s
    /\ maxHP s' - currentHP s' = maxHP s - currentHP s
    /\ (hitPointsInRange s -> hitPointsInRange s' /\ maxHP s <= maxHP s')
    /\ (0 <= experience s + exp ->
        0 <= experience s' /\ Z.of_nat k <= experience s + exp)
    /\ (experience s + exp < experienceToNextLevel s ->
        k = 0%nat /\ s' = set_experience s (experience s + exp))
    /\ (0 <= defense s < 10 -> defense s' = defense s).
Proof.
  intros Hpos.
  destruct (addExperience_runs s exp Hpos) as (k & Hrun & Hbefore & Hafter & _).
  cbn zeta in *.
  set (s0 := set_experience s (experience s + exp)) in *.
  exists k, (levelUps k s0).
  pose proof (levelUps_experience k s0) as Hsum.
  pose proof (experiencePaid_ge k s0 Hpos) as Hpaid.
  destruct (levelUps_kept k s0) as (Hg & Hw & Hd).
  change (experience s0) with (experience s + exp) in Hsum.
  assert (Hleft : (0 < k)%nat -> 0 <= experience (levelUps k s0)).
  { destruct k as [|k]; [lia|]. intros _.
    rewrite levelUps_S, addExperience_body_experience.
    specialize (Hbefore k ltac:(lia)). lia. }
  split; [exact Hrun|]. split; [apply (levelUps_level k s0)|].
  split; [exact Hsum|]. split; [exact Hg|]. split; [exact Hw|].
  split; [exact Hd|]. split; [|split; [|split]].
  - intros Hr. apply (levelUps_range k s0). exact Hr.
  - intros Htotal. destruct k as [|k].
    + cbn [levelUps]. change (experience s0) with (experience s + exp). lia.
    + specialize (Hleft ltac:(lia)). lia.
  - intros Hbelow. destruct k as [|k]; [split; reflexivity|].
    specialize (Hbefore 0%nat ltac:(lia)). cbn [levelUps] in Hbefore.
    change (experience s0) with (experience s + exp) in Hbefore.
    change (experienceToNextLevel s0) with (experienceToNextLevel s) in Hbefore.
    lia.
  - intros Hlow. apply (levelUps_low_defense k s0). exact Hlow.
Qed.

(** X16: the constructor reads every numeric key with [||], so an absent
    key and a key holding 0 give the same stat block; a config whose values
    are not negative always builds a stat block at full health with
    positive maxHP, attack, defense, level and threshold, on which
    addExperience returns for every amount.  A negative value is kept as it
    is: a config with a negative experienceToNextLevel (and experience that
    is not negative) builds a stat block on which addExperience of any
    amount that is not negative never leaves its loop. *)
Theorem newCharacterStats_defaults (config : StatsConfig) (exp : Z) :
  let zeroAsAbsent (x : option Z) :=
    match x with Some 0 => None | _ => x end in
  let s := newCharacterStats config in
  newCharacterStats
    (mkConfig (zeroAsAbsent (cfg_maxHP config)) (zeroAsAbsent (cfg_attack config))
              (zeroAsAbsent (cfg_defense config)) (zeroAsAbsent (cfg_level config))
              (zeroAsAbsent (cfg_experience config))
              (zeroAsAbsent (cfg_experienceToNextLevel config))
              (zeroAsAbsent (cfg_gold config)) (cfg_equippedWeapon config))
  = s
  /\ currentHP s = maxHP s
  /\ (notNegative (cfg_maxHP config) -> 0 < maxHP s)
  /\ (notNegative (cfg_attack config) -> 0 < attack s)
  /\ (notNegative (cfg_defense config) -> 0 < defense s)
  /\ (notNegative (cfg_level config) -> 0 < level s)
  /\ (notNegative (cfg_experienceToNextLevel config) ->
      0 < experienceToNextLevel s
      /\ exists r, addExperience s exp = Returns r)
  /\ (forall threshold,
        cfg_experienceToNextLevel config = Some threshold -> threshold < 0 ->
        notNegative (cfg_experience config) -> 0 <= exp ->
        addExperience s exp = Diverges).
Proof.
  cbn zeta.
  assert (Hor : forall x d,
             cfg_or (match x with Some 0 => None | _ => x end) d = cfg_or x d).
  { intros [[| |]|] d; reflexivity. }
  assert (Hpos : forall x d, 0 < d -> notNegative x -> 0 < cfg_or x d).
  { intros [v|] d Hd Hx; cbn in *; [|exact Hd].
    unfold js_or. destruct (Z.eqb_spec v 0); lia. }
  split.
  { unfold newCharacterStats.
    cbn [cfg_maxHP cfg_attack cfg_defense cfg_level cfg_experience
         cfg_experienceToNextLevel cfg_gold cfg_equippedWeapon].
    rewrite !Hor. reflexivity. }
  split; [reflexivity|].
  split; [intros H; exact (Hpos _ 400 ltac:(lia) H)|].
  split; [intros H; exact (Hpos _ 10 ltac:(lia) H)|].
  split; [intros H; exact (Hpos _ 5 ltac:(lia) H)|].
  split; [intros H; exact (Hpos _ 1 ltac:(lia) H)|].
  split.
  - intros H.
    assert (Hthr : 0 < experienceToNextLevel (newCharacterStats config))
      by exact (Hpos _ 100 ltac:(lia) H).
    split; [exact Hthr|].
    destruct (addExperience_runs (newCharacterStats config) exp Hthr)
      as (k & Hrun & _).
    eexists. exact Hrun.
  - intros threshold Hcfg Hneg Hexp Hge. apply addExperience_diverges;
      unfold newCharacterStats; cbn [experienceToNextLevel experience];
      rewrite Hcfg; unfold cfg_or at 1, js_or;
      destruct (Z.eqb_spec threshold 0); try lia.
    destruct (cfg_experience config) as [e|]; cbn in *;
      unfold js_or; [destruct (Z.eqb_spec e 0)|]; lia.
Qed.

(** *** The fairness cap for any nominal damage *)

(** X17: whatever nominal damage it is given, whole or fractional, the
    boss's damage is at least 1 and at most max(1, floor(heroMaxHP / 5));
    a hero level below 1 counts as level 1; and the result never goes down
    when the nominal damage, the hero's level or the hero's maxHP goes
    up. *)
Theorem boss_cap_bounds_and_monotone
    (nominal nominal' : Q) (heroLevel heroLevel' heroMaxHP heroMaxHP' : Z) :
  1 <= figureOutHowMuchDamageTheBossDoes nominal heroLevel heroMaxHP
    <= Z.max 1 (heroMaxHP / 5)
  /\ (heroLevel <= 1 ->
      figureOutHowMuchDamageTheBossDoes nominal heroLevel heroMaxHP
      = figureOutHowMuchDamageTheBossDoes nominal 1 heroMaxHP)
  /\ ((0 <= nominal)%Q -> (nominal <= nominal')%Q ->
      heroLevel <= heroLevel' -> heroMaxHP <= heroMaxHP' ->
      figureOutHowMuchDamageTheBossDoes nominal heroLevel heroMaxHP
      <= figureOutHowMuchDamageTheBossDoes nominal' heroLevel' heroMaxHP').
Proof.
  unfold figureOutHowMuchDamageTheBossDoes. split; [|split].
  - rewrite Qfloor_min, fifth_floor. lia.
  - intros HL. rewrite (Z.max_l 0 (heroLevel - 1)) by lia. reflexivity.
  - intros H0 Hn HL HM.
    apply Z.max_le_compat_l, Qfloor_resp_le, Q.min_le_compat.
    + apply Qle_trans
        with (nominal * (1 + inject_Z (Z.max 0 (heroLevel' - 1)) * 0.05))%Q.
      * rewrite !(Qmult_comm nominal). apply Qmult_le_compat_r; [|exact H0].
        assert (Hm : Z.max 0 (heroLevel - 1) <= Z.max 0 (heroLevel' - 1)) by lia.
        revert Hm. generalize (Z.max 0 (heroLevel - 1)) (Z.max 0 (heroLevel' - 1)).
        intros a b Hab. Qeq_arith.
      * apply Qmult_le_compat_r; [exact Hn|].
        assert (Hm : 0 <= Z.max 0 (heroLevel' - 1)) by lia.
        revert Hm. generalize (Z.max 0 (heroLevel' - 1)). intros b Hb. Qeq_arith.
    + Qeq_arith.
Qed.

End StatFacts.

Lemma levelUp_grows_or_stalls_witness :
  hitPointsInRange (levelUp defaultStats)
  /\ (defense defaultStats < defense (levelUp defaultStats)
      <-> 10 <= defense defaultStats).
Proof.
  pose proof (levelUp_grows_or_stalls defaultStats
                ltac:(unfold hitPointsInRange; cbn; lia)
                ltac:(cbn; lia) ltac:(cbn; lia)) as H.
  split; [apply H|apply H].
Defined.

Lemma addExperience_conserves_experience_witness :
  exists (k : nat) (s' : CharacterStats),
    addExperience defaultStats 150 = Returns (s', negb (k =? 0)%nat)
    /\ level s' = level defaultStats + Z.of_nat k
    /\ experience s'
       + experiencePaid k (set_experience defaultStats
                             (experience defaultStats + 150))
       = experience defaultStats + 150.
Proof.
  destruct (addExperience_conserves_experience defaultStats 150
              ltac:(cbn; lia)) as (k & s' & H1 & H2 & H3 & _).
  exists k, s'. repeat split; assumption.
Defined.

(** ** Whole battles *)

Section BattleRuns.
Context `{C : Collaborators}.

(** What one turn operation does to a ready manager: nothing when it is
    called out of turn, and otherwise one of the four outcomes of the two
    calls. *)
Lemma perform_cases (bm : BattleManager) (op : TurnOperation) :
  battleReady bm ->
  (perform bm op = Returns bm
   /\ match op with
      | CallSubmitAnswer _ _ => battleState bm <> player_turn
      | CallEnemyTurn _ _ => battleState bm <> enemy_turn
      end)
  \/ (exists playerAnswer variance en,
        op = CallSubmitAnswer playerAnswer variance
        /\ battleState bm = player_turn /\ enemy bm = Some en
        /\ let isCorrect := validateAnswer (currentMathProblem bm) playerAnswer in
           let dealt := answerDamage bm en isCorrect variance in
           let msg := if isCorrect then MsgCorrect dealt (enemy_name en)
                      else MsgWrong dealt in
           (0 < currentHP (enemy_stats en) - Z.max 1 dealt
            /\ perform bm op
               = Returns
                   {| hero := hero bm; grade := grade bm; unit := unit bm;
                      difficulty := difficulty bm;
                      difficultySettings := difficultySettings bm;
                      enemy := Some (enemyAfterHit en dealt);
                      currentMathProblem := currentMathProblem bm;
                      battleState := enemy_turn;
                      battleMessageHistory := battleMessageHistory bm ++ [msg];
                      turnSystem := turn_endTurn (turnSystem bm) |})
           \/ (currentHP (enemy_stats en) - Z.max 1 dealt <= 0
               /\ exists k : nat,
                    let gained :=
                      levelUps k (set_experience (hero_stats (hero bm))
                                    (experience (hero_stats (hero bm))
                                     + expReward bm en)) in
                    perform bm op
                    = Returns
                        {| hero := mkHero (set_gold gained
                                             (gold gained + goldReward bm en));
                           grade := grade bm; unit := unit bm;
                           difficulty := difficulty bm;
                           difficultySettings := difficultySettings bm;
                           enemy := Some (enemyAfterHit en dealt);
                           currentMathProblem := currentMathProblem bm;
                           battleState := victory;
                           battleMessageHistory :=
                             (battleMessageHistory bm ++ [msg])
                             ++ [MsgVictory (expReward bm en) (goldReward bm en)];
                           turnSystem := turnSystem bm |}))
  \/ (exists variance generated en,
        op = CallEnemyTurn variance generated
        /\ battleState bm = enemy_turn /\ enemy bm = Some en
        /\ let dealt := bossDamage bm en variance in
           (0 < currentHP (hero_stats (hero bm)) - dealt
            /\ perform bm op
               = Returns
                   {| hero := mkHero (set_currentHP (hero_stats (hero bm))
                                        (currentHP (hero_stats (hero bm)) - dealt));
                      grade := grade bm; unit := unit bm;
                      difficulty := difficulty bm;
                      difficultySettings := difficultySettings bm;
                      enemy := Some en;
                      currentMathProblem := generated;
                      battleState := player_turn;
                      battleMessageHistory :=
                        battleMessageHistory bm
                        ++ [MsgEnemyAttacks (enemy_name en) dealt];
                      turnSystem := turn_endTurn (turnSystem bm) |})
           \/ (currentHP (hero_stats (hero bm)) - dealt <= 0
               /\ perform bm op
                  = Returns
                      {| hero := mkHero (set_currentHP (hero_stats (hero bm)) 0);
                         grade := grade bm; unit := unit bm;
                         difficulty := difficulty bm;
                         difficultySettings := difficultySettings bm;
                         enemy := Some en;
                         currentMathProblem := currentMathProblem bm;
                         battleState := defeat;
                         battleMessageHistory :=
                           (battleMessageHistory bm
                            ++ [MsgEnemyAttacks (enemy_name en) dealt])
                           ++ [MsgDefeat];
                         turnSystem := turnSystem bm |})).
Proof.
  intros [Hpos Hen]. destruct op as [playerAnswer variance|variance generated].
  - destruct (BattleState_eqb (battleState bm) player_turn) eqn:E.
    + apply BattleState_eqb_eq in E.
      destruct Hen as [Hw|Hen]; [congruence|].
      destruct (enemy bm) as [en|] eqn:Henemy; [|congruence].
      right. left. exists playerAnswer, variance, en.
      split; [reflexivity|]. split; [exact E|]. split; [reflexivity|].
      cbn zeta. cbn [perform].
      destruct (Z_lt_le_dec 0
                  (currentHP (enemy_stats en)
                   - Z.max 1 (answerDamage bm en
                                (validateAnswer (currentMathProblem bm) playerAnswer)
                                variance))) as [Halive|Hdead].
      * left. split; [exact Halive|].
        rewrite (submitAnswer_enemy_survives bm playerAnswer variance en
                   E Henemy Halive).
        reflexivity.
      * right. split; [exact Hdead|].
        destruct (addExperience_runs (hero_stats (hero bm)) (expReward bm en) Hpos)
          as (k & Hk & _).
        exists k.
        rewrite (submitAnswer_enemy_falls bm playerAnswer variance en _ _
                   E Henemy Hdead Hk).
        reflexivity.
    + left. cbn [perform]. unfold submitAnswer. rewrite E. cbn [negb].
      split; [reflexivity|]. intros Heq. rewrite Heq in E. discriminate.
  - destruct (BattleState_eqb (battleState bm) enemy_turn) eqn:E.
    + apply BattleState_eqb_eq in E.
      destruct Hen as [Hw|Hen]; [congruence|].
      destruct (enemy bm) as [en|] eqn:Henemy; [|congruence].
      right. right. exists variance, generated, en.
      split; [reflexivity|]. split; [exact E|]. split; [reflexivity|].
      cbn zeta. cbn [perform].
      destruct (Z_lt_le_dec 0 (currentHP (hero_stats (hero bm))
                               - bossDamage bm en variance)) as [Halive|Hdead].
      * left. split; [exact Halive|].
        apply (enemyTurn_hero_survives bm variance generated en E Henemy Halive).
      * right. split; [exact Hdead|].
        apply (enemyTurn_hero_falls bm variance generated en E Henemy Hdead).
    + left. cbn [perform]. unfold enemyTurn. rewrite E. cbn [negb].
      split; [reflexivity|]. intros Heq. rewrite Heq in E. discriminate.
Qed.

Lemma performAll_terminal (ops : list TurnOperation) (bm : BattleManager) :
  terminal (battleState bm) = true -> performAll bm ops = Returns bm.
Proof.
  intros H. induction ops as [|op rest IH]; [reflexivity|].
  cbn [performAll]. rewrite (perform_terminal bm op H). exact IH.
Qed.

Lemma bossDamage_le_fifth (bm : BattleManager) (en : Enemy) (variance : Z) :
  bossDamage bm en variance <= Z.max 1 (maxHP (hero_stats (hero bm)) / 5).
Proof.
  unfold bossDamage, figureOutHowMuchDamageTheBossDoes.
  rewrite Qfloor_min, fifth_floor. lia.
Qed.

Lemma ready_intro (bm : BattleManager) :
  0 < experienceToNextLevel (hero_stats (hero bm)) ->
  enemy bm <> None -> battleReady bm.
Proof. intros H1 H2. split; [exact H1|right; exact H2]. Qed.

(** Splits on the outcome of one operation, leaving the next manager's
    readiness in the context. *)
Ltac one_turn bm op Hready :=
  let bm1 := fresh "bm1" in
  let Hrun := fresh "Hrun" in
  let Hready1 := fresh "Hready1" in
  destruct (perform_ready bm op Hready) as (bm1 & Hrun & Hready1 & _);
  destruct (perform_cases bm op Hready)
    as [[Hsame Hout]
       |[(playerAnswer & variance & en & Hop & Hstate & Henemy
          & [[Halive Hstep]|[Hdead [k Hstep]]])
        |(variance & generated & en & Hop & Hstate & Henemy
          & [[Halive Hstep]|[Hdead Hstep]])]];
  cbn zeta in *;
  [ rewrite Hsame in Hrun | rewrite Hstep in Hrun ..];
  injection Hrun as Hrun; subst bm1.

Lemma hero_outlasts (ops : list TurnOperation) :
  forall bm : BattleManager,
    battleReady bm ->
    battleState bm <> defeat ->
    (battleState bm = victory
     \/ Z.of_nat (enemyTurnCalls ops)
        * Z.max 1 (maxHP (hero_stats (hero bm)) / 5)
        < currentHP (hero_stats (hero bm))) ->
    exists bm', performAll bm ops = Returns bm' /\ battleState bm' <> defeat.
Proof.
  induction ops as [|op rest IH]; intros bm Hready Hnot Hhp.
  - exists bm. split; [reflexivity|exact Hnot].
  - destruct Hhp as [Hwon|Hhp].
    { exists bm. split; [|exact Hnot].
      apply performAll_terminal. rewrite Hwon. reflexivity. }
    assert (Hcalls : (enemyTurnCalls rest <= enemyTurnCalls (op :: rest))%nat).
    { destruct op; cbn [enemyTurnCalls]; lia. }
    pose proof (Z.le_max_l 1 (maxHP (hero_stats (hero bm)) / 5)) as Hcap.
    cbn [performAll].
    one_turn bm op Hready.
    + rewrite Hsame. apply IH; [exact Hready|exact Hnot|].
      right. nia.
    + rewrite Hstep. apply IH; [exact Hready1|cbn; discriminate|].
      right. cbn [hero]. nia.
    + rewrite Hstep. apply IH; [exact Hready1|cbn; discriminate|].
      left. reflexivity.
    + rewrite Hstep. apply IH; [exact Hready1|cbn; discriminate|].
      right. cbn [hero hero_stats set_currentHP maxHP currentHP].
      subst op. cbn [enemyTurnCalls] in Hhp.
      pose proof (bossDamage_le_fifth bm en variance). nia.
    + exfalso. subst op. cbn [enemyTurnCalls] in Hhp.
      pose proof (bossDamage_le_fifth bm en variance). nia.
Qed.

(** X18: the fairness cap over a whole battle.  A hero with more hit
    points than n times max(1, floor(maxHP / 5)) is not defeated by any
    run of submitAnswer and enemyTurn calls that holds at most n enemyTurn
    calls; so from full health with maxHP of 5 or more, no run with four or
    fewer enemy turns ends in defeat: the enemy needs at least five hits. *)
Theorem hero_survives_four_enemy_turns
    (bm : BattleManager) (ops : list TurnOperation) :
  battleReady bm ->
  battleState bm <> defeat ->
  (Z.of_nat (enemyTurnCalls ops) * Z.max 1 (maxHP (hero_stats (hero bm)) / 5)
   < currentHP (hero_stats (hero bm)) ->
   exists bm', performAll bm ops = Returns bm' /\ battleState bm' <> defeat)
  /\ (5 <= maxHP (hero_stats (hero bm)) ->
      currentHP (hero_stats (hero bm)) = maxHP (hero_stats (hero bm)) ->
      (enemyTurnCalls ops <= 4)%nat ->
      exists bm', performAll bm ops = Returns bm' /\ battleState bm' <> defeat).
Proof.
  intros Hready Hnot. split.
  - intros Hhp. apply hero_outlasts; [exact Hready|exact Hnot|right; exact Hhp].
  - intros H5 Hfull Hcalls.
    apply hero_outlasts; [exact Hready|exact Hnot|right].
    rewrite Hfull.
    pose proof (Z.div_mod (maxHP (hero_stats (hero bm))) 5 ltac:(lia)).
    pose proof (Z.mod_pos_bound (maxHP (hero_stats (hero bm))) 5 ltac:(lia)).
    rewrite Z.max_r by lia. nia.
Qed.


(** *** What every run keeps *)

Lemma enemyAfterHit_same (en : Enemy) (dealt : Z) :
  sameEnemy en (enemyAfterHit en dealt).
Proof.
  unfold sameEnemy, enemyAfterHit. rewrite applyDamage_integer.
  cbn. repeat split.
Qed.

Lemma sameEnemy_refl (en : Enemy) : sameEnemy en en.
Proof. repeat split. Qed.

Lemma sameEnemy_trans (a b c : Enemy) :
  sameEnemy a b -> sameEnemy b c -> sameEnemy a c.
Proof. unfold sameEnemy. intuition congruence. Qed.

Lemma perform_consistent (bm : BattleManager) (op : TurnOperation) (foe : Enemy) :
  battleReady bm ->
  battleConsistent bm ->
  enemy bm = Some foe ->
  exists bm' foe',
    perform bm op = Returns bm'
    /\ battleReady bm'
    /\ battleConsistent bm'
    /\ enemy bm' = Some foe'
    /\ sameEnemy foe foe'
    /\ currentHP (enemy_stats foe') <= currentHP (enemy_stats foe).
Proof.
  intros Hready (foe1 & Hfoe1 & Hhero & Hrange & Hwon & Hlost) Hfoe.
  rewrite Hfoe in Hfoe1. injection Hfoe1 as <-.
  unfold hitPointsInRange in *.
  assert (Hwon' : battleState bm <> victory -> currentHP (enemy_stats foe) <> 0)
    by tauto.
  assert (Hlost' : battleState bm <> defeat ->
                   currentHP (hero_stats (hero bm)) <> 0) by tauto.
  one_turn bm op Hready;
    try (rewrite Hfoe in Henemy; injection Henemy as <-;
         specialize (Hwon' ltac:(congruence));
         specialize (Hlost' ltac:(congruence))).
  - exists bm, foe. split; [exact Hsame|]. split; [exact Hready|].
    split; [exists foe; repeat split; tauto || lia|].
    split; [exact Hfoe|]. split; [apply sameEnemy_refl|lia].
  - eexists. eexists. split; [exact Hstep|]. split; [exact Hready1|].
    pose proof (enemyAfterHit_currentHP foe
                  (answerDamage bm foe
                     (validateAnswer (currentMathProblem bm) playerAnswer)
                     variance)) as Hhp.
    destruct (enemyAfterHit_same foe
                (answerDamage bm foe
                   (validateAnswer (currentMathProblem bm) playerAnswer)
                   variance)) as (S1 & S2 & S3 & S4 & S5 & S6).
    split; [|split; [reflexivity|split; [repeat split; assumption|lia]]].
    eexists. split; [reflexivity|].
    cbn [hero battleState]. unfold hitPointsInRange. rewrite Hhp, S3.
    repeat split; try lia; try discriminate; intros; exfalso; lia.
  - eexists. eexists. split; [exact Hstep|]. split; [exact Hready1|].
    pose proof (enemyAfterHit_currentHP foe
                  (answerDamage bm foe
                     (validateAnswer (currentMathProblem bm) playerAnswer)
                     variance)) as Hhp.
    destruct (enemyAfterHit_same foe
                (answerDamage bm foe
                   (validateAnswer (currentMathProblem bm) playerAnswer)
                   variance)) as (S1 & S2 & S3 & S4 & S5 & S6).
    split; [|split; [reflexivity|split; [repeat split; assumption|lia]]].
    eexists. split; [reflexivity|].
    cbn [hero hero_stats battleState]. unfold hitPointsInRange. rewrite Hhp, S3.
    set (s0 := set_experience (hero_stats (hero bm))
                 (experience (hero_stats (hero bm)) + expReward bm foe)) in *.
    destruct (levelUps_range k s0 Hhero) as [[Hlo Hhi] Hmax].
    destruct (levelUps_kept k s0) as (_ & _ & Hdeficit).
    change (maxHP s0) with (maxHP (hero_stats (hero bm))) in *.
    change (currentHP s0) with (currentHP (hero_stats (hero bm))) in *.
    cbn [set_gold currentHP maxHP].
    repeat split; try lia; try discriminate; intros; exfalso; lia.
  - pose proof (bossDamage_ge_1 bm foe variance) as Hge.
    eexists. eexists. split; [exact Hstep|]. split; [exact Hready1|].
    split; [|split; [reflexivity|split; [apply sameEnemy_refl|lia]]].
    eexists. split; [reflexivity|].
    cbn [hero hero_stats battleState].
    unfold hitPointsInRange.
    cbn [set_currentHP currentHP maxHP].
    repeat split; try lia; try discriminate; intros; exfalso; lia.
  - eexists. eexists. split; [exact Hstep|]. split; [exact Hready1|].
    split; [|split; [reflexivity|split; [apply sameEnemy_refl|lia]]].
    eexists. split; [reflexivity|].
    cbn [hero hero_stats battleState].
    unfold hitPointsInRange.
    cbn [set_currentHP currentHP maxHP].
    repeat split; try lia; try discriminate; intros; exfalso; congruence.
Qed.

(** X20: the state of a battle and the hit points never disagree.  On a
    manager where both sides have their hit points within 0 and maxHP, the
    state is victory exactly when the enemy has 0 left and defeat exactly
    when the hero has 0 left, every run of submitAnswer and enemyTurn calls
    returns a manager of which the same is true; the enemy is still the
    same enemy (name, type, maxHP, attack, defense, level) and has not
    gained a hit point. *)
Theorem battle_state_agrees_with_hit_points
    (bm : BattleManager) (en : Enemy) (ops : list TurnOperation) :
  battleReady bm ->
  battleConsistent bm ->
  enemy bm = Some en ->
  exists bm' en',
    performAll bm ops = Returns bm'
    /\ battleConsistent bm'
    /\ enemy bm' = Some en'
    /\ sameEnemy en en'
    /\ currentHP (enemy_stats en') <= currentHP (enemy_stats en).
Proof.
  revert bm en.
  induction ops as [|op rest IH]; intros bm en Hready Hcons Hen.
  - exists bm, en. split; [reflexivity|]. split; [exact Hcons|].
    split; [exact Hen|]. split; [apply sameEnemy_refl|lia].
  - destruct (perform_consistent bm op en Hready Hcons Hen)
      as (bm1 & en1 & Hrun & Hready1 & Hcons1 & Hen1 & Hsame1 & Hhp1).
    destruct (IH bm1 en1 Hready1 Hcons1 Hen1)
      as (bm' & en' & Hrun' & Hcons' & Hen' & Hsame' & Hhp').
    exists bm', en'. cbn [performAll]. rewrite Hrun.
    split; [exact Hrun'|]. split; [exact Hcons'|]. split; [exact Hen'|].
    split; [exact (sameEnemy_trans _ _ _ Hsame1 Hsame')|lia].
Qed.

(** X21: submitAnswer and enemyTurn only ever append to the battle log, at
    most two lines per call, and never change the grade, the unit, the
    difficulty or its settings: after any run of them the log starts with
    the log as it was. *)
Theorem turn_operations_only_append (bm : BattleManager) (ops : list TurnOperation) :
  battleReady bm ->
  exists bm' added,
    performAll bm ops = Returns bm'
    /\ battleMessageHistory bm' = battleMessageHistory bm ++ added
    /\ (List.length added <= 2 * List.length ops)%nat
    /\ grade bm' = grade bm
    /\ unit bm' = unit bm
    /\ difficulty bm' = difficulty bm
    /\ difficultySettings bm' = difficultySettings bm.
Proof.
  revert bm.
  induction ops as [|op rest IH]; intros bm Hready.
  - exists bm, []. rewrite app_nil_r. repeat split. cbn. lia.
  - cbn [performAll List.length].
    one_turn bm op Hready;
      [rewrite Hsame; destruct (IH bm Hready)
         as (bm' & added & Hrun & Hlog & Hlen & Hg & Hu & Hd & Hs)
      |rewrite Hstep;
       match goal with
       | Hr : battleReady ?m |- context [performAll ?m rest] =>
           destruct (IH m Hr)
             as (bm' & added & Hrun & Hlog & Hlen & Hg & Hu & Hd & Hs)
       end ..];
      cbn [battleMessageHistory grade unit difficulty difficultySettings] in *;
      rewrite <- ?app_assoc in Hlog;
      eexists; eexists; (split; [exact Hrun|]);
      (split; [exact Hlog|]);
      (split; [cbn [List.length app]; lia|]);
      repeat split; assumption.
Qed.

Lemma calculateDamage_wrong_le_correct (atk def variance : Z) :
  0 <= atk ->
  (calculateDamage (mkAttacker atk None) (mkDefender def) false variance
   <= calculateDamage (mkAttacker atk None) (mkDefender def) true variance)%Q.
Proof.
  intros Ha. rewrite !calculateDamage_no_bonus.
  apply Q.max_le_compat_l. Qeq_arith.
Qed.

Lemma Qfloor_nonneg (x : Q) : (0 <= x)%Q -> 0 <= Qfloor x.
Proof. intros H. apply (Qfloor_resp_le 0 x) in H. exact H. Qed.

Lemma table_multipliers (d : Difficulty) :
  (0 < playerDamageMultiplier (GAME_DIFFICULTY_SETTINGS d))%Q
  /\ (0 <= wrongAnswerPenalty (GAME_DIFFICULTY_SETTINGS d))%Q
  /\ (wrongAnswerPenalty (GAME_DIFFICULTY_SETTINGS d) <= 1)%Q.
Proof. destruct d; repeat split; cbn; Qeq_arith. Qed.



End BattleRuns.

(** *** The theorems on the sample battle *)

Lemma lastBlowBattle_ready : battleReady lastBlowBattle.
Proof. split; [reflexivity|right; discriminate]. Qed.

Lemma hero_survives_four_enemy_turns_witness :
  exists bm',
    performAll sampleBattle (sampleExchange ++ sampleExchange) = Returns bm'
    /\ battleState bm' <> defeat.
Proof.
  apply (proj2 (hero_survives_four_enemy_turns
                  sampleBattle (sampleExchange ++ sampleExchange)
                  sampleBattle_ready ltac:(discriminate))).
  - apply Z.leb_le. vm_compute. reflexivity.
  - vm_compute. reflexivity.
  - apply Nat.leb_le. vm_compute. reflexivity.
Defined.


Lemma lastBlowBattle_consistent : battleConsistent lastBlowBattle.
Proof.
  eexists. split; [reflexivity|]. unfold hitPointsInRange. cbn.
  repeat split; try lia; try discriminate.
Qed.

Lemma battle_state_agrees_with_hit_points_witness :
  exists bm' en',
    performAll lastBlowBattle [CallSubmitAnswer "5" 5] = Returns bm'
    /\ battleConsistent bm'
    /\ enemy bm' = Some en'
    /\ sameEnemy
         (mkEnemy "Math Slime" "slime" (mkStats 80 2 8 3 1 0 100 0 woodenSword))
         en'
    /\ currentHP (enemy_stats en') <= 2.
Proof.
  apply (battle_state_agrees_with_hit_points lastBlowBattle
           (mkEnemy "Math Slime" "slime" (mkStats 80 2 8 3 1 0 100 0 woodenSword))
           [CallSubmitAnswer "5" 5]
           lastBlowBattle_ready lastBlowBattle_consistent).
  reflexivity.
Defined.

Lemma turn_operations_only_append_witness :
  exists bm' added,
    performAll sampleBattle sixExchanges = Returns bm'
    /\ battleMessageHistory bm' = battleMessageHistory sampleBattle ++ added
    /\ (List.length added <= 2 * List.length sixExchanges)%nat
    /\ grade bm' = grade sampleBattle
    /\ unit bm' = unit sampleBattle
    /\ difficulty bm' = difficulty sampleBattle
    /\ difficultySettings bm' = difficultySettings sampleBattle.
Proof.
  apply (turn_operations_only_append sampleBattle sixExchanges sampleBattle_ready).
Defined.



(** ** The number line *)

Section NumberLineFacts.
Import NumberLine.
Open Scope Q_scope.

Lemma unit_fraction (x lo hi : Q) :
  lo <= x -> x <= hi -> lo < hi ->
  0 <= (x - lo) / (hi - lo) /\ (x - lo) / (hi - lo) <= 1.
Proof.
  intros H1 H2 H3. split.
  - apply Qle_shift_div_l; lra.
  - apply Qle_shift_div_r; lra.
Qed.

Lemma marker_on_the_line (this : NumberLine) :
  min this <= value this -> value this <= max this -> min this < max this ->
  80 <= width this ->
  exists x, marker this = MarkerAt x /\ 40 <= x /\ x <= width this - 40.
Proof.
  intros H1 H2 H3 Hw. unfold marker.
  rewrite (proj2 (Qle_bool_iff _ _) H1), (proj2 (Qle_bool_iff _ _) H2).
  cbn [andb].
  destruct (Qeq_bool (max this - min this) 0) eqn:E.
  { apply Qeq_bool_iff in E. lra. }
  eexists. split; [reflexivity|].
  destruct (unit_fraction (value this) (min this) (max this) H1 H2 H3) as [F0 F1].
  set (t := (value this - min this) / (max this - min this)) in *.
  assert (G0 : 0 <= t * (width this - 40 * 2)).
  { apply Qmult_le_0_compat; lra. }
  assert (G1 : t * (width this - 40 * 2) <= 1 * (width this - 40 * 2)).
  { apply Qmult_le_compat_r; lra. }
  split; lra.
Qed.

(** X24: showOperation sets a range that holds a, b and the result of the
    operation with a margin of 5 on either side, so the range is at least
    10 wide and render draws at least 11 ticks; both timers then set a
    value inside the range, for which render draws its marker on the line,
    between the two paddings (on a canvas at least 80 wide).  Any operation
    other than "+" is shown as a subtraction. *)
Theorem showOperation_frames_the_operation
    (this : NumberLine) (a b : Q) (operation : string) :
  let result := if String.eqb operation "+" then a + b else a - b in
  let shown := fst (showOperation this a b operation) in
  let timers := snd (showOperation this a b operation) in
  (min shown + 5 <= a /\ a + 5 <= max shown)
  /\ (min shown + 5 <= b /\ b + 5 <= max shown)
  /\ (min shown + 5 <= result /\ result + 5 <= max shown)
  /\ 10 <= max shown - min shown
  /\ 11 <= numTicks shown
  /\ timers = [(500%Z, a); (1500%Z, result)]
  /\ width shown = width this
  /\ (80 <= width this ->
      forall delay v, In (delay, v) timers ->
        exists x, marker (setValue shown v) = MarkerAt x
                  /\ 40 <= x /\ x <= width this - 40).
Proof.
  cbn zeta. unfold showOperation. cbn [fst snd].
  unfold numTicks. cbn [setRange min max width].
  set (r := a + (if String.eqb operation "+" then b else - b)).
  assert (Hr : (if String.eqb operation "+" then a + b else a - b) = r).
  { subst r. destruct (String.eqb operation "+"); reflexivity. }
  rewrite Hr.
  pose proof (Q.le_min_l (Qmin a b) r) as L1.
  pose proof (Q.le_min_r (Qmin a b) r) as L2.
  pose proof (Q.le_min_l a b) as L3.
  pose proof (Q.le_min_r a b) as L4.
  pose proof (Q.le_max_l (Qmax a b) r) as U1.
  pose proof (Q.le_max_r (Qmax a b) r) as U2.
  pose proof (Q.le_max_l a b) as U3.
  pose proof (Q.le_max_r a b) as U4.
  set (lo := Qmin (Qmin a b) r) in *. set (hi := Qmax (Qmax a b) r) in *.
  set (m := Qmin a b) in *. set (M := Qmax a b) in *.
  split; [split; lra|]. split; [split; lra|]. split; [split; lra|].
  split; [lra|]. split.
  { apply Q.min_glb; [discriminate|lra]. }
  split; [reflexivity|]. split; [reflexivity|].
  intros Hw delay v Hin.
  assert (Hv : lo <= v /\ v <= hi).
  { destruct Hin as [[= _ <-]|[[= _ <-]|[]]]; split; lra. }
  match goal with
  | |- exists x, marker ?nl = _ /\ _ => apply (marker_on_the_line nl)
  end; cbn [setValue setRange min max value width]; lra.
Qed.

(** X25: the marker of render.  A value outside the range gets no marker
    (so never with min above max); a value inside a range of positive
    width gets a marker on the line, at the left padding for the minimum and
    at the right padding for the maximum; on a range of width 0, which
    setRange accepts, the position of the marker is 0 / 0, not a number. *)
Theorem render_marker_cases (this : NumberLine) :
  (value this < min this \/ max this < value this -> marker this = NoMarker)
  /\ (max this < min this -> marker this = NoMarker)
  /\ (min this == value this -> value this == max this ->
      marker this = MarkerAtNaN)
  /\ (min this <= value this -> value this <= max this -> min this < max this ->
      exists x,
        marker this = MarkerAt x
        /\ (80 <= width this -> 40 <= x /\ x <= width this - 40)
        /\ (value this == min this -> x == 40)
        /\ (value this == max this -> x == width this - 40)).
Proof.
  assert (Hout : value this < min this \/ max this < value this ->
                 marker this = NoMarker).
  { intros Hor. unfold marker.
    destruct (Qle_bool (min this) (value this)) eqn:E1; [|reflexivity].
    destruct (Qle_bool (value this) (max this)) eqn:E2; [|reflexivity].
    apply Qle_bool_iff in E1. apply Qle_bool_iff in E2. lra. }
  split; [exact Hout|]. split; [|split].
  - intros Hlt. apply Hout.
    destruct (Qlt_le_dec (value this) (min this)); [left; assumption|right; lra].
  - intros H1 H2. unfold marker.
    rewrite (proj2 (Qle_bool_iff (min this) (value this))) by lra.
    rewrite (proj2 (Qle_bool_iff (value this) (max this))) by lra.
    cbn [andb].
    rewrite (proj2 (Qeq_bool_iff (max this - min this) 0)) by lra.
    reflexivity.
  - intros H1 H2 H3. unfold marker.
    rewrite (proj2 (Qle_bool_iff _ _) H1), (proj2 (Qle_bool_iff _ _) H2).
    cbn [andb].
    destruct (Qeq_bool (max this - min this) 0) eqn:E.
    { apply Qeq_bool_iff in E. lra. }
    eexists. split; [reflexivity|].
    destruct (unit_fraction (value this) (min this) (max this) H1 H2 H3) as [F0 F1].
    split; [|split].
    + intros Hw.
      set (t := (value this - min this) / (max this - min this)) in *.
      assert (G0 : 0 <= t * (width this - 40 * 2)).
      { apply Qmult_le_0_compat; lra. }
      assert (G1 : t * (width this - 40 * 2) <= 1 * (width this - 40 * 2)).
      { apply Qmult_le_compat_r; lra. }
      split; lra.
    + intros Heq.
      assert (Hz : value this - min this == 0) by lra.
      rewrite Hz. unfold Qdiv. rewrite Qmult_0_l, Qmult_0_l. lra.
    + intros Heq.
      assert (Hone : (value this - min this) / (max this - min this) == 1).
      { rewrite Heq. apply Qmult_inv_r. lra. }
      rewrite Hone. lra.
Qed.

End NumberLineFacts.

(** ** The audio manager *)

Section AudioFacts.
Import AudioManager.

Lemma setVolume_clamps (this : AudioManager) (volume : Q) :
  (0 <= masterVolume (setVolume this volume))%Q
  /\ (masterVolume (setVolume this volume) <= 1)%Q.
Proof.
  cbn [setVolume masterVolume]. split.
  - apply Q.le_max_l.
  - apply Q.max_lub; [discriminate|apply Q.le_min_l].
Qed.

Lemma perform_volume (this : AudioManager) (op : AudioOperation) :
  (0 <= masterVolume this)%Q -> (masterVolume this <= 1)%Q ->
  ((0 <= masterVolume (fst (perform this op)))%Q
   /\ (masterVolume (fst (perform this op)) <= 1)%Q)
  /\ forall call gain,
       In call (snd (perform this op)) -> loudness call = Some gain ->
       (0 <= gain)%Q /\ (gain <= 1)%Q.
Proof.
  intros H0 H1.
  assert (Hnone : forall call gain,
             In call (@nil AudioCall) -> loudness call = Some gain ->
             (0 <= gain)%Q /\ (gain <= 1)%Q) by (intros ? ? []).
  destruct op as [frequency duration type| | | |volume|enabled];
    cbn [perform].
  - unfold generateTone.
    destruct (audioContext this) as [created|]; [|split; [split|]; assumption].
    destruct (soundEnabled this); [|split; [split|]; assumption].
    cbn [fst snd masterVolume]. split; [split; assumption|].
    intros call gain [<-|[]] [= <-]. split; assumption.
  - unfold playClickSound, generateTone.
    destruct (audioContext this) as [created|]; [|split; [split|]; assumption].
    destruct (soundEnabled this); [|split; [split|]; assumption].
    cbn [fst snd masterVolume]. split; [split; assumption|].
    intros call gain [<-|[]] [= <-]. split; assumption.
  - unfold playBackgroundMusic.
    destruct (audioContext this) as [created|]; [|split; [split|]; assumption].
    destruct (soundEnabled this); [|split; [split|]; assumption].
    cbn [fst snd masterVolume]. split; [split; assumption|].
    intros call gain [<-|[]] [= <-]. split; lra.
  - unfold stopBackgroundMusic.
    destruct (backgroundMusic this); cbn [fst snd masterVolume];
      (split; [split; assumption|]); [|assumption].
    intros call gain [<-|[]]; discriminate.
  - cbn [fst snd]. split; [apply setVolume_clamps|assumption].
  - unfold setSoundEnabled, stopBackgroundMusic.
    destruct enabled; cbn [negb backgroundMusic];
      [|destruct (backgroundMusic this)]; cbn [fst snd masterVolume];
      (split; [split; assumption|]); try assumption.
    intros call gain [<-|[]]; discriminate.
Qed.

Lemma performAll_cons (this : AudioManager) (op : AudioOperation)
    (rest : list AudioOperation) :
  performAll this (op :: rest)
  = (fst (performAll (fst (perform this op)) rest),
     snd (perform this op) ++ snd (performAll (fst (perform this op)) rest)).
Proof.
  cbn [performAll]. destruct (perform this op) as [this1 calls].
  cbn [fst snd]. destruct (performAll this1 rest). reflexivity.
Qed.

(** X26: setVolume clamps to the range 0..1 and is the only method that
    writes masterVolume, so on a manager whose volume is within 0..1 (the
    constructor sets 0.5) every run of calls leaves it within 0..1, every
    tone peaks at a gain within 0..1, and background music never plays
    above a fifth of that; a volume within 0..1 is stored as it is, one
    below 0 as 0, one above 1 as 1. *)
Theorem volume_stays_in_range
    (this : AudioManager) (ops : list AudioOperation) (volume : Q) :
  (0 <= masterVolume this)%Q -> (masterVolume this <= 1)%Q ->
  ((0 <= masterVolume (fst (performAll this ops)))%Q
   /\ (masterVolume (fst (performAll this ops)) <= 1)%Q)
  /\ (forall call gain,
        In call (snd (performAll this ops)) -> loudness call = Some gain ->
        (0 <= gain)%Q /\ (gain <= 1)%Q)
  /\ ((0 <= volume)%Q -> (volume <= 1)%Q ->
      (masterVolume (setVolume this volume) == volume)%Q)
  /\ ((volume <= 0)%Q -> (masterVolume (setVolume this volume) == 0)%Q)
  /\ ((1 <= volume)%Q -> (masterVolume (setVolume this volume) == 1)%Q).
Proof.
  intros H0 H1. rewrite <- and_assoc. split.
  - revert this H0 H1. induction ops as [|op rest IH]; intros this H0 H1.
    + cbn. split; [split; assumption|]. intros ? ? [].
    + rewrite performAll_cons. cbn [fst snd].
      destruct (perform_volume this op H0 H1) as [[G0 G1] Hcalls].
      destruct (IH _ G0 G1) as [Hvol Hlater].
      split; [exact Hvol|].
      intros call gain Hin. apply in_app_or in Hin.
      destruct Hin as [Hin|Hin]; [apply Hcalls|apply Hlater]; exact Hin.
  - cbn [setVolume masterVolume]. split; [|split].
    + intros V0 V1. rewrite Q.min_r by exact V1. apply Q.max_r. exact V0.
    + intros V0. apply Q.max_l.
      apply Qle_trans with volume; [apply Q.le_min_r|exact V0].
    + intros V1. rewrite Q.min_l by exact V1. apply Q.max_r. discriminate.
Qed.

Lemma perform_silent (this : AudioManager) (op : AudioOperation) :
  soundEnabled this = false ->
  backgroundMusic this = None ->
  op <> CallSetSoundEnabled true ->
  snd (perform this op) = []
  /\ soundEnabled (fst (perform this op)) = false
  /\ backgroundMusic (fst (perform this op)) = None
  /\ audioContext (fst (perform this op)) = audioContext this.
Proof.
  intros Hoff Hnone Hop.
  destruct op as [frequency duration type| | | |volume|[|]]; cbn [perform].
  - unfold generateTone. rewrite Hoff.
    destruct (audioContext this) eqn:E; cbn; rewrite ?E; repeat split; solve [assumption|reflexivity].
  - unfold playClickSound, generateTone. rewrite Hoff.
    destruct (audioContext this) eqn:E; cbn; rewrite ?E; repeat split; solve [assumption|reflexivity].
  - unfold playBackgroundMusic. rewrite Hoff.
    destruct (audioContext this) eqn:E; cbn; rewrite ?E; repeat split; solve [assumption|reflexivity].
  - unfold stopBackgroundMusic. rewrite Hnone. cbn [fst snd].
    repeat split; solve [assumption|reflexivity].
  - cbn [fst snd setVolume soundEnabled backgroundMusic audioContext].
    repeat split; solve [assumption|reflexivity].
  - congruence.
  - unfold setSoundEnabled, stopBackgroundMusic. cbn [negb backgroundMusic].
    rewrite Hnone. cbn [fst snd soundEnabled backgroundMusic audioContext].
    repeat split; solve [assumption|reflexivity].
Qed.

Lemma performAll_silent (ops : list AudioOperation) :
  forall this : AudioManager,
    soundEnabled this = false ->
    backgroundMusic this = None ->
    Forall (fun op => op <> CallSetSoundEnabled true) ops ->
    snd (performAll this ops) = []
    /\ soundEnabled (fst (performAll this ops)) = false
    /\ backgroundMusic (fst (performAll this ops)) = None
    /\ audioContext (fst (performAll this ops)) = audioContext this.
Proof.
  induction ops as [|op rest IH]; intros this Hoff Hnone Hall.
  - cbn. repeat split; assumption.
  - inversion Hall as [|? ? Hop Hrest]; subst.
    destruct (perform_silent this op Hoff Hnone Hop) as (S1 & S2 & S3 & S4).
    destruct (IH _ S2 S3 Hrest) as (R1 & R2 & R3 & R4).
    rewrite performAll_cons. cbn [fst snd]. rewrite S1, R1.
    repeat split; try assumption. congruence.
Qed.

(** X27: turning sound off stops the stored background music and from
    then on nothing sounds: until setSoundEnabled(true) is called, no run of
    calls (tones, clicks, background music, volume changes) starts an
    oscillator or even creates one; the only call made is the stop of the
    music that was stored.  Without an audio context (the browser has
    none) no run of calls has any effect at all. *)
Theorem sound_off_is_silent (this : AudioManager) (ops : list AudioOperation) :
  Forall (fun op => op <> CallSetSoundEnabled true) ops ->
  let run := performAll this (CallSetSoundEnabled false :: ops) in
  snd run = match backgroundMusic this with
            | Some oscillator => [OscillatorStopped oscillator]
            | None => []
            end
  /\ soundEnabled (fst run) = false
  /\ backgroundMusic (fst run) = None
  /\ audioContext (fst run) = audioContext this
  /\ (forall anyOps, snd (performAll (newAudioManager false) anyOps) = []).
Proof.
  intros Hall. cbn zeta. rewrite performAll_cons.
  assert (Hoff : soundEnabled (fst (perform this (CallSetSoundEnabled false)))
                 = false
                 /\ backgroundMusic (fst (perform this (CallSetSoundEnabled false)))
                    = None
                 /\ audioContext (fst (perform this (CallSetSoundEnabled false)))
                    = audioContext this
                 /\ snd (perform this (CallSetSoundEnabled false))
                    = match backgroundMusic this with
                      | Some oscillator => [OscillatorStopped oscillator]
                      | None => []
                      end).
  { cbn [perform]. unfold setSoundEnabled, stopBackgroundMusic.
    cbn [negb backgroundMusic]. destruct (backgroundMusic this) eqn:E; cbn;
      repeat split; try assumption. }
  destruct Hoff as (S1 & S2 & S3 & S4).
  destruct (performAll_silent ops _ S1 S2 Hall) as (R1 & R2 & R3 & R4).
  cbn [fst snd]. rewrite R1, S4, app_nil_r.
  split; [reflexivity|]. split; [exact R2|]. split; [exact R3|].
  split; [congruence|].
  intros anyOps.
  assert (Hno : forall (ops0 : list AudioOperation) (m : AudioManager),
             audioContext m = None -> backgroundMusic m = None ->
             snd (performAll m ops0) = []).
  { induction ops0 as [|op rest IH]; intros m Hc Hb; [reflexivity|].
    rewrite performAll_cons. cbn [snd].
    assert (Hstep : snd (perform m op) = []
                    /\ audioContext (fst (perform m op)) = None
                    /\ backgroundMusic (fst (perform m op)) = None).
    { destruct op as [frequency duration type| | | |volume0|[|]]; cbn [perform];
        unfold playClickSound, generateTone, playBackgroundMusic,
          stopBackgroundMusic, setSoundEnabled, stopBackgroundMusic;
        cbn [negb backgroundMusic]; rewrite ?Hc, ?Hb; cbn;
        repeat split; assumption. }
    destruct Hstep as (E1 & E2 & E3). rewrite E1, (IH _ E2 E3). reflexivity. }
  apply Hno; reflexivity.
Qed.

Lemma sounding_keeps (calls : list AudioCall) (oscillator : nat) :
  forall playing,
    In oscillator playing ->
    ~ In (OscillatorStopped oscillator) calls ->
    In oscillator (sounding calls playing).
Proof.
  induction calls as [|call rest IH]; intros playing Hin Hnot; [exact Hin|].
  assert (Hrest : ~ In (OscillatorStopped oscillator) rest).
  { intros H. apply Hnot. right. exact H. }
  destruct call as [o f d t p|o g|o]; cbn [sounding].
  - apply IH; assumption.
  - apply IH; [apply in_or_app; left; exact Hin|exact Hrest].
  - apply IH; [|exact Hrest]. apply filter_In. split; [exact Hin|].
    apply negb_true_iff, Nat.eqb_neq. intros ->. apply Hnot. left. reflexivity.
Qed.

Lemma perform_never_stops (this : AudioManager) (op : AudioOperation)
    (lost created : nat) :
  audioContext this = Some created ->
  (lost < created)%nat ->
  backgroundMusic this <> Some lost ->
  ~ In (OscillatorStopped lost) (snd (perform this op))
  /\ exists created',
       audioContext (fst (perform this op)) = Some created'
       /\ (lost < created')%nat
       /\ backgroundMusic (fst (perform this op)) <> Some lost.
Proof.
  intros Hc Hlt Hb.
  assert (Hsame : ~ In (OscillatorStopped lost) []
                  /\ exists created',
                       audioContext this = Some created'
                       /\ (lost < created')%nat
                       /\ backgroundMusic this <> Some lost).
  { split; [intros []|]. exists created. repeat split; assumption. }
  assert (Hstop : ~ In (OscillatorStopped lost) (snd (stopBackgroundMusic this))
                  /\ exists created',
                       audioContext (fst (stopBackgroundMusic this)) = Some created'
                       /\ (lost < created')%nat
                       /\ backgroundMusic (fst (stopBackgroundMusic this))
                          <> Some lost).
  { unfold stopBackgroundMusic.
    destruct (backgroundMusic this) as [stored|] eqn:E.
    - cbn [fst snd audioContext backgroundMusic]. split.
      + intros [H|[]]. injection H as ->. congruence.
      + exists created. repeat split; [exact Hc|exact Hlt|discriminate].
    - cbn [fst snd]. split; [intros []|]. exists created.
      repeat split; [exact Hc|exact Hlt|rewrite E; discriminate]. }
  destruct op as [frequency duration type| | | |volume|enabled]; cbn [perform].
  - unfold generateTone. rewrite Hc.
    destruct (soundEnabled this); cbn; [|exact Hsame]. split.
    + intros [H|[]]. discriminate.
    + exists (S created). repeat split; [lia|exact Hb].
  - unfold playClickSound, generateTone. rewrite Hc.
    destruct (soundEnabled this); cbn; [|exact Hsame]. split.
    + intros [H|[]]. discriminate.
    + exists (S created). repeat split; [lia|exact Hb].
  - unfold playBackgroundMusic. rewrite Hc.
    destruct (soundEnabled this); cbn; [|exact Hsame]. split.
    + intros [H|[]]. discriminate.
    + exists (S created). repeat split; [lia|]. intros [= ->]. lia.
  - exact Hstop.
  - cbn [fst snd setVolume audioContext backgroundMusic]. exact Hsame.
  - unfold setSoundEnabled. destruct enabled; cbn [negb].
    + cbn [fst snd audioContext backgroundMusic]. exact Hsame.
    + unfold stopBackgroundMusic in *.
      cbn [backgroundMusic audioContext masterVolume soundEnabled].
      destruct (backgroundMusic this) as [stored|] eqn:E.
      * cbn [fst snd audioContext backgroundMusic] in *. exact Hstop.
      * cbn [fst snd audioContext backgroundMusic] in *.
        split; [intros []|]. exists created.
        repeat split; [exact Hc|exact Hlt|discriminate].
Qed.

(** X28: playBackgroundMusic does not stop the music already stored before
    it stores the new oscillator.  Called twice in a row it leaves the
    first oscillator sounding with no reference to it: no later call on
    the manager, stopBackgroundMusic and setSoundEnabled(false) included,
    ever stops it. *)
Theorem background_music_started_twice_leaks
    (this : AudioManager) (created : nat) (ops : list AudioOperation) :
  audioContext this = Some created ->
  soundEnabled this = true ->
  let calls :=
    snd (performAll this
           (CallPlayBackgroundMusic :: CallPlayBackgroundMusic :: ops)) in
  In (BackgroundStarted created (masterVolume this * 0.2)) calls
  /\ ~ In (OscillatorStopped created) calls
  /\ In created (sounding calls []).
Proof.
  intros Hc Hon. cbn zeta.
  set (m1 := {| audioContext := Some (S created);
                masterVolume := masterVolume this;
                soundEnabled := true;
                backgroundMusic := Some created |}).
  set (m := {| audioContext := Some (S (S created));
               masterVolume := masterVolume this;
               soundEnabled := true;
               backgroundMusic := Some (S created) |}).
  assert (E1 : perform this CallPlayBackgroundMusic
               = (m1, [BackgroundStarted created (masterVolume this * 0.2)])).
  { cbn [perform]. unfold playBackgroundMusic. rewrite Hc, Hon. reflexivity. }
  assert (E2 : perform m1 CallPlayBackgroundMusic
               = (m, [BackgroundStarted (S created) (masterVolume this * 0.2)])).
  { cbn [perform]. unfold playBackgroundMusic.
    reflexivity. }
  rewrite performAll_cons, E1. cbn [fst snd].
  rewrite performAll_cons, E2. cbn [fst snd].
  assert (Hlater : forall (ops0 : list AudioOperation) (m0 : AudioManager) c,
             audioContext m0 = Some c -> (created < c)%nat ->
             backgroundMusic m0 <> Some created ->
             ~ In (OscillatorStopped created) (snd (performAll m0 ops0))).
  { induction ops0 as [|op rest IH]; intros m0 c H1 H2 H3; [intros []|].
    rewrite performAll_cons. cbn [snd].
    destruct (perform_never_stops m0 op created c H1 H2 H3)
      as (Hnow & c' & G1 & G2 & G3).
    intros Hin. apply in_app_or in Hin. destruct Hin as [Hin|Hin];
      [exact (Hnow Hin)|exact (IH _ _ G1 G2 G3 Hin)]. }
  assert (Hm : ~ In (OscillatorStopped created) (snd (performAll m ops))).
  { apply (Hlater ops m (S (S created))); [reflexivity|lia|].
    subst m. cbn. intros [= H]. lia. }
  assert (Hnot : ~ In (OscillatorStopped created)
                   ([BackgroundStarted created (masterVolume this * 0.2)]
                    ++ [BackgroundStarted (S created) (masterVolume this * 0.2)]
                    ++ snd (performAll m ops))).
  { cbn [app]. intros [H|[H|H]]; [discriminate|discriminate|exact (Hm H)]. }
  split; [left; reflexivity|]. split; [exact Hnot|].
  cbn [app sounding].
  apply sounding_keeps; [left; reflexivity|exact Hm].
Qed.

End AudioFacts.

Lemma volume_stays_in_range_witness :
  (0 <= AudioManager.masterVolume
          (fst (AudioManager.performAll (AudioManager.newAudioManager true)
                  [AudioManager.CallSetVolume 3;
                   AudioManager.CallPlayClickSound])))%Q
  /\ (AudioManager.masterVolume
        (fst (AudioManager.performAll (AudioManager.newAudioManager true)
                [AudioManager.CallSetVolume 3;
                 AudioManager.CallPlayClickSound])) <= 1)%Q.
Proof.
  apply (proj1 (volume_stays_in_range (AudioManager.newAudioManager true)
                  [AudioManager.CallSetVolume 3; AudioManager.CallPlayClickSound]
                  3 ltac:(discriminate) ltac:(discriminate))).
Defined.

Lemma sound_off_is_silent_witness :
  snd (AudioManager.performAll
         (fst (AudioManager.playBackgroundMusic (AudioManager.newAudioManager true)))
         [AudioManager.CallSetSoundEnabled false;
          AudioManager.CallPlayClickSound;
          AudioManager.CallPlayBackgroundMusic])
  = [AudioManager.OscillatorStopped 0].
Proof.
  apply (proj1 (sound_off_is_silent
                  (fst (AudioManager.playBackgroundMusic
                          (AudioManager.newAudioManager true)))
                  [AudioManager.CallPlayClickSound;
                   AudioManager.CallPlayBackgroundMusic]
                  ltac:(repeat constructor; discriminate))).
Defined.

Lemma background_music_started_twice_leaks_witness :
  In 0%nat
     (AudioManager.sounding
        (snd (AudioManager.performAll (AudioManager.newAudioManager true)
                [AudioManager.CallPlayBackgroundMusic;
                 AudioManager.CallPlayBackgroundMusic;
                 AudioManager.CallStopBackgroundMusic;
                 AudioManager.CallSetSoundEnabled false]))
        []).
Proof.
  apply (proj2 (proj2 (background_music_started_twice_leaks
                         (AudioManager.newAudioManager true) 0
                         [AudioManager.CallStopBackgroundMusic;
                          AudioManager.CallSetSoundEnabled false]
                         ltac:(reflexivity) ltac:(reflexivity)))).
Defined.

(** ** The sorts of the leaderboard *)

Section ArrayFacts.
Import DungeonSearcher LeaderboardSorter.
Context {A : Type}.

Lemma array_set_length (arr : list A) (i : nat) (x : A) :
  List.length (array_set arr i x) = List.length arr.
Proof.
  revert i. induction arr as [|h t IH]; intros [|i]; cbn; congruence.
Qed.

Lemma array_set_nth (arr : list A) (i k : nat) (x : A) :
  (i < List.length arr)%nat ->
  nth_error (array_set arr i x) k
  = if Nat.eqb k i then Some x else nth_error arr k.
Proof.
  revert i k. induction arr as [|h t IH]; intros i k Hi; cbn in Hi; [lia|].
  destruct i as [|i], k as [|k]; cbn; try reflexivity.
  apply IH. lia.
Qed.

Lemma array_set_perm (t : list A) (j : nat) (h y : A) :
  nth_error t j = Some y ->
  Permutation (h :: t) (y :: array_set t j h).
Proof.
  revert j. induction t as [|a t IH]; intros [|j] Hj; cbn in Hj; try discriminate.
  - injection Hj as ->. cbn. apply perm_swap.
  - cbn. specialize (IH j Hj).
    eapply perm_trans; [apply perm_swap|].
    eapply perm_trans; [apply perm_skip, IH|]. apply perm_swap.
Qed.

Lemma array_set_swap_perm (arr : list A) (i j : nat) (x y : A) :
  nth_error arr i = Some x ->
  nth_error arr j = Some y ->
  Permutation arr (array_set (array_set arr i y) j x).
Proof.
  revert i j. induction arr as [|h t IH]; intros i j Hi Hj.
  - destruct i; discriminate.
  - destruct i as [|i], j as [|j]; cbn in Hi, Hj |- *.
    + injection Hi as ->. injection Hj as ->. apply Permutation_refl.
    + injection Hi as ->. apply array_set_perm. exact Hj.
    + injection Hj as ->. apply array_set_perm. exact Hi.
    + apply perm_skip. apply IH; assumption.
Qed.

Lemma array_get_nth (arr : list A) (i : Z) :
  0 <= i -> array_get arr i = nth_error arr (Z.to_nat i).
Proof.
  intros H. unfold array_get. destruct (Z.ltb_spec i 0); [lia|reflexivity].
Qed.

Lemma array_get_inside (arr : list A) (i : Z) :
  0 <= i < Z.of_nat (List.length arr) -> exists v, array_get arr i = Some v.
Proof.
  intros H. rewrite array_get_nth by lia.
  destruct (nth_error arr (Z.to_nat i)) as [v|] eqn:E; [exists v; reflexivity|].
  apply nth_error_None in E. lia.
Qed.

Lemma array_get_bounds (arr : list A) (i : Z) (v : A) :
  array_get arr i = Some v -> 0 <= i < Z.of_nat (List.length arr).
Proof.
  unfold array_get. destruct (Z.ltb_spec i 0) as [Hneg|Hpos]; [discriminate|].
  intros Hget. assert (Hn : nth_error arr (Z.to_nat i) <> None) by congruence.
  apply nth_error_Some in Hn. lia.
Qed.

End ArrayFacts.

Section WriteFacts.
Import DungeonSearcher LeaderboardSorter.
Context {A : Type}.
Implicit Types arr : list (option A).

Lemma read_Some arr (i : Z) (e : A) :
  read arr i = Some e <-> array_get arr i = Some (Some e).
Proof.
  unfold read. destruct (array_get arr i) as [[x|]|]; split; congruence.
Qed.

Lemma write_length arr (i : Z) v :
  0 <= i < Z.of_nat (List.length arr) ->
  List.length (write arr i v) = List.length arr.
Proof.
  intros H. unfold write.
  destruct (Z.ltb_spec i 0); [lia|].
  destruct (Z.ltb_spec i (Z.of_nat (List.length arr))); [|lia].
  apply array_set_length.
Qed.

Lemma write_get arr (i k : Z) v :
  0 <= i < Z.of_nat (List.length arr) ->
  array_get (write arr i v) k = if k =? i then Some v else array_get arr k.
Proof.
  intros H. unfold write.
  destruct (Z.ltb_spec i 0); [lia|].
  destruct (Z.ltb_spec i (Z.of_nat (List.length arr))); [|lia].
  unfold array_get. destruct (Z.ltb_spec k 0).
  - destruct (Z.eqb_spec k i); [lia|reflexivity].
  - rewrite array_set_nth by lia.
    destruct (Z.eqb_spec k i) as [->|Hne].
    + rewrite Nat.eqb_refl. reflexivity.
    + destruct (Nat.eqb_spec (Z.to_nat k) (Z.to_nat i)); [lia|reflexivity].
Qed.

Lemma swap_length arr (i j : Z) :
  0 <= i < Z.of_nat (List.length arr) ->
  0 <= j < Z.of_nat (List.length arr) ->
  List.length (swap arr i j) = List.length arr.
Proof.
  intros Hi Hj. unfold swap.
  rewrite write_length; rewrite write_length; lia.
Qed.

Lemma read_get arr (i : Z) :
  0 <= i < Z.of_nat (List.length arr) -> array_get arr i = Some (read arr i).
Proof.
  intros H. unfold read. destruct (array_get_inside arr i H) as [v ->].
  reflexivity.
Qed.

Lemma swap_get arr (i j k : Z) :
  0 <= i < Z.of_nat (List.length arr) ->
  0 <= j < Z.of_nat (List.length arr) ->
  array_get (swap arr i j) k
  = if k =? j then array_get arr i
    else if k =? i then array_get arr j
    else array_get arr k.
Proof.
  intros Hi Hj. unfold swap.
  rewrite write_get by (rewrite write_length; lia).
  rewrite write_get by lia.
  rewrite <- (read_get arr i Hi), <- (read_get arr j Hj). reflexivity.
Qed.

Lemma swap_perm arr (i j : Z) :
  0 <= i < Z.of_nat (List.length arr) ->
  0 <= j < Z.of_nat (List.length arr) ->
  Permutation arr (swap arr i j).
Proof.
  intros Hi Hj. unfold swap, write.
  destruct (Z.ltb_spec i 0); [lia|].
  destruct (Z.ltb_spec i (Z.of_nat (List.length arr))); [|lia].
  destruct (Z.ltb_spec j 0); [lia|].
  rewrite array_set_length.
  destruct (Z.ltb_spec j (Z.of_nat (List.length arr))); [|lia].
  apply array_set_swap_perm.
  - rewrite <- array_get_nth by lia. apply read_get. exact Hi.
  - rewrite <- array_get_nth by lia. apply read_get. exact Hj.
Qed.

Lemma rearranged_refl (lo hi : Z) arr : rearranged lo hi arr arr.
Proof.
  split; [reflexivity|]. split; [apply Permutation_refl|].
  split; [reflexivity|]. intros P HP. exact HP.
Qed.

Lemma rearranged_trans (lo hi : Z) arr1 arr2 arr3 :
  rearranged lo hi arr1 arr2 -> rearranged lo hi arr2 arr3 ->
  rearranged lo hi arr1 arr3.
Proof.
  intros (L1 & P1 & O1 & K1) (L2 & P2 & O2 & K2).
  split; [congruence|]. split; [eapply perm_trans; eassumption|]. split.
  - intros k Hk. rewrite O2, O1 by exact Hk. reflexivity.
  - intros P HP. apply K2, K1, HP.
Qed.

Lemma rearranged_widen (lo hi lo' hi' : Z) arr1 arr2 :
  lo <= lo' -> hi' <= hi ->
  rearranged lo' hi' arr1 arr2 -> rearranged lo hi arr1 arr2.
Proof.
  intros Hlo Hhi (L & P & O & K).
  split; [exact L|]. split; [exact P|]. split.
  - intros k Hk. apply O. lia.
  - intros Q HQ k v Hk Hget.
    destruct (Z_le_dec lo' k) as [H1|H1]; [destruct (Z_le_dec k hi') as [H2|H2]|].
    + apply (K Q) with k; [|lia|exact Hget].
      intros k' v' Hk' Hget'. apply (HQ k' v'); [lia|exact Hget'].
    + apply (HQ k v Hk). rewrite <- O by lia. exact Hget.
    + apply (HQ k v Hk). rewrite <- O by lia. exact Hget.
Qed.

Lemma rearranged_swap (lo hi i j : Z) arr :
  0 <= i < Z.of_nat (List.length arr) ->
  0 <= j < Z.of_nat (List.length arr) ->
  lo <= i <= hi -> lo <= j <= hi ->
  rearranged lo hi arr (swap arr i j).
Proof.
  intros Hi Hj Hil Hjl.
  split; [apply swap_length; assumption|].
  split; [apply swap_perm; assumption|]. split.
  - intros k Hk. rewrite swap_get by assumption.
    destruct (Z.eqb_spec k j); [lia|]. destruct (Z.eqb_spec k i); [lia|].
    reflexivity.
  - intros P HP k v Hk. rewrite swap_get by assumption.
    destruct (Z.eqb_spec k j); [apply HP; lia|].
    destruct (Z.eqb_spec k i); [apply HP; lia|]. apply HP. exact Hk.
Qed.

Lemma read_map_Some (l : list A) (i : Z) :
  read (map Some l) i = array_get l i.
Proof.
  unfold read, array_get. destruct (Z.ltb_spec i 0); [reflexivity|].
  rewrite nth_error_map. destruct (nth_error l (Z.to_nat i)); reflexivity.
Qed.

Lemma array_get_cons (h : A) (t : list A) (k : Z) :
  0 <= k -> array_get (h :: t) (k + 1) = array_get t k.
Proof.
  intros Hk. rewrite !array_get_nth by lia.
  replace (Z.to_nat (k + 1)) with (S (Z.to_nat k)) by lia. reflexivity.
Qed.

(** A list whose entries are in relation by index is sorted. *)
Lemma sortedBetween_sorted (R : A -> A -> Prop) (l : list A) :
  sortedBetween R 0 (Z.of_nat (List.length l) - 1) (map Some l) ->
  StronglySorted R l.
Proof.
  unfold sortedBetween. induction l as [|h t IH]; intros H; [constructor|].
  constructor.
  - apply IH. intros i j a b Hi Hij Hj Ha Hb.
    rewrite read_map_Some in Ha, Hb.
    apply (H (i + 1) (j + 1) a b); try lia.
    + cbn [List.length] in *. lia.
    + rewrite read_map_Some, array_get_cons by lia. exact Ha.
    + rewrite read_map_Some, array_get_cons by lia. exact Hb.
  - apply Forall_forall. intros b Hb.
    apply In_nth_error in Hb. destruct Hb as [n Hn].
    assert (Hlen : (n < List.length t)%nat).
    { apply nth_error_Some. congruence. }
    apply (H 0 (Z.of_nat n + 1) h b); try lia.
    + cbn [List.length]. lia.
    + reflexivity.
    + rewrite read_map_Some, array_get_cons by lia.
      rewrite array_get_nth by lia. rewrite Nat2Z.id. exact Hn.
Qed.

End WriteFacts.

Section QuicksortFacts.
Import DungeonSearcher LeaderboardSorter.
Variable Entry : Type.
Variable score : Entry -> option Q.
Variable completionPercentage : Entry -> option Q.

Local Abbreviation key := (rankingKey Entry score completionPercentage).
Local Abbreviation entriesBetween lo hi arr :=
  (forall k (v : option Entry),
      lo <= k <= hi -> array_get arr k = Some v -> v <> None).

Lemma swap_read (arr : list (option Entry)) (i j k : Z) :
  0 <= i < Z.of_nat (List.length arr) ->
  0 <= j < Z.of_nat (List.length arr) ->
  read (swap arr i j) k
  = if k =? j then read arr i else if k =? i then read arr j else read arr k.
Proof.
  intros Hi Hj. unfold read at 1. rewrite swap_get by assumption.
  destruct (k =? j); [reflexivity|]. destruct (k =? i); reflexivity.
Qed.

Lemma read_entry (arr : list (option Entry)) (lo hi k : Z) :
  entriesBetween lo hi arr ->
  0 <= k < Z.of_nat (List.length arr) -> lo <= k <= hi ->
  exists e, read arr k = Some e.
Proof.
  intros Hno Hk Hin. destruct (array_get_inside arr k Hk) as [v Hv].
  pose proof (Hno k v Hin Hv) as Hne. unfold read. rewrite Hv.
  destruct v as [e|]; [exists e; reflexivity|congruence].
Qed.

Lemma rearranged_entries (lo hi : Z) (arr arr' : list (option Entry)) :
  rearranged lo hi arr arr' ->
  entriesBetween lo hi arr -> entriesBetween lo hi arr'.
Proof.
  intros (_ & _ & _ & K) Hno k v Hk Hget.
  exact (K (fun v => v <> None) Hno k v Hk Hget).
Qed.

Lemma rearranged_read_outside (lo hi k : Z) (arr arr' : list (option Entry)) :
  rearranged lo hi arr arr' -> ~ (lo <= k <= hi) -> read arr' k = read arr k.
Proof. intros (_ & _ & O & _) Hk. unfold read. rewrite (O k Hk). reflexivity. Qed.

Lemma rearranged_read_all (lo hi : Z) (arr arr' : list (option Entry))
    (P : Entry -> Prop) :
  rearranged lo hi arr arr' ->
  (forall k e, lo <= k <= hi -> read arr k = Some e -> P e) ->
  forall k e, lo <= k <= hi -> read arr' k = Some e -> P e.
Proof.
  intros (_ & _ & _ & K) HP k e Hk Hread.
  apply read_Some in Hread.
  apply (K (fun v => forall e, v = Some e -> P e)) with k (Some e);
    [|exact Hk|exact Hread|reflexivity].
  intros k' v' Hk' Hget e' ->. apply (HP k' e' Hk'). apply read_Some. exact Hget.
Qed.

Lemma partition_loop_spec (lo hi : Z) (arr0 : list (option Entry)) (pivot : Q) :
  0 <= lo -> hi < Z.of_nat (List.length arr0) ->
  forall (steps : nat) (arr : list (option Entry)) (i j : Z),
    steps = Z.to_nat (hi - j) ->
    lo - 1 <= i -> i < j -> j <= hi ->
    rearranged lo (hi - 1) arr0 arr ->
    entriesBetween lo hi arr ->
    (forall k e, lo <= k <= i -> read arr k = Some e -> (pivot <= key e)%Q) ->
    (forall k e, i < k < j -> read arr k = Some e -> (key e < pivot)%Q) ->
    exists arr' i',
      partition_loop Entry score completionPercentage steps arr pivot i j
      = Returns (arr', i')
      /\ lo - 1 <= i' < hi
      /\ rearranged lo (hi - 1) arr0 arr'
      /\ entriesBetween lo hi arr'
      /\ (forall k e, lo <= k <= i' -> read arr' k = Some e -> (pivot <= key e)%Q)
      /\ (forall k e, i' < k < hi -> read arr' k = Some e -> (key e < pivot)%Q).
Proof.
  intros Hlo Hhi steps.
  induction steps as [|steps IH]; intros arr i j Hsteps Hi Hij Hj Hre Hno Hbig Hsmall.
  - assert (j = hi) by lia. subst j.
    exists arr, i. cbn [partition_loop].
    split; [reflexivity|]. split; [lia|]. split; [exact Hre|].
    split; [exact Hno|]. split; [exact Hbig|exact Hsmall].
  - assert (Hjlt : j < hi) by lia.
    pose proof Hre as (Hlen & _).
    destruct (read_entry arr lo hi j Hno ltac:(lia) ltac:(lia)) as [current Hcur].
    cbn [partition_loop]. rewrite Hcur.
    destruct (Qle_bool pivot (key current)) eqn:Hcmp.
    + apply Qle_bool_iff in Hcmp.
      assert (Hin1 : 0 <= i + 1 < Z.of_nat (List.length arr)) by lia.
      assert (Hinj : 0 <= j < Z.of_nat (List.length arr)) by lia.
      apply IH; try lia.
      * eapply rearranged_trans; [exact Hre|].
        apply rearranged_swap; lia.
      * apply rearranged_entries with arr; [|exact Hno].
        apply rearranged_swap; lia.
      * intros k e Hk. rewrite swap_read by assumption.
        destruct (Z.eqb_spec k j) as [->|Hkj].
        { assert (i + 1 = j) by lia. intros Hr.
          replace (i + 1) with j in Hr by lia. congruence. }
        destruct (Z.eqb_spec k (i + 1)) as [->|Hki].
        { intros Hr. congruence. }
        apply Hbig. lia.
      * intros k e Hk. rewrite swap_read by assumption.
        destruct (Z.eqb_spec k j) as [->|Hkj].
        { apply Hsmall. lia. }
        destruct (Z.eqb_spec k (i + 1)) as [->|Hki]; [lia|].
        apply Hsmall. lia.
    + assert (Hlt : (key current < pivot)%Q).
      { apply Qnot_le_lt. intros Hle. apply Qle_bool_iff in Hle. congruence. }
      apply IH; try lia; try assumption.
      intros k e Hk Hr. destruct (Z.eq_dec k j) as [->|Hkj].
      * congruence.
      * apply (Hsmall k e); [lia|exact Hr].
Qed.

Lemma partitionLeaderboard_spec (arr : list (option Entry)) (lo hi : Z) :
  0 <= lo -> lo < hi -> hi < Z.of_nat (List.length arr) ->
  entriesBetween lo hi arr ->
  exists arr' p pivotEntry,
    partitionLeaderboard Entry score completionPercentage arr lo hi
    = Returns (arr', p)
    /\ lo <= p <= hi
    /\ rearranged lo hi arr arr'
    /\ read arr' p = Some pivotEntry
    /\ (forall k e, lo <= k < p -> read arr' k = Some e ->
                    (key pivotEntry <= key e)%Q)
    /\ (forall k e, p < k <= hi -> read arr' k = Some e ->
                    (key e < key pivotEntry)%Q).
Proof.
  intros Hlo Hlt Hhi Hno.
  destruct (read_entry arr lo hi hi Hno ltac:(lia) ltac:(lia)) as [last Hlast].
  unfold partitionLeaderboard. rewrite Hlast.
  destruct (partition_loop_spec lo hi arr (key last) Hlo Hhi
              (Z.to_nat (hi - lo)) arr (lo - 1) lo eq_refl
              ltac:(lia) ltac:(lia) ltac:(lia)
              (rearranged_refl lo (hi - 1) arr) Hno
              ltac:(intros; lia) ltac:(intros; lia))
    as (arr1 & i' & Hrun & Hi' & Hre & Hno1 & Hbig & Hsmall).
  rewrite Hrun.
  pose proof Hre as (Hlen & _).
  assert (Hlast1 : read arr1 hi = Some last).
  { rewrite (rearranged_read_outside lo (hi - 1) hi arr arr1 Hre) by lia.
    exact Hlast. }
  assert (Hp : 0 <= i' + 1 < Z.of_nat (List.length arr1)) by lia.
  assert (Hh : 0 <= hi < Z.of_nat (List.length arr1)) by lia.
  exists (swap arr1 (i' + 1) hi), (i' + 1), last.
  split; [reflexivity|]. split; [lia|]. split; [|split; [|split]].
  - eapply rearranged_trans.
    + apply rearranged_widen with lo (hi - 1); [lia|lia|exact Hre].
    + apply rearranged_swap; lia.
  - rewrite swap_read by assumption.
    destruct (Z.eqb_spec (i' + 1) hi) as [->|_]; [exact Hlast1|].
    rewrite Z.eqb_refl. exact Hlast1.
  - intros k e Hk. rewrite swap_read by assumption.
    destruct (Z.eqb_spec k hi); [lia|]. destruct (Z.eqb_spec k (i' + 1)); [lia|].
    apply Hbig. lia.
  - intros k e Hk. rewrite swap_read by assumption.
    destruct (Z.eqb_spec k hi) as [->|Hkh].
    + apply Hsmall. lia.
    + destruct (Z.eqb_spec k (i' + 1)); [lia|]. apply Hsmall. lia.
Qed.

Lemma quicksort_nested_spec (depth : nat) :
  forall (arr : list (option Entry)) (lo hi : Z),
    0 <= lo -> hi < Z.of_nat (List.length arr) ->
    hi - lo + 1 <= Z.of_nat depth ->
    entriesBetween lo hi arr ->
    exists arr',
      quicksort_nested Entry score completionPercentage depth arr lo hi
      = Returns arr'
      /\ rearranged lo hi arr arr'
      /\ sortedBetween (fun a b => (key b <= key a)%Q) lo hi arr'.
Proof.
  induction depth as [|depth IH]; intros arr lo hi Hlo Hhi Hdepth Hno.
  - exists arr. cbn [quicksort_nested].
    destruct (Z.ltb_spec lo hi); [lia|].
    split; [reflexivity|]. split; [apply rearranged_refl|].
    intros i j a b Hi Hij Hj Ha Hb. lia.
  - cbn [quicksort_nested]. destruct (Z.ltb_spec lo hi) as [Hlt|Hge].
    2:{ exists arr. split; [reflexivity|]. split; [apply rearranged_refl|].
        intros i j a b Hi Hij Hj Ha Hb.
        assert (i = j) by lia. subst j.
        assert (a = b) by congruence. subst b. apply Qle_refl. }
    destruct (partitionLeaderboard_spec arr lo hi Hlo Hlt Hhi Hno)
      as (arr1 & p & pe & Hpart & Hp & Hre1 & Hpiv & Hbig & Hsmall).
    rewrite Hpart.
    pose proof Hre1 as (Hlen1 & _).
    pose proof (rearranged_entries lo hi arr arr1 Hre1 Hno) as Hno1.
    destruct (IH arr1 lo (p - 1) Hlo ltac:(lia) ltac:(lia)) as (arr2 & Hrun2 & Hre2 & Hs2).
    { intros k v Hk. apply Hno1. lia. }
    rewrite Hrun2.
    pose proof Hre2 as (Hlen2 & _).
    assert (Hno2 : entriesBetween lo hi arr2).
    { apply rearranged_entries with arr1; [|exact Hno1].
      apply rearranged_widen with lo (p - 1); [lia|lia|exact Hre2]. }
    destruct (IH arr2 (p + 1) hi ltac:(lia) ltac:(lia) ltac:(lia)) as (arr3 & Hrun3 & Hre3 & Hs3).
    { intros k v Hk. apply Hno2. lia. }
    rewrite Hrun3. exists arr3. split; [reflexivity|]. split.
    { eapply rearranged_trans; [exact Hre1|].
      eapply rearranged_trans.
      - apply rearranged_widen with lo (p - 1); [lia|lia|exact Hre2].
      - apply rearranged_widen with (p + 1) hi; [lia|lia|exact Hre3]. }
    assert (F1 : forall k e, lo <= k < p -> read arr3 k = Some e ->
                   (key pe <= key e)%Q).
    { intros k e Hk.
      rewrite (rearranged_read_outside (p + 1) hi k arr2 arr3 Hre3) by lia.
      apply (rearranged_read_all lo (p - 1) arr1 arr2
               (fun e => (key pe <= key e)%Q) Hre2); [|lia].
      intros k' e' Hk'. apply Hbig. lia. }
    assert (F2 : read arr3 p = Some pe).
    { rewrite (rearranged_read_outside (p + 1) hi p arr2 arr3 Hre3) by lia.
      rewrite (rearranged_read_outside lo (p - 1) p arr1 arr2 Hre2) by lia.
      exact Hpiv. }
    assert (F3 : forall k e, p < k <= hi -> read arr3 k = Some e ->
                   (key e < key pe)%Q).
    { intros k e Hk.
      apply (rearranged_read_all (p + 1) hi arr2 arr3
               (fun e => (key e < key pe)%Q) Hre3); [|lia].
      intros k' e' Hk'.
      rewrite (rearranged_read_outside lo (p - 1) k' arr1 arr2 Hre2) by lia.
      apply Hsmall. lia. }
    intros i j a b Hi Hij Hj Ha Hb.
    destruct (Z_lt_le_dec i p) as [Hip|Hip].
    + destruct (Z_lt_le_dec j p) as [Hjp|Hjp].
      * rewrite (rearranged_read_outside (p + 1) hi i arr2 arr3 Hre3) in Ha by lia.
        rewrite (rearranged_read_outside (p + 1) hi j arr2 arr3 Hre3) in Hb by lia.
        apply (Hs2 i j a b); try lia; assumption.
      * pose proof (F1 i a ltac:(lia) Ha) as G1.
        destruct (Z.eq_dec j p) as [->|Hne].
        { assert (b = pe) by congruence. subst b. exact G1. }
        pose proof (F3 j b ltac:(lia) Hb) as G3. lra.
    + destruct (Z.eq_dec i p) as [->|Hne].
      * assert (a = pe) by congruence. subst a.
        destruct (Z.eq_dec j p) as [->|Hne'].
        { assert (b = pe) by congruence. subst b. apply Qle_refl. }
        pose proof (F3 j b ltac:(lia) Hb) as G3. lra.
      * apply (Hs3 i j a b); try lia; assumption.
Qed.

Lemma array_get_map_Some (l : list Entry) (k : Z) (v : option Entry) :
  array_get (map Some l) k = Some v -> v <> None.
Proof.
  unfold array_get. destruct (k <? 0); [discriminate|].
  rewrite nth_error_map. destruct (nth_error l (Z.to_nat k)); cbn; congruence.
Qed.

(** X29: quicksortLeaderboard with its default bounds returns, for every
    array of entries, the same entries ranked from the highest key to the
    lowest, where the key of an entry is its score, or its
    completionPercentage when the score is absent or 0, or 0 when that is
    absent too; it never reads outside the array and the nesting of its
    calls never exceeds the length of the array.  Because 0 counts as
    absent, an entry with score 0 is ranked by its completion
    percentage. *)
Theorem quicksortLeaderboard_sorts (entries : list Entry) :
  (exists sorted,
     quicksortLeaderboard_default Entry score completionPercentage
       (map Some entries)
     = Returns (map Some sorted)
     /\ Permutation entries sorted
     /\ StronglySorted (fun a b => (key b <= key a)%Q) sorted)
  /\ (forall e s, score e = Some s -> ~ (s == 0)%Q -> key e = s)
  /\ (forall e, score e = None \/ score e = Some 0%Q ->
                key e = orZero (completionPercentage e)).
Proof.
  split; [|split].
  - unfold quicksortLeaderboard_default, quicksortLeaderboard.
    destruct (quicksort_nested_spec
                (Z.to_nat (Z.of_nat (List.length (map Some entries)) - 1 - 0 + 1))
                (map Some entries) 0
                (Z.of_nat (List.length (map Some entries)) - 1))
      as (arr' & Hrun & Hre & Hsorted); try lia.
    { intros k v _. apply array_get_map_Some. }
    destruct Hre as (Hlen & Hperm & _).
    destruct (Permutation_map_inv Some entries (Permutation_sym Hperm))
      as (sorted & -> & Hperm').
    exists sorted. split; [exact Hrun|]. split; [exact Hperm'|].
    apply sortedBetween_sorted.
    rewrite !length_map in Hlen. rewrite length_map in Hsorted.
    rewrite Hlen. exact Hsorted.
  - intros e s Hs Hne. unfold rankingKey. rewrite Hs.
    destruct (Qeq_bool s 0) eqn:E; [|reflexivity].
    apply Qeq_bool_iff in E. contradiction.
  - intros e [Hs|Hs]; unfold rankingKey; rewrite Hs; reflexivity.
Qed.

End QuicksortFacts.

Section BubbleSortFacts.
Import DungeonSearcher LeaderboardSorter.
Variable Entry : Type.
Variable sortBy : Entry -> option Q.
Variable ascending : bool.

Local Abbreviation ordered := (inOrder Entry sortBy ascending).
Local Abbreviation entriesUpTo lo hi arr :=
  (forall k (v : option Entry),
      lo <= k <= hi -> array_get arr k = Some v -> v <> None).

Lemma ordered_refl (a : Entry) : ordered a a.
Proof. unfold inOrder. destruct ascending; apply Qle_refl. Qed.

Lemma ordered_trans (a b c : Entry) : ordered a b -> ordered b c -> ordered a c.
Proof. unfold inOrder. destruct ascending; intros; lra. Qed.

Lemma shouldSwap_false (a b : Entry) :
  (if ascending then negb (Qle_bool (orZero (sortBy a)) (orZero (sortBy b)))
   else negb (Qle_bool (orZero (sortBy b)) (orZero (sortBy a)))) = false
  <-> ordered a b.
Proof.
  unfold inOrder. destruct ascending; rewrite negb_false_iff; apply Qle_bool_iff.
Qed.

Lemma shouldSwap_true (a b : Entry) :
  (if ascending then negb (Qle_bool (orZero (sortBy a)) (orZero (sortBy b)))
   else negb (Qle_bool (orZero (sortBy b)) (orZero (sortBy a)))) = true ->
  ordered b a.
Proof.
  unfold inOrder. destruct ascending; rewrite negb_true_iff; intros H;
    apply Qlt_le_weak, Qnot_le_lt; intros Hle; apply Qle_bool_iff in Hle;
    congruence.
Qed.

Lemma sorted_join (lo m hi : Z) (arr : list (option Entry)) :
  sortedBetween ordered lo m arr ->
  sortedBetween ordered (m + 1) hi arr ->
  (forall k k' a b, lo <= k <= m -> m < k' <= hi ->
     read arr k = Some a -> read arr k' = Some b -> ordered a b) ->
  sortedBetween ordered lo hi arr.
Proof.
  intros H1 H2 Hx i j a b Hi Hij Hj Ha Hb.
  destruct (Z_le_gt_dec i m); [destruct (Z_le_gt_dec j m)|].
  - apply (H1 i j a b); try lia; assumption.
  - apply (Hx i j a b); try lia; assumption.
  - apply (H2 i j a b); try lia; assumption.
Qed.

Lemma adjacent_sorted (lo hi : Z) (arr : list (option Entry)) :
  0 <= lo -> hi < Z.of_nat (List.length arr) ->
  entriesUpTo lo hi arr ->
  (forall k a b, lo <= k < hi ->
     read arr k = Some a -> read arr (k + 1) = Some b -> ordered a b) ->
  sortedBetween ordered lo hi arr.
Proof.
  intros Hlo Hhi Hno Hadj i j a b Hi Hij Hj Ha.
  remember (Z.to_nat (j - i)) as d eqn:Hd. revert j b Hij Hj Hd.
  induction d as [|d IH]; intros j b Hij Hj Hd Hb.
  - assert (i = j) by lia. subst j.
    assert (a = b) by congruence. subst b. apply ordered_refl.
  - destruct (read_entry Entry arr lo hi (j - 1) Hno ltac:(lia) ltac:(lia))
      as [c Hc].
    apply ordered_trans with c.
    + apply (IH (j - 1) c); try lia. exact Hc.
    + apply (Hadj (j - 1) c b); [lia|exact Hc|].
      replace (j - 1 + 1) with j by lia. exact Hb.
Qed.

Lemma bubble_pass_spec (m : Z) (arr0 : list (option Entry)) :
  0 <= m -> m < Z.of_nat (List.length arr0) ->
  entriesUpTo 0 m arr0 ->
  forall (steps : nat) (arr : list (option Entry)) (j : Z) (swapped : bool),
    steps = Z.to_nat (m - j) ->
    0 <= j <= m ->
    rearranged 0 m arr0 arr ->
    (forall k a b, 0 <= k <= j ->
       read arr k = Some a -> read arr j = Some b -> ordered a b) ->
    (swapped = false ->
     arr = arr0
     /\ forall k a b, 0 <= k < j ->
          read arr k = Some a -> read arr (k + 1) = Some b -> ordered a b) ->
    exists arr' swapped',
      bubble_pass Entry sortBy ascending steps arr j swapped
      = Returns (arr', swapped')
      /\ rearranged 0 m arr0 arr'
      /\ (forall k a b, 0 <= k <= m ->
            read arr' k = Some a -> read arr' m = Some b -> ordered a b)
      /\ (swapped' = false ->
          arr' = arr0
          /\ forall k a b, 0 <= k < m ->
               read arr' k = Some a -> read arr' (k + 1) = Some b -> ordered a b).
Proof.
  intros Hm Hlen0 Hno0 steps.
  induction steps as [|steps IH]; intros arr j swapped Hsteps Hj Hre Hlast Hquiet.
  - assert (j = m) by lia. subst j.
    exists arr, swapped. cbn [bubble_pass].
    split; [reflexivity|]. split; [exact Hre|]. split; [exact Hlast|exact Hquiet].
  - assert (Hjlt : j < m) by lia.
    pose proof Hre as (Hlen & _).
    pose proof (rearranged_entries Entry 0 m arr0 arr Hre Hno0) as Hno.
    destruct (read_entry Entry arr 0 m j Hno ltac:(lia) ltac:(lia))
      as [current Hcur].
    destruct (read_entry Entry arr 0 m (j + 1) Hno ltac:(lia) ltac:(lia))
      as [next Hnext].
    cbn [bubble_pass]. rewrite Hcur, Hnext.
    destruct (if ascending
              then negb (Qle_bool (orZero (sortBy current)) (orZero (sortBy next)))
              else negb (Qle_bool (orZero (sortBy next)) (orZero (sortBy current))))
      eqn:Hswap.
    + apply shouldSwap_true in Hswap.
      assert (Hin0 : 0 <= j < Z.of_nat (List.length arr)) by lia.
      assert (Hin1 : 0 <= j + 1 < Z.of_nat (List.length arr)) by lia.
      apply IH; try lia; try discriminate.
      * eapply rearranged_trans; [exact Hre|]. apply rearranged_swap; lia.
      * intros k a b Hk. rewrite !(swap_read Entry) by assumption.
        rewrite Z.eqb_refl.
        destruct (Z.eqb_spec k (j + 1)) as [->|Hk1].
        { intros Ha Hb. assert (a = b) by congruence. subst b.
          apply ordered_refl. }
        destruct (Z.eqb_spec k j) as [->|Hk0].
        { intros Ha Hb. assert (a = next) by congruence.
          assert (b = current) by congruence. subst a b. exact Hswap. }
        intros Ha Hb. apply (Hlast k a b); [lia|exact Ha|exact Hb].
    + apply shouldSwap_false in Hswap.
      apply IH; try lia; try assumption.
      * intros k a b Hk Ha Hb. assert (b = next) by congruence. subst b.
        destruct (Z.eq_dec k (j + 1)) as [->|Hk1].
        { assert (a = next) by congruence. subst a. apply ordered_refl. }
        apply ordered_trans with current; [|exact Hswap].
        apply (Hlast k a current); [lia|exact Ha|exact Hcur].
      * intros Hq. destruct (Hquiet Hq) as [Heq Hadj]. split; [exact Heq|].
        intros k a b Hk Ha Hb. destruct (Z.eq_dec k j) as [->|Hkj].
        { assert (a = current) by congruence.
          assert (b = next) by congruence. subst a b. exact Hswap. }
        apply (Hadj k a b); [lia|exact Ha|exact Hb].
Qed.

Lemma bubble_passes_spec (arr0 : list (option Entry)) (n : Z) :
  n = Z.of_nat (List.length arr0) -> 1 <= n ->
  entriesUpTo 0 (n - 1) arr0 ->
  forall (passes : nat) (arr : list (option Entry)) (i : Z),
    passes = Z.to_nat (n - 1 - i) ->
    0 <= i <= n - 1 ->
    rearranged 0 (n - 1) arr0 arr ->
    sortedBetween ordered (n - i) (n - 1) arr ->
    (forall k k' a b, 0 <= k < n - i -> n - i <= k' <= n - 1 ->
       read arr k = Some a -> read arr k' = Some b -> ordered a b) ->
    exists arr',
      bubble_passes Entry sortBy ascending passes arr n i = Returns arr'
      /\ rearranged 0 (n - 1) arr0 arr'
      /\ sortedBetween ordered 0 (n - 1) arr'.
Proof.
  intros Hn Hn1 Hno0 passes.
  induction passes as [|passes IH]; intros arr i Hpasses Hi Hre Htail Hcross.
  - assert (i = n - 1) by lia. subst i.
    exists arr. cbn [bubble_passes]. split; [reflexivity|]. split; [exact Hre|].
    apply sorted_join with 0.
    + intros i j a b Hi0 Hij Hj Ha Hb. assert (i = j) by lia. subst j.
      assert (a = b) by congruence. subst b. apply ordered_refl.
    + replace (0 + 1) with (n - (n - 1)) by lia. exact Htail.
    + intros k k' a b Hk Hk'. apply Hcross; lia.
  - pose proof Hre as (Hlen & _).
    pose proof (rearranged_entries Entry 0 (n - 1) arr0 arr Hre Hno0) as Hno.
    assert (Hm : 0 <= n - i - 1 < Z.of_nat (List.length arr)) by lia.
    destruct (bubble_pass_spec (n - i - 1) arr ltac:(lia) ltac:(lia)
                ltac:(intros k v Hk; apply Hno; lia)
                (Z.to_nat (n - i - 1)) arr 0 false
                ltac:(f_equal; lia) ltac:(lia)
                (rearranged_refl 0 (n - i - 1) arr))
      as (arr1 & swapped1 & Hrun & Hre1 & Hlast & Hquiet).
    { intros k a b Hk Ha Hb. assert (k = 0) by lia. subst k.
      assert (a = b) by congruence. subst b. apply ordered_refl. }
    { intros _. split; [reflexivity|]. intros k a b Hk. lia. }
    cbn [bubble_passes]. rewrite Hrun.
    assert (Hre' : rearranged 0 (n - 1) arr0 arr1).
    { eapply rearranged_trans; [exact Hre|].
      apply rearranged_widen with 0 (n - i - 1); [lia|lia|exact Hre1]. }
    assert (Htail1 : sortedBetween ordered (n - i) (n - 1) arr1).
    { intros i0 j0 a b H1 H2 H3.
      rewrite (rearranged_read_outside Entry 0 (n - i - 1) i0 arr arr1 Hre1) by lia.
      rewrite (rearranged_read_outside Entry 0 (n - i - 1) j0 arr arr1 Hre1) by lia.
      apply Htail; assumption. }
    assert (Hcross1 : forall k k' a b, 0 <= k < n - i -> n - i <= k' <= n - 1 ->
              read arr1 k = Some a -> read arr1 k' = Some b -> ordered a b).
    { intros k k' a b Hk Hk' Ha.
      rewrite (rearranged_read_outside Entry 0 (n - i - 1) k' arr arr1 Hre1) by lia.
      intros Hb.
      apply (rearranged_read_all Entry 0 (n - i - 1) arr arr1
               (fun a => ordered a b) Hre1) with k; [|lia|exact Ha].
      intros k0 e Hk0 He. apply (Hcross k0 k' e b); [lia|lia|exact He|exact Hb]. }
    destruct swapped1; cbn [negb].
    + apply IH; try lia; try assumption.
      * replace (n - (i + 1)) with (n - i - 1) by lia.
        apply sorted_join with (n - i - 1).
        -- intros i0 j0 a b H1 H2 H3 Ha Hb. assert (i0 = j0) by lia. subst j0.
           assert (a = b) by congruence. subst b. apply ordered_refl.
        -- replace (n - i - 1 + 1) with (n - i) by lia. exact Htail1.
        -- intros k k' a b Hk Hk'. apply Hcross1; lia.
      * intros k k' a b Hk Hk' Ha Hb.
        destruct (Z.eq_dec k' (n - i - 1)) as [->|Hne].
        -- apply (Hlast k a b); [lia|exact Ha|exact Hb].
        -- apply (Hcross1 k k' a b); [lia|lia|exact Ha|exact Hb].
    + exists arr1. split; [reflexivity|]. split; [exact Hre'|].
      destruct (Hquiet eq_refl) as [_ Hadj].
      apply sorted_join with (n - i - 1).
      * apply adjacent_sorted; try lia.
        -- destruct Hre1 as (Hlen1 & _). lia.
        -- intros k v Hk. apply (rearranged_entries Entry 0 (n - 1) arr0 arr1 Hre' Hno0).
           lia.
        -- exact Hadj.
      * replace (n - i - 1 + 1) with (n - i) by lia. exact Htail1.
      * intros k k' a b Hk Hk'. apply Hcross1; lia.
Qed.

Lemma bubble_pass_ordered (arr : list (option Entry)) (m : Z) :
  m < Z.of_nat (List.length arr) ->
  entriesUpTo 0 m arr ->
  (forall k a b, 0 <= k < m ->
     read arr k = Some a -> read arr (k + 1) = Some b -> ordered a b) ->
  forall (steps : nat) (j : Z),
    steps = Z.to_nat (m - j) -> 0 <= j ->
    bubble_pass Entry sortBy ascending steps arr j false = Returns (arr, false).
Proof.
  intros Hlen Hno Hadj steps.
  induction steps as [|steps IH]; intros j Hsteps Hj; [reflexivity|].
  destruct (read_entry Entry arr 0 m j Hno ltac:(lia) ltac:(lia))
    as [current Hcur].
  destruct (read_entry Entry arr 0 m (j + 1) Hno ltac:(lia) ltac:(lia))
    as [next Hnext].
  cbn [bubble_pass]. rewrite Hcur, Hnext.
  rewrite (proj2 (shouldSwap_false current next)).
  - apply IH; lia.
  - apply (Hadj j); [lia|exact Hcur|exact Hnext].
Qed.

Lemma sorted_adjacent (l : list Entry) :
  StronglySorted ordered l ->
  forall k a b,
    read (map Some l) k = Some a -> read (map Some l) (k + 1) = Some b ->
    ordered a b.
Proof.
  induction 1 as [|h t Hsorted IH Hall]; intros k a b Ha Hb.
  - rewrite read_map_Some in Ha. unfold array_get in Ha.
    destruct (k <? 0); [discriminate|]. destruct (Z.to_nat k); discriminate.
  - rewrite read_map_Some in Ha, Hb.
    pose proof (array_get_bounds _ _ _ Ha) as Hk.
    destruct (Z.eq_dec k 0) as [->|Hne].
    + cbn in Ha. injection Ha as <-.
      rewrite (array_get_cons h t 0) in Hb by lia.
      rewrite Forall_forall in Hall. apply Hall.
      rewrite array_get_nth in Hb by lia. eapply nth_error_In. exact Hb.
    + replace k with (k - 1 + 1) in Ha by lia.
      rewrite array_get_cons in Ha, Hb by lia.
      apply (IH (k - 1) a b); rewrite read_map_Some.
      * exact Ha.
      * replace (k - 1 + 1) with k by lia. exact Hb.
Qed.

(** X30: bubbleSort returns, for every array of entries, the same entries
    in the order asked for (ascending, or descending by default) by the
    property named, an absent property counting as 0; and an array that is
    already in that order comes back as it is, after a single pass. *)
Theorem bubbleSort_sorts (entries : list Entry) :
  (exists sorted,
     bubbleSort Entry sortBy ascending (map Some entries)
     = Returns (map Some sorted)
     /\ Permutation entries sorted
     /\ StronglySorted ordered sorted)
  /\ (StronglySorted ordered entries ->
      bubbleSort Entry sortBy ascending (map Some entries)
      = Returns (map Some entries)).
Proof.
  assert (Hno : forall k (v : option Entry),
             array_get (map Some entries) k = Some v -> v <> None).
  { intros k v. apply array_get_map_Some. }
  destruct (Nat.eq_dec (List.length entries) 0) as [Hzero|Hpos].
  { apply length_zero_iff_nil in Hzero. subst entries. split.
    - exists []. split; [reflexivity|]. split; constructor.
    - intros _. reflexivity. }
  assert (Hn1 : 1 <= Z.of_nat (List.length (map Some entries))).
  { rewrite length_map. lia. }
  split.
  - unfold bubbleSort.
    destruct (bubble_passes_spec (map Some entries)
                (Z.of_nat (List.length (map Some entries))) eq_refl Hn1
                ltac:(intros k v _; apply Hno)
                (Z.to_nat (Z.of_nat (List.length (map Some entries)) - 1))
                (map Some entries) 0
                ltac:(f_equal; lia) ltac:(lia)
                (rearranged_refl _ _ _))
      as (arr' & Hrun & Hre & Hsorted).
    { intros i j a b H1 H2 H3. lia. }
    { intros k k' a b Hk Hk'. lia. }
    destruct Hre as (Hlen & Hperm & _).
    destruct (Permutation_map_inv Some entries (Permutation_sym Hperm))
      as (sorted & -> & Hperm').
    exists sorted. split; [exact Hrun|]. split; [exact Hperm'|].
    apply sortedBetween_sorted.
    rewrite !length_map in Hlen. rewrite length_map in Hsorted.
    rewrite Hlen. exact Hsorted.
  - intros Hsorted. unfold bubbleSort.
    set (n := Z.of_nat (List.length (map Some entries))) in *.
    destruct (Z.to_nat (n - 1)) as [|passes] eqn:Hp; [reflexivity|].
    cbn [bubble_passes].
    rewrite (bubble_pass_ordered (map Some entries) (n - 0 - 1)); try lia.
    + reflexivity.
    + intros k v _. apply Hno.
    + intros k a b _. apply sorted_adjacent. exact Hsorted.
Qed.

End BubbleSortFacts.

(** *** The walk-throughs of the documentation *)

Lemma quicksort_documented_run :
  LeaderboardSorter.quicksortLeaderboard_default
    LeaderboardEntry entry_score entry_completionPercentage
    (map Some quicksortScores)
  = Returns (map Some [scored "Di" 95; scored "Ben" 92; scored "Eve" 88;
                       scored "Ada" 85; scored "Cy" 78]).
Proof. vm_compute. reflexivity. Qed.

Lemma bubbleSort_documented_run :
  LeaderboardSorter.bubbleSort LeaderboardEntry entry_score false
    (map Some bubbleSortScores)
  = Returns (map Some [scored "Ada" 64; scored "Ben" 34; scored "Cy" 25;
                       scored "Eve" 22; scored "Di" 12]).
Proof. vm_compute. reflexivity. Qed.

(** A score of 0 counts as absent: the player without points but with half
    the dungeon done is ranked above the player with 30 points. *)
Lemma quicksort_ranks_zero_score_by_completion :
  LeaderboardSorter.quicksortLeaderboard_default
    LeaderboardEntry entry_score entry_completionPercentage
    (map Some [scored "Ada" 30;
               mkLeaderboardEntry "Ben" (Some 0%Q) (Some 50%Q)])
  = Returns (map Some [mkLeaderboardEntry "Ben" (Some 0%Q) (Some 50%Q);
                       scored "Ada" 30]).
Proof. vm_compute. reflexivity. Qed.
